(** * AsciiDoc-MCP: the document processor, embedded and verified

    A shallow embedding of [src/asciidoc_mcp/asciidoc_processor.py]
    (class [AsciiDocProcessor]).  Python objects that are shared and
    mutated (the heading dictionaries handled by [_build_hierarchy]) live
    in an explicit store; the file system, [pathlib] and the exceptions
    of the entry points are explicit as well. *)

From stdpp Require Import base option list numbers gmap strings.
From Stdlib Require Import Ascii ZArith Lia.

Local Open Scope nat_scope.

(** Python [str] values are sequences of code points; the embedding keeps
    them as lists of 8-bit characters. *)
Abbreviation text := (list ascii).
Abbreviation str := String.list_ascii_of_string.

(** ** Strings *)

Module Str.

Definition nl : ascii := "010"%char.

Definition is_nl (c : ascii) : bool := Ascii.eqb c nl.

(** [str.isspace] on the code points below 256: tab to carriage return,
    the separators 28 to 31, the space, NEL and the no-break space. *)
Definition isspace (c : ascii) : bool :=
  let n := nat_of_ascii c in
  ((9 <=? n) && (n <=? 13)) || ((28 <=? n) && (n <=? 32))
  || (n =? 133) || (n =? 160).

Fixpoint lstrip (s : text) : text :=
  match s with
  | c :: r => if isspace c then lstrip r else s
  | [] => []
  end.

Definition rstrip (s : text) : text := rev (lstrip (rev s)).

(** [s.strip()] *)
Definition strip (s : text) : text := rstrip (lstrip s).

(** [s[a:b]] for [0 <= a] and [0 <= b]. *)
Definition slice (s : text) (a b : nat) : text := take (b - a) (drop a s).

(** [s.count] of the newline character. *)
Definition count_nl (s : text) : nat := length (filter (λ c, is_nl c = true) s).

(** [s.split] at the newline character. *)
Fixpoint split_nl (s : text) : list text :=
  match s with
  | [] => [[]]
  | c :: r =>
      if is_nl c then [] :: split_nl r
      else match split_nl r with
           | l :: ls => (c :: l) :: ls
           | [] => [[c]]
           end
  end.

(** [len(s.split())]: the number of maximal runs without whitespace;
    [inword] tells whether the previous character belongs to a run. *)
Fixpoint count_words (inword : bool) (s : text) : nat :=
  match s with
  | [] => 0
  | c :: r =>
      if isspace c then count_words false r
      else (if inword then 0 else 1) + count_words true r
  end.

End Str.

(** ** The regular expressions of the processor

    The patterns of [__init__] and the escaped query of [search_content]
    are sequences of anchors, literal characters and greedy repetitions of
    a character class; [re] matches them by backtracking. *)

Module Re.
Import Str.

Inductive item :=
  | Bol                                        (* [^] under [re.MULTILINE] *)
  | Eol                                        (* [$] under [re.MULTILINE] *)
  | Lit (c : ascii)                            (* one literal character *)
  | Rep (cls : ascii → bool) (lo : nat) (capture : bool).
      (* [cls+] ([lo = 1]) or [cls*] ([lo = 0]), greedy; a group when in
         parentheses *)

Abbreviation regex := (list item).

(** A match: [m.start()], [m.end()] and the spans of its groups. *)
Record rmatch := mk_rmatch {
  mstart : nat;
  mend : nat;
  mgroups : list (nat * nat)
}.

(** [m.group(k)] for [k >= 1] *)
Definition group (s : text) (m : rmatch) (k : nat) : text :=
  match mgroups m !! (k - 1) with
  | Some (a, b) => slice s a b
  | None => []
  end.

(** Lower case on the code points below 256, for [re.IGNORECASE]. *)
Definition lower (c : ascii) : ascii :=
  let n := nat_of_ascii c in
  if ((65 <=? n) && (n <=? 90))
     || ((192 <=? n) && (n <=? 222) && negb (n =? 215))
  then ascii_of_nat (n + 32) else c.

Definition chr_eq (ignorecase : bool) (c d : ascii) : bool :=
  if ignorecase then Ascii.eqb (lower c) (lower d) else Ascii.eqb c d.

Definition at_bol (s : text) (p : nat) : bool :=
  match p with
  | 0 => true
  | S q => match s !! q with Some c => is_nl c | None => false end
  end.

Definition at_eol (s : text) (p : nat) : bool :=
  match s !! p with Some c => is_nl c | None => true end.

(** The number of characters of [s] from position [p] on that are in
    [cls], up to the first that is not. *)
Fixpoint run_length (cls : ascii → bool) (s : text) : nat :=
  match s with
  | c :: r => if cls c then S (run_length cls r) else 0
  | [] => 0
  end.

(** Greedy choice: try [lo + n], then [lo + n - 1], down to [lo]. *)
Fixpoint backtrack {A} (k : nat → option A) (lo n : nat) : option A :=
  match k (lo + n) with
  | Some r => Some r
  | None => match n with 0 => None | S m => backtrack k lo m end
  end.

(** The match of [re] that starts at position [p] of [s], if any: its end
    and the spans of its groups. *)
Fixpoint match_here (ignorecase : bool) (re : regex) (s : text) (p : nat)
  : option (nat * list (nat * nat)) :=
  match re with
  | [] => Some (p, [])
  | Bol :: r => if at_bol s p then match_here ignorecase r s p else None
  | Eol :: r => if at_eol s p then match_here ignorecase r s p else None
  | Lit c :: r =>
      match s !! p with
      | Some d =>
          if chr_eq ignorecase c d then match_here ignorecase r s (S p)
          else None
      | None => None
      end
  | Rep cls lo capture :: r =>
      let n := run_length cls (drop p s) in
      if n <? lo then None
      else backtrack
             (λ k, '(e, gs) ← match_here ignorecase r s (p + k);
                   Some (e, if capture then (p, p + k) :: gs else gs))
             lo (n - lo)
  end.

(** [re.search]: the first start from [p] on at which [re] matches;
    [fuel] counts the starts still to try. *)
Fixpoint scan (ignorecase : bool) (re : regex) (s : text) (p fuel : nat)
  : option rmatch :=
  match fuel with
  | 0 => None
  | S f =>
      match match_here ignorecase re s p with
      | Some (e, gs) => Some (mk_rmatch p e gs)
      | None => scan ignorecase re s (S p) f
      end
  end.

Definition search (ignorecase : bool) (re : regex) (s : text) (pos : nat)
  : option rmatch :=
  scan ignorecase re s pos (S (length s) - pos).

(** Where the scan resumes after a match: at its end, one further on
    after an empty match. *)
Definition resume (m : rmatch) : nat :=
  if mend m =? mstart m then S (mend m) else mend m.

Fixpoint iter (ignorecase : bool) (re : regex) (s : text) (pos fuel : nat)
  : list rmatch :=
  match fuel with
  | 0 => []
  | S f =>
      match search ignorecase re s pos with
      | Some m => m :: iter ignorecase re s (resume m) f
      | None => []
      end
  end.

(** [pattern.finditer(s, pos)], as a list. *)
Definition finditer (ignorecase : bool) (re : regex) (s : text) (pos : nat)
  : list rmatch :=
  iter ignorecase re s pos (S (length s) - pos).

Definition dot (c : ascii) : bool := negb (is_nl c).

Definition is_char (a : ascii) (c : ascii) : bool := Ascii.eqb c a.

Definition lits (s : text) : regex := Lit <$> s.

(** The pattern "^include::([^[\]]+)\[.*\]$" with [re.MULTILINE]. *)
Definition include_pattern : regex :=
  [Bol] ++ lits (str "include::")
  ++ [Rep (λ c, negb (is_char "[" c || is_char "]" c)) 1 true;
      Lit "["; Rep dot 0 false; Lit "]"; Eol].

(** The pattern "^(=+)\s+(.+)$" with [re.MULTILINE]. *)
Definition heading_pattern : regex :=
  [Bol; Rep (is_char "=") 1 true; Rep isspace 1 false; Rep dot 1 true; Eol].

(** The attribute pattern with [re.MULTILINE]: "^:([^:]+):\s*", then the
    group of any characters of the line, zero or more, then "$". *)
Definition attribute_pattern : regex :=
  [Bol; Lit ":"; Rep (λ c, negb (is_char ":" c)) 1 true; Lit ":";
   Rep isspace 0 false; Rep dot 0 true; Eol].

(** The pattern "^=\s+(.+)$" with [re.MULTILINE]. *)
Definition title_pattern : regex :=
  [Bol; Lit "="; Rep isspace 1 false; Rep dot 1 true; Eol].

(** The pattern "^:title:\s*(.+)$" with [re.MULTILINE]. *)
Definition title_attr_pattern : regex :=
  [Bol] ++ lits (str ":title:") ++ [Rep isspace 0 false; Rep dot 1 true; Eol].

(** [re.escape(query)]: every character of the query stands for itself. *)
Definition escape (query : text) : regex := lits query.

(** The least number of characters that a match of [re] spans. *)
Fixpoint min_len (re : regex) : nat :=
  match re with
  | [] => 0
  | Lit _ :: r => 1 + min_len r
  | Rep _ lo _ :: r => lo + min_len r
  | _ :: r => min_len r
  end.

(** The query occurs in [line] at offset [p] (up to case when
    [ignorecase]). *)
Definition occurs_at (ignorecase : bool) (q line : text) (p : nat) : Prop :=
  p + length q ≤ length line ∧
  ∀ k c, q !! k = Some c →
    ∃ d, line !! (p + k) = Some d ∧ chr_eq ignorecase c d = true.

End Re.

(** ** The hierarchy builder *)

Module Hier.

(** A store location names one Python [dict] object. *)
Abbreviation loc := nat (only parsing).

(** The heading dictionary: the keys written by
    [analyze_document_structure] ([content] only on request) and the
    [children] key that [_build_hierarchy] adds; a child is a reference
    to another dictionary. *)
Record hdict := mk_hdict {
  level : Z;
  title : text;
  line_number : nat;
  position : nat;
  content : option text;
  children : option (list loc)
}.

(** The store: object [l] is the [l]-th entry, a new object is appended. *)
Abbreviation heap := (list hdict).

(** [d = heading.copy(); d["children"] = cs]: a new dictionary with the
    keys of [heading] and the key [children] bound to [cs]. *)
Definition with_children (d : hdict) (cs : list loc) : hdict :=
  {| level := level d; title := title d; line_number := line_number d;
     position := position d; content := content d; children := Some cs |}.

(** [h[p]["children"].append(x)], an update in place of object [p];
    [None] stands for the [KeyError] of a dictionary without the key. *)
Definition append_child (h : heap) (p x : loc) : option heap :=
  d ← h !! p;
  cs ← children d;
  Some (<[p := with_children d (cs ++ [x])]> h).

(** The local variables of the loop of [_build_hierarchy].  The Python
    list [stack] is kept with its last element first: [stack[-1]] is the
    head, [stack.pop()] drops it, [stack.append] conses. *)
Record state := mk_state {
  hp : heap;
  hierarchy : list loc;
  stack : list loc
}.

(** [while stack and stack[-1]["level"] >= level: stack.pop()] *)
Fixpoint pop_while (h : heap) (lvl : Z) (stk : list loc) : option (list loc) :=
  match stk with
  | [] => Some []
  | top :: rest =>
      d ← h !! top;
      if (lvl <=? level d)%Z then pop_while h lvl rest else Some stk
  end.

(** One iteration of [for heading in headings]. *)
Definition step (s : state) (heading : loc) : option state :=
  d ← hp s !! heading;
  let lvl := level d in
  stk ← pop_while (hp s) lvl (stack s);
  let heading_with_children := length (hp s) in
  let h1 := hp s ++ [with_children d []] in
  match stk with
  | parent :: _ =>
      h2 ← append_child h1 parent heading_with_children;
      Some (mk_state h2 (hierarchy s) (heading_with_children :: stk))
  | [] =>
      Some (mk_state h1 (hierarchy s ++ [heading_with_children])
                     [heading_with_children])
  end.

Fixpoint for_each (s : state) (headings : list loc) : option state :=
  match headings with
  | [] => Some s
  | heading :: rest => s' ← step s heading; for_each s' rest
  end.

(** [_build_hierarchy(self, headings)]: the store after the call and the
    returned list [hierarchy]. *)
Definition _build_hierarchy (h : heap) (headings : list loc)
  : option (heap * list loc) :=
  match headings with
  | [] => Some (h, [])
  | _ =>
      s ← for_each (mk_state h [] []) headings;
      Some (hp s, hierarchy s)
  end.

(** *** Reading the result

    [child h a b]: dictionary [b] is an element of [a]'s [children]. *)
Definition child (h : heap) (a b : loc) : Prop :=
  ∃ d cs, h !! a = Some d ∧ children d = Some cs ∧ b ∈ cs.

(** [descendant h a b]: [b] is reached from [a] by one or more [children]
    steps. *)
Inductive descendant (h : heap) : loc → loc → Prop :=
  | desc_child a b : child h a b → descendant h a b
  | desc_step a c b : child h a c → descendant h c b → descendant h a b.

Fixpoint flat_mapM {A B} (f : A → option (list B)) (l : list A)
  : option (list B) :=
  match l with
  | [] => Some []
  | x :: r => a ← f x; b ← flat_mapM f r; Some (a ++ b)
  end.

(** The pre-order walk of the specification: a node, then the walks of its
    children in stored order.  [fuel] bounds the nesting depth; [None]
    when it runs out or a dictionary has no [children]. *)
Fixpoint preorder (fuel : nat) (h : heap) (l : loc) : option (list loc) :=
  match fuel with
  | 0 => None
  | S f =>
      d ← h !! l;
      cs ← children d;
      sub ← flat_mapM (preorder f h) cs;
      Some (l :: sub)
  end.

Definition flatten (fuel : nat) (h : heap) (roots : list loc)
  : option (list loc) :=
  flat_mapM (preorder fuel h) roots.

(** *** The input seen as a sequence of records *)

Definition no_heading : hdict := mk_hdict 0 [] 0 0 None None.

(** The [k]-th heading record of the call. *)
Definition heading_at (h : heap) (headings : list loc) (k : nat) : hdict :=
  default no_heading (headings !! k ≫= λ l, h !! l).

Definition level_at (h : heap) (headings : list loc) (k : nat) : Z :=
  level (heading_at h headings k).

(** The words of the specification: the nearest heading before position
    [i] whose level is strictly smaller than [L], found by looking back
    from [i]. *)
Fixpoint nearest_smaller (lv : nat → Z) (L : Z) (i : nat) : option nat :=
  match i with
  | 0 => None
  | S k => if (lv k <? L)%Z then Some k else nearest_smaller lv L k
  end.

Definition parent_index (lv : nat → Z) (i : nat) : option nat :=
  nearest_smaller lv (lv i) i.

(** [j] is the nearest heading before [i] with a strictly smaller level,
    as a property. *)
Definition nearest_preceding_smaller (lv : nat → Z) (i j : nat) : Prop :=
  j < i ∧ (lv j < lv i)%Z ∧ ∀ k, j < k < i → (lv i ≤ lv k)%Z.

(** The section opened by heading [j] among [n] headings ends before [e]:
    the headings in between lie deeper, and [e], if it is a heading, does
    not. *)
Definition section_end (lv : nat → Z) (n j e : nat) : Prop :=
  j < e ≤ n ∧ (∀ k, j < k < e → (lv j < lv k)%Z) ∧ (e < n → (lv e ≤ lv j)%Z).

(** The loop on positions instead of references: the stack of open
    sections after [i] headings. *)
Fixpoint drop_ge (lv : nat → Z) (L : Z) (stk : list nat) : list nat :=
  match stk with
  | [] => []
  | t :: r => if (L <=? lv t)%Z then drop_ge lv L r else stk
  end.

Fixpoint open_sections (lv : nat → Z) (i : nat) : list nat :=
  match i with
  | 0 => []
  | S k => k :: drop_ge lv (lv k) (open_sections lv k)
  end.

(** The headings among the first [i] whose parent is [q]. *)
Definition attached (lv : nat → Z) (i : nat) (q : option nat) : list nat :=
  filter (λ c, parent_index lv c = q) (seq 0 i).

(** The state of the loop after [i] iterations, in closed form. *)
Definition node_after (h : heap) (headings : list loc) (i k : nat) : hdict :=
  with_children (heading_at h headings k)
    ((λ c, length h + c) <$> attached (level_at h headings) i (Some k)).

Definition state_after (h : heap) (headings : list loc) (i : nat) : state :=
  mk_state
    (h ++ (node_after h headings i <$> seq 0 i))
    ((λ c, length h + c) <$> attached (level_at h headings) i None)
    ((λ c, length h + c) <$> open_sections (level_at h headings) i).

(** The headings of [test_build_hierarchy]. *)
Definition sample_heap : heap :=
  [ mk_hdict 1 (str "Main") 1 0 None None;
    mk_hdict 2 (str "Chapter 1") 5 100 None None;
    mk_hdict 3 (str "Section 1.1") 10 200 None None;
    mk_hdict 2 (str "Chapter 2") 15 300 None None ].

Definition sample_headings : list loc := [0; 1; 2; 3].

End Hier.

(** ** The entry points of [AsciiDocProcessor] *)

Module Proc.
Import Str Re Hier.

(** An exception is kept as its message [str(e)]. *)
Abbreviation exn := text (only parsing).

(** The outcome of a Python computation: a value or a raised exception. *)
Inductive result (A : Type) : Type :=
  | Ok (a : A)
  | Raise (e : exn).
Arguments Ok {A} a.
Arguments Raise {A} e.

Definition bind {A B} (r : result A) (k : A → result B) : result B :=
  match r with
  | Ok a => k a
  | Raise e => Raise e
  end.

(** [try: body except Exception as e: handler(e)] *)
Definition try_except {A} (body : result A) (handler : exn → result A)
  : result A :=
  match body with
  | Ok a => Ok a
  | Raise e => handler e
  end.

(** What an entry point returns: the dictionary with the single key
    [error], or the dictionary of the operation. *)
Inductive response (A : Type) : Type :=
  | Error (error : text)
  | Success (a : A).
Arguments Error {A} error.
Arguments Success {A} a.

(** [os.stat_result], the three fields that are read.  The time stamps
    are only copied into the result; they are kept as integers. *)
Record stat_result := mk_stat {
  st_size : nat;
  st_mtime : Z;
  st_ctime : Z
}.

(** The file system and [pathlib].  A [Path] object is kept as its string
    [str(path)].  Every operation that asks the file system may raise:
    reading a file, [stat], the directory walk, and also the existence
    test, which passes on every [OSError] other than the ones that mean
    that the file is not there (a name too long, a directory that may not
    be searched), and the resolution of a path.  The file system does not
    change during a call: an operation asked twice answers the same. *)
Record world := mk_world {
  Path : text → text;                      (* [str(Path(s))] *)
  exists_ : text → result bool;            (* [path.exists()] *)
  read_text : text → result text;          (* [path.read_text(encoding='utf-8')] *)
  stat : text → result stat_result;        (* [path.stat()] *)
  is_absolute : text → bool;               (* [Path(s).is_absolute()] *)
  resolve_in_parent : text → text → result text;
                                           (* [(path.parent / s).resolve()] *)
  rglob_adoc : result (list text)          (* [list(Path.cwd().rglob("*.adoc"))] *)
}.

(** *** [_extract_document_title] *)

Definition _extract_document_title (content : text) : text :=
  match search false title_pattern content 0 with
  | Some title_match => strip (group content title_match 1)
  | None =>
      match search false title_attr_pattern content 0 with
      | Some title_attr_match => strip (group content title_attr_match 1)
      | None => []
      end
  end.

(** *** [analyze_document_structure] *)

(** The inner loop over [finditer(content, content_start)]: the start of
    the first match whose level is at most [level], else [len(content)]. *)
Fixpoint content_end (content : text) (level : nat) (nexts : list rmatch)
  : nat :=
  match nexts with
  | [] => length content
  | next_match :: rest =>
      let next_level := length (group content next_match 1) in
      if next_level <=? level then mstart next_match
      else content_end content level rest
  end.

(** The dictionary [heading_info] built for one match. *)
Definition heading_info (content : text) (include_content : bool)
    (m : rmatch) : hdict :=
  let level := length (group content m 1) in
  let title := strip (group content m 2) in
  let start_pos := mstart m in
  {| Hier.level := Z.of_nat level;
     Hier.title := title;
     Hier.line_number := count_nl (take start_pos content) + 1;
     Hier.position := start_pos;
     Hier.content :=
       if include_content then
         let content_start := mend m in
         Some (strip (slice content content_start
                 (content_end content level
                    (finditer false heading_pattern content content_start))))
       else None;
     Hier.children := None |}.

Record statistics := mk_statistics {
  lines : nat;
  characters : nat;
  words : nat
}.

(** The dictionary returned on success; [structure] is a list of
    references into [store]. *)
Record structure_result := mk_structure_result {
  sr_file_path : text;
  sr_title : text;
  total_headings : nat;
  store : heap;
  structure : list loc;
  sr_statistics : statistics
}.

Definition analyze_document_structure (w : world) (file_path : text)
    (include_content : bool) : result (response structure_result) :=
  try_except
    (let path := Path w file_path in
     bind (exists_ w path) (λ found,
     if negb found then
       Ok (Error (str "File not found: " ++ file_path))
     else
       bind (read_text w path) (λ content,
       let headings :=
         heading_info content include_content
           <$> finditer false heading_pattern content 0 in
       match _build_hierarchy headings (seq 0 (length headings)) with
       | None => Raise (str "KeyError")
       | Some (store', structure') =>
           Ok (Success
             {| sr_file_path := file_path;
                sr_title := _extract_document_title content;
                total_headings := length headings;
                store := store';
                structure := structure';
                sr_statistics :=
                  {| lines := count_nl content + 1;
                     characters := length content;
                     words := count_words false content |} |})
       end)))
    (λ e, Ok (Error e)).

(** [len(match.group(1))], the level of a heading match. *)
Definition level_of (content : text) (m : rmatch) : nat :=
  length (group content m 1).

(** The words of the specification: [bound] is the start of the first
    heading after the [k]-th whose level is at most [L], or the end of the
    document when there is none; [ms] are the headings in document order. *)
Definition section_bound (content : text) (ms : list rmatch) (k L bound : nat)
  : Prop :=
  (∃ j m', k < j ∧ ms !! j = Some m' ∧ level_of content m' ≤ L
           ∧ (∀ i m'', k < i < j → ms !! i = Some m'' →
                L < level_of content m'')
           ∧ bound = mstart m')
  ∨ ((∀ i m'', k < i → ms !! i = Some m'' → L < level_of content m'')
     ∧ bound = length content).

(** A heading as the specification words it: a line that begins with one
    or more markers, followed by whitespace and text.  The result is the
    number of markers, the level. *)
Definition heading_line (ln : text) : option nat :=
  let k := run_length (is_char "=") ln in
  let rest := drop k ln in
  let j := run_length isspace rest in
  if (0 <? k) && (0 <? j) && (0 <? length (drop j rest))
  then Some k else None.

(** An attribute declaration as the specification words it: a line of the
    form of a colon, a name, a colon and a value, name and value
    trimmed. *)
Definition declaration_line (ln : text) : option (text * text) :=
  match ln with
  | c :: rest =>
      let k := run_length (λ c, negb (is_char ":" c)) rest in
      if is_char ":" c && (0 <? k) && (k <? length rest)
      then Some (strip (take k rest), strip (drop (S k) rest))
      else None
  | [] => None
  end.

(** [msg] contains [p]. *)
Definition mentions (msg p : text) : Prop := ∃ pre post, msg = pre ++ p ++ post.

(** *** [find_includes] *)

#[local] Unset Elimination Schemes.
Inductive include_info : Type := mk_include_info {
  path : text;
  resolved_path : text;
  exists_on_disk : bool;                      (* the key [exists] *)
  inc_line_number : nat;
  depth : nat;
  parent_file : text;
  nested_includes : option (list include_info)  (* [None]: key absent *)
}.
#[local] Set Elimination Schemes.

(** The resolution of an include target: relative to the directory of the
    including file unless the target is absolute. *)
Definition resolve_include (w : world) (current_path include_path : text)
  : result text :=
  if negb (is_absolute w include_path)
  then resolve_in_parent w current_path include_path
  else Ok (Path w include_path).

(** The loop [for match in self.include_pattern.finditer(content)] of
    [find_includes_in_file], which runs inside the [try] of the closure;
    [nested_call] is the recursive call, and the set [processed_files]
    that the calls update is passed in and out.  The resolution of the
    target and its existence test may raise: the loop then stops with
    that exception, and the set keeps what the nested calls added.  The
    existence test is asked once for the record and, when [recursive] is
    set, once more for the condition. *)
Fixpoint include_loop
    (nested_call : text → nat → gset text
                   → option (list include_info * gset text))
    (w : world) (recursive : bool) (content current_path : text)
    (depth : nat) (ms : list rmatch) (file_includes : list include_info)
    (processed_files : gset text)
  : option (result (list include_info) * gset text) :=
  match ms with
  | [] => Some (Ok file_includes, processed_files)
  | m :: rest =>
      let include_path := group content m 1 in
      let line_number := count_nl (take (mstart m) content) + 1 in
      match resolve_include w current_path include_path with
      | Raise e => Some (Raise e, processed_files)
      | Ok resolved =>
          match exists_ w resolved with
          | Raise e => Some (Raise e, processed_files)
          | Ok found =>
              let info := mk_include_info include_path resolved found
                            line_number depth current_path in
              match (if recursive then exists_ w resolved else Ok false) with
              | Raise e => Some (Raise e, processed_files)
              | Ok again =>
                  if again && (depth <? 10) then
                    match nested_call resolved (depth + 1) processed_files
                    with
                    | None => None
                    | Some (nested, processed_files) =>
                        include_loop nested_call w recursive content
                          current_path depth rest
                          (file_includes ++ [info (Some nested)])
                          processed_files
                    end
                  else
                    include_loop nested_call w recursive content
                      current_path depth rest
                      (file_includes ++ [info None]) processed_files
              end
          end
      end
  end.

(** The closure [find_includes_in_file]: every exception of its body, of
    [read_text] or of the loop, is caught and the call then returns the
    empty list.  [fuel] bounds the nesting of calls and [None] means that
    it ran out. *)
Fixpoint find_includes_in_file (fuel : nat) (w : world) (recursive : bool)
    (current_path : text) (depth : nat) (processed_files : gset text)
  : option (list include_info * gset text) :=
  match fuel with
  | 0 => None
  | S fuel' =>
      if decide (current_path ∈ processed_files) then
        Some ([], processed_files)
      else
        let processed_files := processed_files ∪ {[current_path]} in
        match read_text w current_path with
        | Raise _ => Some ([], processed_files)
        | Ok content =>
            '(file_includes, processed_files) ←
              include_loop (find_includes_in_file fuel' w recursive)
                w recursive content current_path depth
                (finditer false include_pattern content 0) []
                processed_files;
            Some (match file_includes with
                  | Ok file_includes => file_includes
                  | Raise _ => []
                  end, processed_files)
        end
  end.

Record includes_result := mk_includes_result {
  ir_file_path : text;
  total_includes : nat;
  includes : list include_info;
  processed_files : list text
}.

(** [find_includes]; [None] when [fuel] does not cover the nesting of
    [find_includes_in_file]. *)
Definition find_includes (fuel : nat) (w : world) (file_path : text)
    (recursive : bool) : option (result (response includes_result)) :=
  let path := Path w file_path in
  match exists_ w path with
  | Raise e => Some (try_except (Raise e) (λ e, Ok (Error e)))
  | Ok false =>
      Some (try_except
              (Ok (Error (str "File not found: " ++ file_path)))
              (λ e, Ok (Error e)))
  | Ok true =>
      '(includes, processed) ←
        find_includes_in_file fuel w recursive path 0 ∅;
      Some (try_except
              (Ok (Success
                 {| ir_file_path := file_path;
                    total_includes := length includes;
                    includes := includes;
                    processed_files := elements processed |}))
              (λ e, Ok (Error e)))
  end.

(** *** [extract_metadata] *)

Record file_info := mk_file_info {
  size_bytes : nat;
  modified : Z;
  created : Z
}.

Record metadata_result := mk_metadata_result {
  mr_file_path : text;
  mr_title : text;
  author : text;
  email : text;
  revision : text;
  date : text;
  attributes : gmap text text;
  mr_file_info : file_info
}.

(** [match.group(1).strip()] and [match.group(2).strip()] *)
Definition attr_name (content : text) (m : rmatch) : text :=
  strip (group content m 1).

Definition attr_value (content : text) (m : rmatch) : text :=
  strip (group content m 2).

(** The loop [attributes[attr_name] = attr_value] over the matches, from
    the dictionary [attributes]. *)
Definition collect_attributes (content : text) (attributes : gmap text text)
    (ms : list rmatch) : gmap text text :=
  foldl (λ attributes m,
           <[attr_name content m := attr_value content m]> attributes)
        attributes ms.

Definition extract_metadata (w : world) (file_path : text)
  : result (response metadata_result) :=
  try_except
    (let path := Path w file_path in
     bind (exists_ w path) (λ found,
     if negb found then
       Ok (Error (str "File not found: " ++ file_path))
     else
       bind (read_text w path) (λ content,
       let attributes :=
         collect_attributes content ∅
           (finditer false attribute_pattern content 0) in
       let title := _extract_document_title content in
       let author := default [] (attributes !! str "author") in
       let email := default [] (attributes !! str "email") in
       let revision := default [] (attributes !! str "revnumber") in
       let date := default [] (attributes !! str "revdate") in
       bind (stat w path) (λ st,
       Ok (Success
         {| mr_file_path := file_path;
            mr_title := title;
            author := author;
            email := email;
            revision := revision;
            date := date;
            attributes := attributes;
            mr_file_info :=
              {| size_bytes := st_size st;
                 modified := st_mtime st;
                 created := st_ctime st |} |})))))
    (λ e, Ok (Error e)).

(** *** [search_content] *)

Record search_result := mk_search_result {
  file : text;
  line_number : nat;
  line : text;
  context : list text;
  match_positions : list (nat * nat)
}.

Record search_response := mk_search_response {
  query : text;
  case_sensitive : bool;
  total_matches : nat;
  files_searched : list text;
  results : list search_result
}.

(** [m.span()] *)
Definition span (m : rmatch) : nat * nat := (mstart m, mend m).

(** The body of [for i, line in enumerate(lines)] for one line: the
    result appended, if the line matches. *)
Definition line_result (ignorecase : bool) (search_pattern : regex)
    (path : text) (lines : list text) (i : nat) (line : text)
  : option search_result :=
  match search ignorecase search_pattern line 0 with
  | Some _ =>
      let start_line := Nat.max 0 (i - 2) in
      let end_line := Nat.min (length lines) (i + 3) in
      let context_lines := take (end_line - start_line) (drop start_line lines) in
      Some {| file := path;
              line_number := i + 1;
              line := strip line;
              context := context_lines;
              match_positions :=
                span <$> finditer ignorecase search_pattern line 0 |}
  | None => None
  end.

(** The results that one file contributes. *)
Definition file_results (ignorecase : bool) (search_pattern : regex)
    (path : text) (content : text) : list search_result :=
  let lines := split_nl content in
  omap id (imap (line_result ignorecase search_pattern path lines) lines).

(** One iteration of [for path in files_to_search], on the pair
    ([results], [files_searched]). *)
Definition search_file (w : world) (ignorecase : bool)
    (search_pattern : regex) (acc : list search_result * list text)
    (path : text) : list search_result * list text :=
  match read_text w path with
  | Ok content =>
      (acc.1 ++ file_results ignorecase search_pattern path content,
       acc.2 ++ [path])
  | Raise _ => acc
  end.

(** [if file_path:] an argument that is [None] or empty is false. *)
Definition truthy (file_path : option text) : option text :=
  match file_path with
  | Some (c :: r) => Some (c :: r)
  | _ => None
  end.

Definition search_content (w : world) (query : text)
    (file_path : option text) (case_sensitive : bool)
  : result (response search_response) :=
  try_except
    (let run (files_to_search : list text) :=
       let ignorecase := negb case_sensitive in
       let search_pattern := escape query in
       let '(results, files_searched) :=
         foldl (search_file w ignorecase search_pattern) ([], [])
               files_to_search in
       Ok (Success
         {| query := query;
            case_sensitive := case_sensitive;
            total_matches := length results;
            files_searched := files_searched;
            results := results |}) in
     match truthy file_path with
     | Some file_path =>
         let path := Path w file_path in
         bind (exists_ w path) (λ found,
         if negb found then
           Ok (Error (str "File not found: " ++ file_path))
         else run [path])
     | None => bind (rglob_adoc w) run
     end)
    (λ e, Ok (Error e)).

(** [read_text] succeeds on [p]. *)
Definition loads (w : world) (p : text) : bool :=
  match read_text w p with
  | Ok _ => true
  | Raise _ => false
  end.

(** The results that the file [p] of the file system contributes. *)
Definition contribution (w : world) (ignorecase : bool)
    (search_pattern : regex) (p : text) : list search_result :=
  match read_text w p with
  | Ok content => file_results ignorecase search_pattern p content
  | Raise _ => []
  end.

(** The list [files_to_search] of a call that reaches its loop. *)
Definition files_to_search (w : world) (file_path : option text)
  : option (list text) :=
  match truthy file_path with
  | Some file_path =>
      match exists_ w (Path w file_path) with
      | Ok true => Some [Path w file_path]
      | _ => None
      end
  | None =>
      match rglob_adoc w with
      | Ok files => Some files
      | Raise _ => None
      end
  end.

(** The claim as the specification words it: the recorded spans are the
    spans of every occurrence of the query in the line. *)
Definition records_every_occurrence (ignorecase : bool) (q line : text)
    (spans : list (nat * nat)) : Prop :=
  ∀ p, occurs_at ignorecase q line p → (p, p + length q) ∈ spans.

(** What a scan from left to right records: occurrences of the query, in
    increasing order and without overlap, such that every occurrence of
    the query starts inside a recorded span or at its start. *)
Definition records_scanned_occurrences (ignorecase : bool) (q line : text)
    (spans : list (nat * nat)) : Prop :=
  spans ≠ []
  ∧ (∀ a b, (a, b) ∈ spans →
       occurs_at ignorecase q line a ∧ b = a + length q)
  ∧ (∀ k a b a' b', spans !! k = Some (a, b) → spans !! S k = Some (a', b') →
       a < a' ∧ b ≤ a')
  ∧ (∀ p, occurs_at ignorecase q line p →
       ∃ a b, (a, b) ∈ spans ∧ a ≤ p ∧ (p < b ∨ p = a)).

(** The context of line [i]: the lines [i - 2] to [i + 2] that exist. *)
Definition context_window (lines : list text) (i : nat) (ctx : list text)
  : Prop :=
  length ctx ≤ 5
  ∧ ∀ j, ctx !! j
         = if decide (i - 2 + j < i + 3) then lines !! (i - 2 + j) else None.

(** *** Small file systems to run the entry points on *)

(** All paths live in the directory ["/"]. *)
Definition flat_resolve (current_path include_path : text) : text :=
  str "/" ++ include_path.

Definition starts_with_slash (p : text) : bool :=
  match p with
  | c :: _ => Ascii.eqb c "/"
  | [] => false
  end.

(** No file exists. *)
Definition empty_world : world :=
  {| Path := λ p, p;
     exists_ := λ _, Ok false;
     read_text := λ _, Raise (str "No such file or directory");
     stat := λ _, Raise (str "No such file or directory");
     is_absolute := starts_with_slash;
     resolve_in_parent := λ current_path include_path,
       Ok (flat_resolve current_path include_path);
     rglob_adoc := Ok [] |}.

(** The files of [files], a list of paths and contents, and nothing else;
    [broken] are paths that turn up in the directory walk and cannot be
    read. *)
Definition lookup_file (files : list (text * text)) (p : text)
  : option text :=
  snd <$> head (filter (λ f, f.1 = p) files).

Definition files_world (files : list (text * text)) (broken : list text)
  : world :=
  {| Path := λ p, p;
     exists_ := λ p, Ok (bool_decide (is_Some (lookup_file files p))
                         || bool_decide (p ∈ broken));
     read_text := λ p,
       match lookup_file files p with
       | Some content => Ok content
       | None => Raise (str "cannot read the file")
       end;
     stat := λ p,
       match lookup_file files p with
       | Some content => Ok (mk_stat (length content) 0 0)
       | None => Raise (str "cannot stat the file")
       end;
     is_absolute := starts_with_slash;
     resolve_in_parent := λ current_path include_path,
       Ok (flat_resolve current_path include_path);
     rglob_adoc := Ok ((fst <$> files) ++ broken) |}.

(** The document of the specification's example: a title, two chapters,
    and a section in the first chapter. *)
Definition sample_doc : text :=
  str "= Title" ++ [nl] ++ str "intro" ++ [nl]
  ++ str "== A" ++ [nl] ++ str "text of a" ++ [nl]
  ++ str "=== A.1" ++ [nl] ++ str "deep" ++ [nl]
  ++ str "== B" ++ [nl] ++ str "last" ++ [nl].

Definition sample_world : world :=
  files_world [(str "/doc.adoc", sample_doc)] [].

(** The document of the last-write-wins example. *)
Definition jane_doc : text :=
  str ":author: Jane" ++ [nl] ++ str ":author: Jane2".

Definition jane_world : world :=
  files_world [(str "/jane.adoc", jane_doc)] [].

(** A file that includes itself, and a file that includes a file that
    does not exist. *)
Definition self_world : world :=
  files_world [(str "/a.adoc", str "include::a.adoc[]")] [].

(** A directory with a readable file and one that cannot be read. *)
Definition broken_world : world :=
  files_world [(str "/doc.adoc", sample_doc)] [str "/broken.adoc"].

(** A line in which the query [aa] occurs at the offsets 0 and 1. *)
Definition overlap_world : world :=
  files_world [(str "/o.adoc", str "aaa")] [].

(** The same self-including file reached under two spellings of its path:
    the relative one given by the caller and the resolved one. *)
Definition spelling_world : world :=
  files_world [(str "a.adoc", str "include::a.adoc[]");
               (str "/a.adoc", str "include::a.adoc[]")] [].

Definition main_doc : text :=
  str "= Main" ++ [nl] ++ str "include::chapter2.adoc[]" ++ [nl].

Definition main_world : world :=
  files_world [(str "/main.adoc", main_doc)] [].

(** A file system that fails on some paths: the existence test,
    [read_text] and [stat] of a path listed in [failing] raise the text
    listed with it. *)
Definition failing_world (w : world) (failing : list (text * text))
  : world :=
  {| Path := Path w;
     exists_ := λ p,
       match lookup_file failing p with
       | Some e => Raise e
       | None => exists_ w p
       end;
     read_text := λ p,
       match lookup_file failing p with
       | Some e => Raise e
       | None => read_text w p
       end;
     stat := λ p,
       match lookup_file failing p with
       | Some e => Raise e
       | None => stat w p
       end;
     is_absolute := is_absolute w;
     resolve_in_parent := resolve_in_parent w;
     rglob_adoc := rglob_adoc w |}.

(** A file name of 300 characters.  No file has such a name: the system
    refuses it with the error 36, the name being too long, which the
    existence test passes on; the text of the exception shows the path as
    [repr] writes it. *)
Definition long_name (c : ascii) : text := replicate 300 c.

Definition long_path : text := str "/" ++ long_name "a".

Definition long_path_error : text :=
  str "[Errno 36] File name too long: '/" ++ long_name "a" ++ str "'".

Definition long_name_world : world :=
  failing_world empty_world [(long_path, long_path_error)].

(** The same with a newline in the name, which [repr] writes as a
    backslash and the letter n. *)
Definition newline_path : text := str "/" ++ [nl] ++ long_name "a".

Definition newline_path_error : text :=
  str "[Errno 36] File name too long: '/\n" ++ long_name "a" ++ str "'".

Definition newline_name_world : world :=
  failing_world empty_world [(newline_path, newline_path_error)].

(** A file whose one include directive names a file of 300 characters and
    more. *)
Definition long_target : text := long_name "b" ++ str ".adoc".

Definition long_target_doc : text :=
  str "include::" ++ long_target ++ str "[]".

Definition long_target_world : world :=
  failing_world (files_world [(str "/l.adoc", long_target_doc)] [])
    [(str "/" ++ long_target,
      str "[Errno 36] File name too long: '/" ++ long_target ++ str "'")].

(** A file with two include directives, the second of which names such a
    file; the first one is a file without directive. *)
Definition mixed_target_doc : text :=
  str "include::ok.adoc[]" ++ [nl] ++ long_target_doc.

Definition mixed_target_world : world :=
  failing_world
    (files_world [(str "/l.adoc", mixed_target_doc);
                  (str "/ok.adoc", str "text")] [])
    [(str "/" ++ long_target,
      str "[Errno 36] File name too long: '/" ++ long_target ++ str "'")].

(** A section that holds an example block: the lines of four [=] are the
    delimiters of the block, not headings. *)
Definition delimited_doc : text :=
  str "==== Sub" ++ [nl] ++ str "before" ++ [nl]
  ++ str "====" ++ [nl] ++ str "example" ++ [nl]
  ++ str "====" ++ [nl] ++ str "after" ++ [nl]
  ++ str "== Next".

Definition delimited_world : world :=
  files_world [(str "/d.adoc", delimited_doc)] [].

(** Two declarations of [author] with a declaration without value
    between them. *)
Definition toc_doc : text :=
  str ":author: Jane" ++ [nl] ++ str ":toc:" ++ [nl] ++ str ":author: Bob".

Definition toc_world : world :=
  files_world [(str "/t.adoc", toc_doc)] [].

End Proc.

(** ** Further notions to state properties of the processor *)

Module Extra.
Import Str Re Hier Proc.

(** [b] is reached from [a] by [n] steps into [children]. *)
Inductive reaches (h : heap) : nat → loc → loc → Prop :=
  | reaches_here a : reaches h 0 a a
  | reaches_step n a c b :
      child h a c → reaches h n c b → reaches h (S n) a b.

(** The dictionaries of [l] are in the order of their creation and their
    levels do not increase. *)
Definition siblings_ordered (h : heap) (l : list loc) : Prop :=
  ∀ k k' x y, k < k' → l !! k = Some x → l !! k' = Some y →
    x < y ∧ ∃ dx dy, h !! x = Some dx ∧ h !! y = Some dy
                     ∧ (level dy ≤ level dx)%Z.

(** [t] neither begins nor ends with whitespace. *)
Definition trimmed (t : text) : Prop :=
  (∀ c, head t = Some c → isspace c = false)
  ∧ (∀ c, last t = Some c → isspace c = false).

(** [t] is [raw] without its leading and trailing whitespace. *)
Definition trim_of (raw t : text) : Prop :=
  trimmed t
  ∧ ∃ a b, raw = a ++ t ++ b
           ∧ Forall (λ c, isspace c = true) a
           ∧ Forall (λ c, isspace c = true) b.

(** The characters of [s] up to the first newline. *)
Fixpoint first_line (s : text) : text :=
  match s with
  | [] => []
  | c :: r => if is_nl c then [] else c :: first_line r
  end.

(** The bookkeeping of one include record met at nesting depth [d] in the
    file [parent], and of the records nested in it: depth and parent file,
    the resolution and existence of the target, and the key
    [nested_includes], present exactly when the search recurses. *)
Fixpoint include_ok (w : world) (recursive : bool) (d : nat) (parent : text)
    (x : include_info) {struct x} : Prop :=
  match x with
  | mk_include_info p rp ex ln dp pf nested =>
      dp = d ∧ pf = parent ∧ d ≤ 10
      ∧ resolve_include w parent p = Ok rp
      ∧ exists_ w rp = Ok ex
      ∧ match nested with
        | None => recursive && ex && (d <? 10) = false
        | Some l =>
            recursive = true ∧ ex = true ∧ d < 10
            ∧ (fix all (l : list include_info) : Prop :=
                 match l with
                 | [] => True
                 | y :: r => include_ok w recursive (S d) rp y ∧ all r
                 end) l
        end
  end.

(** The same for a list of records. *)
Definition includes_ok (w : world) (recursive : bool) (d : nat)
    (parent : text) (l : list include_info) : Prop :=
  Forall (include_ok w recursive d parent) l.

(** The target of the directive [m] of the file [current_path] is
    resolved and tested for existence without failure. *)
Definition target_answers (w : world) (current_path content : text)
    (m : rmatch) : Prop :=
  ∃ rp found,
    resolve_include w current_path (group content m 1) = Ok rp
    ∧ exists_ w rp = Ok found.

(** A file system on which no existence test and no resolution fails. *)
Definition answering (w : world) : Prop :=
  (∀ p, ∃ found, exists_ w p = Ok found)
  ∧ (∀ current_path include_path,
       ∃ rp, resolve_in_parent w current_path include_path = Ok rp).

(** The files that the records of a tree show to have been entered: the
    resolved paths of the records that carry the key [nested_includes]. *)
Fixpoint entered (x : include_info) : list text :=
  match x with
  | mk_include_info _ rp _ _ _ _ nested =>
      match nested with
      | None => []
      | Some l =>
          rp :: (fix go (l : list include_info) : list text :=
                   match l with
                   | [] => []
                   | y :: r => entered y ++ go r
                   end) l
      end
  end.

Definition entered_all (l : list include_info) : list text :=
  flat_map entered l.

(** Three files: [/a.adoc] includes [/b.adoc], which includes [/a.adoc]
    again, then a file that does not exist, then [/c.adoc], which has no
    directive. *)
Definition nested_world : world :=
  files_world
    [(str "/a.adoc", str "intro" ++ [nl] ++ str "include::b.adoc[]");
     (str "/b.adoc",
      str "include::a.adoc[]" ++ [nl] ++ str "include::missing.adoc[x]"
      ++ [nl] ++ str "include::c.adoc[]");
     (str "/c.adoc", str "no directive here")] [].

(** [v] is the value of the last match of the attribute pattern with the
    name [k] among the matches [decls] in [content], or the empty string
    when no match has the name [k]. *)
Definition last_declared (content : text) (decls : list rmatch)
    (k v : text) : Prop :=
  (v = [] ∧ ∀ m, m ∈ decls → attr_name content m ≠ k)
  ∨ ∃ i m, decls !! i = Some m
           ∧ attr_name content m = k
           ∧ v = attr_value content m
           ∧ ∀ j m', i < j → decls !! j = Some m' →
               attr_name content m' ≠ k.

(** The heading pattern and the title pattern share their tail. *)
Definition heading_tail : regex :=
  [Rep isspace 1 false; Rep dot 1 true; Eol].

(** Headings that never go deeper, and headings that go deeper one after
    the other. *)
Definition flat_heap : heap :=
  [ mk_hdict 2 (str "A") 1 0 None None;
    mk_hdict 2 (str "B") 3 10 None None;
    mk_hdict 1 (str "C") 5 20 None None ].

Definition chain_heap : heap :=
  [ mk_hdict 1 (str "A") 1 0 None None;
    mk_hdict 2 (str "B") 3 10 None None;
    mk_hdict 4 (str "C") 5 20 None None ].

End Extra.

(** * Properties *)

Module ReFacts.
Import Str Re.

Lemma backtrack_Some {A} (k : nat → option A) lo n r :
  backtrack k lo n = Some r → ∃ j, lo ≤ j ≤ lo + n ∧ k j = Some r.
Proof.
  induction n as [|n IH]; simpl.
  - destruct (k (lo + 0)) eqn:Hk; [|done].
    intros [= <-]. exists (lo + 0). split; [lia | done].
  - destruct (k (lo + S n)) eqn:Hk.
    + intros [= <-]. exists (lo + S n). split; [lia | done].
    + intros (j & Hj & Hr)%IH. exists j. split; [lia | done].
Qed.

(** A match spans at least [min_len re] characters; in particular it does
    not end before its start. *)
Lemma match_here_min_len ic re s :
  ∀ p e gs, match_here ic re s p = Some (e, gs) → p + min_len re ≤ e.
Proof.
  induction re as [|it r IH]; intros p e gs Hm; simpl in Hm.
  - injection Hm as <- <-. simpl. lia.
  - destruct it as [| |c|cls lo capture]; simpl.
    + destruct (at_bol s p); [by apply IH in Hm | done].
    + destruct (at_eol s p); [by apply IH in Hm | done].
    + destruct (s !! p) as [d|]; [|done].
      destruct (chr_eq ic c d); [|done]. apply IH in Hm. lia.
    + destruct (run_length cls (drop p s) <? lo); [done|].
      apply backtrack_Some in Hm as (j & Hj & Hk).
      destruct (match_here ic r s (p + j)) as [[e' gs']|] eqn:Hr; [|done].
      simpl in Hk. injection Hk as <- <-. apply IH in Hr. lia.
Qed.

Section Scan.
Variable ic : bool.
Variable re : regex.
Variable s : text.

Lemma scan_Some p f m :
  scan ic re s p f = Some m →
  p ≤ mstart m < p + f
  ∧ match_here ic re s (mstart m) = Some (mend m, mgroups m)
  ∧ ∀ q, p ≤ q < mstart m → match_here ic re s q = None.
Proof.
  revert p. induction f as [|f IH]; intros p; simpl; [done|].
  destruct (match_here ic re s p) as [[e gs]|] eqn:Hp.
  - intros [= <-]. simpl. repeat split; [lia | lia | done | intros; lia].
  - intros (Hs & Hm & Hno)%IH. repeat split; [lia | lia | done |].
    intros q Hq. destruct (decide (q = p)) as [->|]; [done|].
    apply Hno. lia.
Qed.

Lemma scan_None p f :
  scan ic re s p f = None → ∀ q, p ≤ q < p + f → match_here ic re s q = None.
Proof.
  revert p. induction f as [|f IH]; intros p; simpl; [intros; lia|].
  destruct (match_here ic re s p) as [[e gs]|] eqn:Hp; [done|].
  intros Hno q Hq. destruct (decide (q = p)) as [->|]; [done|].
  apply (IH (S p)); [done | lia].
Qed.

Lemma search_Some pos m :
  search ic re s pos = Some m →
  pos ≤ mstart m ≤ length s ∧ mstart m ≤ mend m
  ∧ match_here ic re s (mstart m) = Some (mend m, mgroups m)
  ∧ ∀ q, pos ≤ q < mstart m → match_here ic re s q = None.
Proof.
  intros (Hs & Hm & Hno)%scan_Some.
  pose proof (match_here_min_len _ _ _ _ _ _ Hm).
  repeat split; [lia | lia | lia | done | done].
Qed.

Lemma search_None pos :
  search ic re s pos = None →
  ∀ q, pos ≤ q ≤ length s → match_here ic re s q = None.
Proof. intros Hno q Hq. apply (scan_None _ _ Hno). lia. Qed.

Lemma resume_gt pos m : search ic re s pos = Some m → pos < resume m.
Proof.
  intros (Hs & Hle & _)%search_Some. unfold resume.
  destruct (Nat.eqb_spec (mend m) (mstart m)); lia.
Qed.

Lemma resume_ge_end m : mend m ≤ resume m.
Proof. unfold resume. destruct (mend m =? mstart m); lia. Qed.

(** The list of matches does not depend on the fuel, once it covers the
    remaining positions. *)
Lemma search_beyond pos : S (length s) - pos = 0 → search ic re s pos = None.
Proof. intros H. unfold search. by rewrite H. Qed.

Lemma iter_fuel f1 :
  ∀ f2 pos, S (length s) - pos ≤ f1 → S (length s) - pos ≤ f2 →
    iter ic re s pos f1 = iter ic re s pos f2.
Proof.
  induction f1 as [|f1 IH]; intros f2 pos H1 H2.
  - destruct f2 as [|f2]; [done|]. simpl.
    by rewrite search_beyond by lia.
  - destruct f2 as [|f2]; simpl.
    + by rewrite search_beyond by lia.
    + destruct (search ic re s pos) as [m|] eqn:Hm; [|done].
      pose proof (resume_gt _ _ Hm). f_equal. apply IH; lia.
Qed.

Lemma finditer_unfold pos :
  finditer ic re s pos =
  match search ic re s pos with
  | Some m => m :: finditer ic re s (resume m)
  | None => []
  end.
Proof.
  unfold finditer.
  destruct (S (length s) - pos) as [|g] eqn:Hg.
  - simpl. by rewrite search_beyond.
  - simpl. destruct (search ic re s pos) as [m|] eqn:Hm; [|done].
    pose proof (resume_gt _ _ Hm). f_equal. apply iter_fuel; lia.
Qed.

(** The matches after the [k]-th one are the matches found from its
    resumption point on. *)
Lemma finditer_drop k :
  ∀ pos m, finditer ic re s pos !! k = Some m →
    finditer ic re s (resume m) = drop (S k) (finditer ic re s pos).
Proof.
  induction k as [|k IH]; intros pos m; rewrite (finditer_unfold pos);
    destruct (search ic re s pos) as [m0|] eqn:Hm0; try done; simpl.
  - by intros [= ->].
  - intros Hk. by rewrite (IH _ _ Hk).
Qed.

Lemma finditer_match pos m :
  m ∈ finditer ic re s pos →
  pos ≤ mstart m ≤ length s ∧ mstart m ≤ mend m
  ∧ match_here ic re s (mstart m) = Some (mend m, mgroups m).
Proof.
  intros Hin. apply list_elem_of_lookup in Hin as [k Hk].
  revert pos Hk. induction k as [|k IH]; intros pos;
    rewrite (finditer_unfold pos);
    destruct (search ic re s pos) as [m0|] eqn:Hm0; try done; simpl.
  - intros [= ->]. apply search_Some in Hm0. tauto.
  - intros Hk. apply IH in Hk as (Hs & Hle & Hm).
    pose proof (resume_gt _ _ Hm0). repeat split; [lia | lia | done | done].
Qed.

(** Two successive matches: the later one starts where the scan resumed
    or later, hence after the start and not before the end of the
    earlier one. *)
Lemma finditer_ordered pos k m m' :
  finditer ic re s pos !! k = Some m →
  finditer ic re s pos !! S k = Some m' →
  mstart m < mstart m' ∧ mend m ≤ mstart m'.
Proof.
  intros Hk HSk.
  assert (m ∈ finditer ic re s pos) as Hin
    by (apply list_elem_of_lookup; eauto).
  apply finditer_match in Hin as (_ & Hle & _).
  assert (m' ∈ finditer ic re s (resume m)) as Hin'.
  { rewrite (finditer_drop k pos m Hk). apply list_elem_of_lookup.
    exists 0. by rewrite lookup_drop, Nat.add_0_r. }
  apply finditer_match in Hin' as (Hres & _).
  pose proof (resume_ge_end m). unfold resume in *.
  destruct (Nat.eqb_spec (mend m) (mstart m)); lia.
Qed.

(** Every position from [pos] on at which [re] matches lies between the
    start of a reported match and the point where the scan resumed. *)
Lemma finditer_covers pos p r :
  pos ≤ p ≤ length s → match_here ic re s p = Some r →
  ∃ m, m ∈ finditer ic re s pos ∧ mstart m ≤ p < resume m.
Proof.
  assert (∀ d pos, S (length s) - pos ≤ d → pos ≤ p ≤ length s →
            match_here ic re s p = Some r →
            ∃ m, m ∈ finditer ic re s pos ∧ mstart m ≤ p < resume m) as Hind.
  2:{ apply (Hind (S (length s) - pos)). lia. }
  clear pos. induction d as [|d IH]; intros pos Hd Hp Hr; [lia|].
  rewrite finditer_unfold.
  destruct (search ic re s pos) as [m|] eqn:Hm.
  - pose proof (resume_gt _ _ Hm) as Hgt.
    apply search_Some in Hm as (Hs & Hle & Hhere & Hbefore).
    assert (mstart m ≤ p) as Hsp.
    { destruct (decide (mstart m ≤ p)) as [|Hlt]; [done|].
      rewrite Hbefore in Hr by lia. done. }
    destruct (decide (p < resume m)) as [Hin|Hout].
    + exists m. split; [by left | lia].
    + destruct (IH (resume m)) as (m' & Hin' & Hcov); [lia | lia | done |].
      exists m'. split; [by right | done].
  - rewrite (search_None _ Hm p) in Hr by lia. done.
Qed.

End Scan.

(** **** The escaped query *)

Lemma match_here_lits ic q s :
  ∀ p e gs, p ≤ length s →
    match_here ic (lits q) s p = Some (e, gs) →
    occurs_at ic q s p ∧ e = p + length q ∧ gs = [].
Proof.
  induction q as [|c q IH]; intros p e gs Hp; simpl.
  - intros [= <- <-]. split; [|split; [lia | done]].
    split; [simpl; lia | intros k c' Hk; by rewrite lookup_nil in Hk].
  - destruct (s !! p) as [d|] eqn:Hd; [|done].
    destruct (chr_eq ic c d) eqn:Hcd; [|done].
    pose proof (lookup_lt_Some _ _ _ Hd) as Hlt.
    intros ([Hlen Hocc] & -> & ->)%IH; [|lia].
    split; [|split; [lia | done]].
    split; [simpl; lia|]. intros [|k] c' Hk; simpl in Hk.
    + injection Hk as <-. exists d. by rewrite Nat.add_0_r.
    + destruct (Hocc k c' Hk) as (d' & Hd' & Heq). exists d'.
      by replace (p + S k) with (S p + k) by lia.
Qed.

Lemma match_here_lits_occurs ic q s :
  ∀ p, occurs_at ic q s p →
    match_here ic (lits q) s p = Some (p + length q, []).
Proof.
  induction q as [|c q IH]; intros p [Hlen Hocc]; simpl.
  - by rewrite Nat.add_0_r.
  - destruct (Hocc 0 c eq_refl) as (d & Hd & Heq).
    rewrite Nat.add_0_r in Hd. rewrite Hd, Heq.
    rewrite (IH (S p)).
    + do 2 f_equal. lia.
    + split; [simpl in Hlen; lia|]. intros k c' Hk.
      destruct (Hocc (S k) c' Hk) as (d' & Hd' & Heq'). exists d'.
      by replace (S p + k) with (p + S k) by lia.
Qed.

(** A line matches the escaped query exactly when the query occurs in
    it. *)
Lemma search_escape ic q s :
  is_Some (search ic (escape q) s 0) ↔ ∃ p, occurs_at ic q s p.
Proof.
  split.
  - intros [m (Hs & _ & Hm & _)%search_Some].
    apply match_here_lits in Hm as (Hocc & _); [|lia]. eauto.
  - intros [p Hocc].
    destruct (search ic (escape q) s 0) as [m|] eqn:Hm; [done|].
    pose proof Hocc as [Hlen _].
    apply match_here_lits_occurs in Hocc.
    pose proof (search_None _ _ _ _ Hm p ltac:(lia)) as Hnone.
    unfold escape in Hnone. congruence.
Qed.

(** Matches of the heading pattern are not empty, so the scan resumes at
    their end. *)
Lemma heading_resume s pos m :
  m ∈ finditer false heading_pattern s pos → resume m = mend m.
Proof.
  intros (_ & _ & Hm)%finditer_match.
  apply match_here_min_len in Hm. simpl in Hm.
  unfold resume. destruct (Nat.eqb_spec (mend m) (mstart m)); [lia | done].
Qed.

End ReFacts.

Module HierFacts.
Import Hier.

Section Positions.
Variable lv : nat → Z.

Lemma nearest_smaller_Some L i j :
  nearest_smaller lv L i = Some j ↔
  j < i ∧ (lv j < L)%Z ∧ ∀ k, j < k < i → (L ≤ lv k)%Z.
Proof.
  induction i as [|i IH]; simpl.
  - split; [done | lia].
  - destruct (Z.ltb_spec (lv i) L) as [Hlt|Hge].
    + split.
      * intros [= <-]. repeat split; [lia | done | intros; lia].
      * intros (Hj & Hl & Hk).
        destruct (decide (j = i)) as [->|Hne]; [done|].
        specialize (Hk i). lia.
    + rewrite IH. split.
      * intros (Hj & Hl & Hk). repeat split; [lia | done |].
        intros k Hk'. destruct (decide (k = i)) as [->|]; [done|].
        apply Hk. lia.
      * intros (Hj & Hl & Hk).
        assert (j ≠ i) by (intros ->; lia).
        repeat split; [lia | done | intros; apply Hk; lia].
Qed.

Lemma nearest_smaller_None L i :
  nearest_smaller lv L i = None ↔ ∀ k, k < i → (L ≤ lv k)%Z.
Proof.
  induction i as [|i IH]; simpl.
  - split; [intros; lia | done].
  - destruct (Z.ltb_spec (lv i) L) as [Hlt|Hge].
    + split; [done|]. intros Hk. specialize (Hk i). lia.
    + rewrite IH. split.
      * intros Hk k Hlt. destruct (decide (k = i)) as [->|]; [done|].
        apply Hk. lia.
      * intros Hk k Hlt. apply Hk. lia.
Qed.

Lemma drop_ge_drop_ge L L' stk :
  (L ≤ L')%Z → drop_ge lv L (drop_ge lv L' stk) = drop_ge lv L stk.
Proof.
  intros HL. induction stk as [|t r IH]; simpl; [done|].
  destruct (Z.leb_spec L' (lv t)) as [H1|H1].
  - rewrite IH. destruct (Z.leb_spec L (lv t)); [done | lia].
  - done.
Qed.

Lemma head_drop_ge_open_sections L i :
  head (drop_ge lv L (open_sections lv i)) = nearest_smaller lv L i.
Proof.
  induction i as [|i IH]; simpl; [done|].
  destruct (Z.leb_spec L (lv i)) as [H1|H1].
  - rewrite drop_ge_drop_ge by done. rewrite IH.
    destruct (Z.ltb_spec (lv i) L); [lia | done].
  - simpl. destruct (Z.ltb_spec (lv i) L); [done | lia].
Qed.

Lemma open_sections_lt i j : j ∈ open_sections lv i → j < i.
Proof.
  revert j. induction i as [|i IH]; simpl; intros j.
  - by intros ?%elem_of_nil.
  - intros [->|Hj]%elem_of_cons; [lia|].
    assert (∀ L stk, j ∈ drop_ge lv L stk → j ∈ stk) as Hsub.
    { intros L stk. induction stk as [|t r IHr]; simpl; [done|].
      destruct (L <=? lv t)%Z; [|done]. intros ?. right. auto. }
    apply Hsub, IH in Hj. lia.
Qed.

Lemma parent_index_lt i j : parent_index lv i = Some j → j < i.
Proof. unfold parent_index. rewrite nearest_smaller_Some. tauto. Qed.

Lemma attached_S i q :
  attached lv (S i) q =
  attached lv i q ++ (if decide (parent_index lv i = q) then [i] else []).
Proof.
  unfold attached. rewrite seq_S, filter_app. simpl.
  rewrite filter_cons, filter_nil. by destruct (decide _).
Qed.

Lemma attached_elem i q c :
  c ∈ attached lv i q ↔ c < i ∧ parent_index lv c = q.
Proof.
  unfold attached. rewrite list_elem_of_filter, elem_of_seq. intuition lia.
Qed.

Lemma attached_above i k : i ≤ S k → attached lv i (Some k) = [].
Proof.
  intros Hi. apply elem_of_nil_inv. intros c [Hc Hp]%attached_elem.
  apply parent_index_lt in Hp. lia.
Qed.

Lemma parent_index_spec i j :
  parent_index lv i = Some j ↔ nearest_preceding_smaller lv i j.
Proof. apply nearest_smaller_Some. Qed.

Lemma parent_index_None i :
  parent_index lv i = None ↔ ∀ k, k < i → (lv i ≤ lv k)%Z.
Proof. apply nearest_smaller_None. Qed.

(** **** Sections are intervals of positions *)

Lemma section_end_exists n j : j < n → ∃ e, section_end lv n j e.
Proof.
  intros Hj.
  assert (∀ d m, n - m ≤ d → j < m ≤ n →
            (∀ k, j < k < m → (lv j < lv k)%Z) →
            ∃ e, section_end lv n j e) as Hsearch.
  { induction d as [|d IH]; intros m Hd Hm Hdeep.
    - exists m. repeat split; [lia | lia | done | lia].
    - destruct (decide (m = n)) as [->|Hmn].
      { exists n. repeat split; [lia | lia | done | lia]. }
      destruct (Z.leb_spec (lv m) (lv j)) as [Hle|Hgt].
      + exists m. repeat split; [lia | lia | done | done].
      + apply (IH (S m)); [lia | lia |].
        intros k Hk. destruct (decide (k = m)) as [->|]; [done|].
        apply Hdeep. lia. }
  apply (Hsearch (n - S j) (S j)); [lia | lia | intros; lia].
Qed.

Lemma filter_seq_none (P : nat → Prop) `{∀ c, Decision (P c)} a len :
  (∀ c, a ≤ c < a + len → ¬ P c) → filter P (seq a len) = [].
Proof.
  intros Hno. apply elem_of_nil_inv.
  intros c [Hc Hin]%list_elem_of_filter.
  apply elem_of_seq in Hin. by apply (Hno c).
Qed.

Lemma filter_seq_restrict (P : nat → Prop) `{∀ c, Decision (P c)} n a b :
  a ≤ b ≤ n → (∀ c, c < n → P c → a ≤ c < b) →
  filter P (seq 0 n) = filter P (seq a (b - a)).
Proof.
  intros Hab Hin.
  replace n with (a + ((b - a) + (n - b))) at 1 by lia.
  rewrite !seq_app, !filter_app. simpl.
  rewrite (filter_seq_none P 0 a), (filter_seq_none P (a + (b - a)) (n - b)).
  - by rewrite app_nil_r.
  - intros c Hc HP. apply Hin in HP; lia.
  - intros c Hc HP. apply Hin in HP; lia.
Qed.

(** The children of [q] found from position [a] on, up to the end [e] of
    [q]'s section: each child heads a section, and these sections follow
    one another without a gap. *)
Lemma walk_sections {B} (F : nat → option (list B)) (g : nat → B)
    n (q : option nat) s e :
  e ≤ n →
  (∀ c, s ≤ c < e →
     (parent_index lv c = q ↔ ∀ k, s ≤ k < c → (lv c ≤ lv k)%Z)) →
  (e < n → ∀ c, s ≤ c < e → (lv e < lv c)%Z) →
  (∀ a b, s ≤ a → b ≤ e → section_end lv n a b →
     F a = Some (g <$> seq a (b - a))) →
  ∀ a, s ≤ a ≤ e →
    (a < e → ∀ k, s ≤ k < a → (lv a ≤ lv k)%Z) →
    flat_mapM F (filter (λ c, parent_index lv c = q) (seq a (e - a)))
    = Some (g <$> seq a (e - a)).
Proof.
  intros Hen Hpar Hclosed HF.
  assert (∀ d a, e - a ≤ d → s ≤ a ≤ e →
            (a < e → ∀ k, s ≤ k < a → (lv a ≤ lv k)%Z) →
            flat_mapM F (filter (λ c, parent_index lv c = q) (seq a (e - a)))
            = Some (g <$> seq a (e - a))) as Hwalk.
  2:{ intros a. apply (Hwalk (e - a)). lia. }
  induction d as [|d IH]; intros a Hd Ha Hmin.
  { replace (e - a) with 0 by lia. done. }
  destruct (decide (a = e)) as [->|Hae].
  { rewrite Nat.sub_diag. done. }
  destruct (section_end_exists n a) as [b Hb]; [lia|].
  pose proof Hb as ((Hab & Hbn) & Hdeep & Hstop).
  assert (b ≤ e) as Hbe.
  { destruct (decide (b ≤ e)) as [|Hgt]; [done|].
    assert (e < n) as Hlt by lia.
    specialize (Hclosed Hlt a ltac:(lia)).
    specialize (Hdeep e ltac:(lia)). lia. }
  replace (e - a) with (S (b - S a) + (e - b)) by lia.
  rewrite seq_app, filter_app, fmap_app.
  replace (a + S (b - S a)) with b by lia.
  cbn [seq]. rewrite filter_cons.
  rewrite decide_True by (apply Hpar; [lia | apply Hmin; lia]).
  rewrite (filter_seq_none _ (S a) (b - S a)).
  2:{ intros c Hc Hq.
      pose proof (proj1 (Hpar c ltac:(lia)) Hq a ltac:(lia)). specialize (Hdeep c ltac:(lia)). lia. }
  cbn [app flat_mapM].
  rewrite (HF a b) by (done || lia). cbn [mbind option_bind].
  rewrite IH; [| lia | lia |].
  - cbn [mbind option_bind]. do 2 f_equal.
    replace (b - a) with (S (b - S a)) by lia. done.
  - intros Hlt k Hk.
    specialize (Hstop ltac:(lia)).
    destruct (decide (k < a)) as [Hka|Hka].
    + specialize (Hmin ltac:(lia) k ltac:(lia)). lia.
    + destruct (decide (k = a)) as [->|Hne]; [done|].
      specialize (Hdeep k ltac:(lia)). lia.
Qed.

(** The children of heading [j] lie inside its section. *)
Lemma attached_in_section n j e :
  section_end lv n j e →
  attached lv n (Some j)
  = filter (λ c, parent_index lv c = Some j) (seq (S j) (e - S j)).
Proof.
  intros ((Hje & Hen) & Hdeep & Hstop). unfold attached.
  apply filter_seq_restrict; [lia|].
  intros c Hc (Hjc & Hlt & Hmin)%parent_index_spec.
  split; [lia|]. destruct (decide (c < e)) as [|Hce]; [done|].
  assert (e < n) as He by lia. specialize (Hstop He).
  destruct (decide (c = e)) as [->|Hne]; [lia|].
  specialize (Hmin e ltac:(lia)). lia.
Qed.

End Positions.

Lemma flat_mapM_fmap {A B C} (F : B → option (list C)) (g : A → B) l :
  flat_mapM F (g <$> l) = flat_mapM (λ x, F (g x)) l.
Proof.
  induction l as [|x l IH]; [done|].
  rewrite fmap_cons. cbn [flat_mapM]. by rewrite IH.
Qed.

(** *** The loop invariant: after [i] iterations the state is
    [state_after h headings i]. *)

Section Loop.
Variable h : heap.
Variable headings : list loc.
Hypothesis headings_valid : Forall (λ l, l < length h) headings.

Let lv := level_at h headings.
Let base := length h.

Lemma lookup_after (f : nat → hdict) i l :
  (h ++ (f <$> seq 0 i)) !! l =
  if decide (l < base) then h !! l
  else if decide (l - base < i) then Some (f (l - base)) else None.
Proof.
  subst base. destruct (decide (l < length h)) as [Hl|Hl].
  - by rewrite lookup_app_l.
  - rewrite lookup_app_r by lia. rewrite list_lookup_fmap.
    destruct (decide (l - length h < i)) as [Hi|Hi].
    + by rewrite lookup_seq_lt.
    + rewrite lookup_ge_None_2; [done|]. rewrite length_seq. lia.
Qed.

Lemma lookup_node_after i k :
  k < i → hp (state_after h headings i) !! (base + k)
          = Some (node_after h headings i k).
Proof.
  intros Hk. simpl. rewrite lookup_after.
  destruct (decide (base + k < base)); [lia|].
  replace (base + k - base) with k by lia.
  destruct (decide (k < i)); [done | lia].
Qed.

Lemma lookup_old_after i l :
  l < base → hp (state_after h headings i) !! l = h !! l.
Proof.
  intros Hl. simpl. rewrite lookup_after. by destruct (decide (l < base)).
Qed.

Lemma heading_at_lookup i x :
  headings !! i = Some x → h !! x = Some (heading_at h headings i).
Proof.
  intros Hx. unfold heading_at. rewrite Hx. simpl.
  assert (x < length h) as Hlt.
  { eapply (proj1 (Forall_lookup _ _) headings_valid); eauto. }
  destruct (lookup_lt_is_Some_2 h x Hlt) as [d Hd]. by rewrite Hd.
Qed.

Lemma pop_while_after i L stk :
  (∀ j, j ∈ stk → j < i) →
  pop_while (hp (state_after h headings i)) L ((λ c, base + c) <$> stk)
  = Some ((λ c, base + c) <$> drop_ge lv L stk).
Proof.
  induction stk as [|t r IH]; intros Hlt; [done|].
  cbn [fmap list_fmap pop_while drop_ge].
  rewrite lookup_node_after by (apply Hlt; left). cbn [mbind option_bind].
  change (level (node_after h headings i t)) with (lv t).
  destruct (L <=? lv t)%Z; [|done].
  apply IH. intros j Hj. apply Hlt. by right.
Qed.

Lemma step_after i x :
  headings !! i = Some x →
  step (state_after h headings i) x = Some (state_after h headings (S i)).
Proof.
  intros Hx.
  assert (x < base) as Hxlt.
  { eapply (proj1 (Forall_lookup _ _) headings_valid); eauto. }
  pose proof (lookup_old_after i x Hxlt) as Hold.
  pose proof (pop_while_after i (lv i) (open_sections lv i)
                (λ j, open_sections_lt lv i j)) as Hpop.
  pose proof (λ k, lookup_node_after i k) as Hnode.
  unfold step, state_after in *. cbn [hp hierarchy stack] in *.
  fold lv base in Hold, Hpop, Hnode |- *.
  set (H := h ++ (node_after h headings i <$> seq 0 i)) in *.
  assert (length H = base + i) as Hlen.
  { subst H. by rewrite length_app, length_fmap, length_seq. }
  rewrite Hold, (heading_at_lookup i x Hx). cbn [mbind option_bind].
  change (level (heading_at h headings i)) with (lv i).
  rewrite Hpop, Hlen. cbn [mbind option_bind].
  pose proof (head_drop_ge_open_sections lv (lv i) i) as Hhead.
  fold (parent_index lv i) in Hhead.
  assert (node_after h headings (S i) i
          = with_children (heading_at h headings i) []) as Hnew.
  { unfold node_after. fold lv. by rewrite attached_above. }
  rewrite seq_S, fmap_app, app_assoc. cbn [fmap list_fmap plus].
  rewrite Hnew. cbn [open_sections].
  destruct (drop_ge lv (lv i) (open_sections lv i)) as [|p stk] eqn:Hstk;
    simpl in Hhead; cbn [fmap list_fmap].
  - (* no open section is left: a new root *)
    do 2 f_equal.
    + f_equal. subst H. f_equal.
      apply list_fmap_ext. intros j k [-> Hk]%lookup_seq.
      unfold node_after. fold lv.
      rewrite attached_S. destruct (decide _) as [Heq|]; [congruence|].
      by rewrite app_nil_r.
    + rewrite attached_S. rewrite decide_True by done.
      by rewrite fmap_app.
  - (* the new dictionary is appended to the children of [p] *)
    assert (p < i) as Hp by (apply (parent_index_lt lv); done).
    unfold append_child.
    rewrite lookup_app_l by lia.
    rewrite Hnode by done.
    cbn [children node_after with_children mbind option_bind].
    do 2 f_equal.
    + apply list_eq. intros l.
      assert (length (h ++ (node_after h headings (S i) <$> seq 0 i))
              = base + i) as Hlen'.
      { by rewrite length_app, length_fmap, length_seq. }
      rewrite list_lookup_insert, length_app, Hlen. simpl length.
      destruct (decide (l < base + i)) as [Hl|Hl].
      * rewrite !lookup_app_l by lia. subst H. rewrite !lookup_after.
        destruct (decide (base + p = l ∧ base + p < base + i + 1))
          as [[<- _]|Hne].
        { rewrite decide_False by lia.
          replace (base + p - base) with p by lia.
          rewrite decide_True by lia.
          unfold node_after. fold lv base. rewrite attached_S.
          rewrite decide_True by done. rewrite fmap_app. done. }
        destruct (decide (l < base)) as [Hl1|Hl1]; [done|].
        rewrite !decide_True by lia.
        f_equal. unfold node_after. fold lv. rewrite attached_S.
        rewrite decide_False; [by rewrite app_nil_r|].
        rewrite <- Hhead. intros [= ->]. apply Hne. lia.
      * rewrite decide_False by lia.
        rewrite !lookup_app_r by lia. by rewrite Hlen, Hlen'.
    + rewrite attached_S. rewrite decide_False by congruence.
      by rewrite app_nil_r.
Qed.

Lemma for_each_app s l1 l2 :
  for_each s (l1 ++ l2) = for_each s l1 ≫= λ s', for_each s' l2.
Proof.
  revert s. induction l1 as [|x l1 IH]; intros s; simpl; [done|].
  destruct (step s x) as [s'|]; simpl; [apply IH | done].
Qed.

Lemma for_each_take i :
  i ≤ length headings →
  for_each (mk_state h [] []) (take i headings)
  = Some (state_after h headings i).
Proof.
  induction i as [|i IH]; intros Hi.
  - rewrite take_0. simpl. unfold state_after. simpl. by rewrite app_nil_r.
  - destruct (lookup_lt_is_Some_2 headings i) as [x Hx]; [lia|].
    rewrite (take_S_r _ _ _ Hx), for_each_app, IH by lia. simpl.
    rewrite (step_after i x Hx). done.
Qed.

Lemma build_hierarchy_for_each (l : list loc) :
  _build_hierarchy h l
  = s ← for_each (mk_state h [] []) l; Some (hp s, hierarchy s).
Proof. by destruct l. Qed.

Lemma build_hierarchy_prefix i :
  i ≤ length headings →
  _build_hierarchy h (take i headings)
  = Some (hp (state_after h headings i),
          hierarchy (state_after h headings i)).
Proof.
  intros Hi. by rewrite build_hierarchy_for_each, for_each_take.
Qed.

Lemma build_hierarchy_after :
  _build_hierarchy h headings
  = Some (hp (state_after h headings (length headings)),
          hierarchy (state_after h headings (length headings))).
Proof.
  rewrite <- (build_hierarchy_prefix (length headings)) by done.
  by rewrite firstn_all.
Qed.

(** **** The pre-order walk of the final store *)

Let n := length headings.
Let final := hp (state_after h headings n).

Lemma preorder_section m :
  ∀ fuel j e, e - j ≤ m → section_end lv n j e → e - j ≤ fuel →
    preorder fuel final (base + j)
    = Some ((λ c, base + c) <$> seq j (e - j)).
Proof.
  induction m as [|m IH]; intros fuel j e Hm Hsec Hfuel.
  { destruct Hsec as ((? & ?) & _). lia. }
  pose proof Hsec as ((Hje & Hen) & Hdeep & Hstop).
  destruct fuel as [|f]; [lia|]. cbn [preorder].
  subst final. rewrite lookup_node_after by (fold n; lia).
  cbn [mbind option_bind node_after with_children children].
  fold lv base n. rewrite flat_mapM_fmap.
  rewrite (attached_in_section lv n j e Hsec).
  rewrite (walk_sections lv _ (λ c, base + c) n (Some j) (S j) e).
  - cbn [mbind option_bind]. replace (e - j) with (S (e - S j)) by lia. done.
  - lia.
  - intros c Hc. rewrite parent_index_spec. unfold nearest_preceding_smaller.
    specialize (Hdeep c ltac:(lia)). split.
    + intros (_ & _ & Hmin) k Hk. apply Hmin. lia.
    + intros Hmin. repeat split; [lia | done |].
      intros k Hk. apply Hmin. lia.
  - intros He c Hc. specialize (Hstop He). specialize (Hdeep c ltac:(lia)). lia.
  - intros a b Ha Hb Hab. apply IH; [|done|].
    + destruct Hab as ((? & ?) & _). lia.
    + destruct Hab as ((? & ?) & _). lia.
  - lia.
  - intros _ k Hk. lia.
Qed.

Lemma flatten_final fuel :
  n ≤ fuel →
  flatten fuel final (hierarchy (state_after h headings n))
  = Some ((λ c, base + c) <$> seq 0 n).
Proof.
  intros Hfuel. unfold flatten. cbn [state_after hierarchy].
  fold lv base. rewrite flat_mapM_fmap. unfold attached.
  assert (∀ c, 0 ≤ c < n →
    (parent_index lv c = None ↔ ∀ k, 0 ≤ k < c → (lv c ≤ lv k)%Z)) as Hpar.
  { intros c Hc. rewrite parent_index_None. split.
    - intros Hmin k Hk. apply Hmin. lia.
    - intros Hmin k Hk. apply Hmin. lia. }
  assert (∀ a b, 0 ≤ a → b ≤ n → section_end lv n a b →
    preorder fuel final (base + a)
    = Some ((λ c, base + c) <$> seq a (b - a))) as Hpre.
  { intros a b Ha Hb Hab. apply (preorder_section (b - a)); [done | done |].
    destruct Hab as ((? & ?) & _). lia. }
  pose proof (walk_sections lv (λ x, preorder fuel final (base + x))
                (λ c, base + c) n None 0 n (le_n n) Hpar
                ltac:(lia) Hpre 0) as Hwalk.
  rewrite Nat.sub_0_r in Hwalk. apply Hwalk; [lia|]. intros _ k Hk. lia.
Qed.

(** **** Children and descendants in the final store *)

Lemma child_final j b :
  child final (base + j) b →
  ∃ i, b = base + i ∧ i < n ∧ parent_index lv i = Some j.
Proof.
  intros (d & cs & Hd & Hcs & Hin).
  assert (j < n) as Hj.
  { apply lookup_lt_Some in Hd. subst final. cbn [state_after hp] in Hd.
    rewrite length_app, length_fmap, length_seq in Hd. lia. }
  subst final. rewrite lookup_node_after in Hd by done.
  injection Hd as <-. cbn [node_after with_children children] in Hcs.
  injection Hcs as <-.
  apply list_elem_of_fmap in Hin as (i & -> & [Hi Hp]%attached_elem).
  by exists i.
Qed.

Lemma descendant_final a b :
  descendant final a b →
  ∀ j, a = base + j → ∃ i, b = base + i ∧ j < i < n ∧ (lv j < lv i)%Z.
Proof.
  induction 1 as [a b Hc | a c b Hc _ IH]; intros j ->.
  - apply child_final in Hc as (i & -> & Hi & Hp).
    apply parent_index_spec in Hp as (Hji & Hlt & _). exists i. lia.
  - apply child_final in Hc as (k & -> & Hk & Hp).
    apply parent_index_spec in Hp as (Hjk & Hlt & _).
    destruct (IH k eq_refl) as (i & -> & Hki & Hlt'). exists i. lia.
Qed.

End Loop.

(** *** The claims about [_build_hierarchy] *)

(** C1. Given heading records in document order, [_build_hierarchy]
    succeeds and returns a forest in which the copy of each heading is a
    child of the copy of the nearest preceding heading with a strictly
    smaller level, and a root when no preceding heading has a smaller
    level.  The children of a node and the roots are exactly these
    headings in document order; right after heading [i] is processed its
    copy is the last child of its parent (or the last root); and no
    heading is a descendant of a heading whose level is equal or higher. *)
Theorem build_hierarchy_nearest_parent (h : heap) (headings : list loc) :
  Forall (λ l, l < length h) headings →
  let n := length headings in
  let lv := level_at h headings in
  let node := λ k, length h + k in
  ∃ h' roots,
    _build_hierarchy h headings = Some (h', roots) ∧
    (∀ i j, i < n → nearest_preceding_smaller lv i j →
       child h' (node j) (node i)) ∧
    (∀ i, i < n → (∀ j, j < i → (lv i ≤ lv j)%Z) → node i ∈ roots) ∧
    (∀ j, j < n →
       h' !! node j = Some (with_children (heading_at h headings j)
                              (node <$> attached lv n (Some j)))) ∧
    roots = node <$> attached lv n None ∧
    (∀ i, i < n →
       ∃ hi ri, _build_hierarchy h (take (S i) headings) = Some (hi, ri) ∧
         match parent_index lv i with
         | Some j => ∃ d cs, hi !! node j = Some d ∧
                             children d = Some (cs ++ [node i])
         | None => ∃ rs, ri = rs ++ [node i]
         end) ∧
    (∀ i j, (lv i ≤ lv j)%Z → ¬ descendant h' (node j) (node i)).
Proof.
  intros Hvalid n lv node.
  eexists _, _. split; [by apply build_hierarchy_after|].
  split; [|split; [|split; [|split; [|split]]]].
  - intros i j Hi Hnear.
    pose proof Hnear as (Hji & _).
    exists (node_after h headings n j), (node <$> attached lv n (Some j)).
    split; [apply lookup_node_after; lia|]. split; [done|].
    apply list_elem_of_fmap. exists i. split; [done|].
    apply attached_elem. split; [done|]. by apply parent_index_spec.
  - intros i Hi Hmin. cbn [state_after hierarchy].
    apply list_elem_of_fmap. exists i. split; [done|].
    apply attached_elem. split; [done|]. by apply parent_index_None.
  - intros j Hj. by apply lookup_node_after.
  - done.
  - intros i Hi. eexists _, _.
    split; [apply build_hierarchy_prefix; [done|lia]|].
    fold lv. destruct (parent_index lv i) as [j|] eqn:Hp.
    + exists (node_after h headings (S i) j),
             (node <$> attached lv i (Some j)).
      split.
      * apply lookup_node_after.
        apply parent_index_lt in Hp. lia.
      * cbn [node_after with_children children]. fold lv.
        rewrite attached_S, decide_True by done. by rewrite fmap_app.
    + exists (node <$> attached lv i None). cbn [state_after hierarchy].
      fold lv. rewrite attached_S, decide_True by done. by rewrite fmap_app.
  - intros i j Hle Hdesc.
    destruct (descendant_final h headings _ _ Hdesc j eq_refl)
      as (i' & Heq & _ & Hlt).
    assert (i' = i) as -> by (unfold node in Heq; lia).
    fold lv in Hlt. lia.
Qed.

(** The headings of the unit test are well formed, and the theorem
    applies to them. *)
Lemma build_hierarchy_nearest_parent_witness :
  Forall (λ l, l < length sample_heap) sample_headings ∧
  ∃ h' roots, _build_hierarchy sample_heap sample_headings = Some (h', roots).
Proof.
  assert (Forall (λ l, l < length sample_heap) sample_headings) as Hvalid.
  { repeat constructor. }
  split; [exact Hvalid|].
  destruct (build_hierarchy_nearest_parent sample_heap sample_headings Hvalid)
    as (h' & roots & Hrun & _).
  by exists h', roots.
Defined.

(** C2. The pre-order walk of the forest returned by [_build_hierarchy]
    terminates (any fuel from the number of headings on is enough) and
    visits the copies of the input records in the order of the input. *)
Theorem build_hierarchy_preorder (h : heap) (headings : list loc) :
  Forall (λ l, l < length h) headings →
  ∃ h' roots walk,
    _build_hierarchy h headings = Some (h', roots) ∧
    (∀ fuel, length headings ≤ fuel → flatten fuel h' roots = Some walk) ∧
    Forall2 (λ l x, ∃ d cs, h !! x = Some d ∧
                            h' !! l = Some (with_children d cs))
            walk headings.
Proof.
  intros Hvalid.
  eexists _, _, _. split; [by apply build_hierarchy_after|].
  split; [intros fuel Hfuel; by apply flatten_final|].
  apply Forall2_same_length_lookup_2.
  { by rewrite length_fmap, length_seq. }
  intros k l x Hl Hx.
  rewrite list_lookup_fmap in Hl.
  destruct (seq 0 (length headings) !! k) as [k'|] eqn:Hk; [|done].
  apply lookup_seq in Hk as [-> Hk]. injection Hl as <-.
  eexists _, _. split; [by apply heading_at_lookup|].
  by apply lookup_node_after.
Qed.

Lemma build_hierarchy_preorder_witness :
  Forall (λ l, l < length sample_heap) sample_headings ∧
  ∃ h' roots walk,
    _build_hierarchy sample_heap sample_headings = Some (h', roots) ∧
    flatten 4 h' roots = Some walk.
Proof.
  assert (Forall (λ l, l < length sample_heap) sample_headings) as Hvalid.
  { repeat constructor. }
  split; [exact Hvalid|].
  destruct (build_hierarchy_preorder sample_heap sample_headings Hvalid)
    as (h' & roots & walk & Hrun & Hwalk & _).
  exists h', roots, walk. split; [done|]. apply Hwalk. done.
Defined.

(** C10. [_build_hierarchy] leaves every dictionary that existed before
    the call as it was, the heading records among them: the store is only
    extended, by one new dictionary per heading, which is a copy of that
    heading with the key [children]; the returned forest consists of
    these new dictionaries only.  (The list [headings] is only iterated
    over, so it is passed by value.) *)
Theorem build_hierarchy_input_unchanged (h : heap) (headings : list loc) :
  Forall (λ l, l < length h) headings →
  ∃ h' roots nodes,
    _build_hierarchy h headings = Some (h', roots) ∧
    h' = h ++ nodes ∧
    (∀ l, l < length h → h' !! l = h !! l) ∧
    Forall2 (λ x nd, ∃ d cs, h !! x = Some d ∧ nd = with_children d cs)
            headings nodes ∧
    Forall (λ r, length h ≤ r) roots ∧
    (∀ a b, length h ≤ a → child h' a b → length h ≤ b).
Proof.
  intros Hvalid.
  eexists _, _, _. split; [by apply build_hierarchy_after|].
  split; [done|]. split; [|split; [|split]].
  - intros l Hl. by apply lookup_app_l.
  - apply Forall2_same_length_lookup_2.
    { by rewrite length_fmap, length_seq. }
    intros k x nd Hx Hnd.
    rewrite list_lookup_fmap in Hnd.
    destruct (seq 0 (length headings) !! k) as [k'|] eqn:Hk; [|done].
    apply lookup_seq in Hk as [-> Hk]. injection Hnd as <-.
    eexists _, _. split; [by apply heading_at_lookup|]. done.
  - cbn [state_after hierarchy]. apply Forall_fmap, Forall_forall.
    intros c _. simpl. lia.
  - intros a b Ha Hchild.
    replace a with (length h + (a - length h)) in Hchild by lia.
    apply (child_final h headings) in Hchild as (i & -> & _). lia.
Qed.

Lemma build_hierarchy_input_unchanged_witness :
  Forall (λ l, l < length sample_heap) sample_headings ∧
  ∃ h' roots,
    _build_hierarchy sample_heap sample_headings = Some (h', roots) ∧
    ∀ l, l < length sample_heap → h' !! l = sample_heap !! l.
Proof.
  assert (Forall (λ l, l < length sample_heap) sample_headings) as Hvalid.
  { repeat constructor. }
  split; [exact Hvalid|].
  destruct (build_hierarchy_input_unchanged sample_heap sample_headings Hvalid)
    as (h' & roots & nodes & Hrun & _ & Hold & _).
  by exists h', roots.
Defined.

(** The unit test [test_build_hierarchy], evaluated. *)
Example build_hierarchy_sample :
  _build_hierarchy sample_heap sample_headings
  = Some (sample_heap ++
          [ mk_hdict 1 (str "Main") 1 0 None (Some [5; 7]);
            mk_hdict 2 (str "Chapter 1") 5 100 None (Some [6]);
            mk_hdict 3 (str "Section 1.1") 10 200 None (Some []);
            mk_hdict 2 (str "Chapter 2") 15 300 None (Some []) ],
          [4]).
Proof. reflexivity. Qed.

End HierFacts.

Module ProcFacts.
Import Str Re Hier Proc ReFacts HierFacts.

(** *** [analyze_document_structure] *)

(** The heading dictionaries are the objects [0 .. n-1] of the store that
    [_build_hierarchy] receives. *)
Lemma headings_in_store (headings : heap) :
  Forall (λ l, l < length headings) (seq 0 (length headings)).
Proof. apply Forall_seq. intros; lia. Qed.

Lemma heading_at_seq (headings : heap) k d :
  headings !! k = Some d →
  heading_at headings (seq 0 (length headings)) k = d.
Proof.
  intros Hk. unfold heading_at.
  rewrite lookup_seq_lt by (by apply lookup_lt_Some in Hk).
  simpl. by rewrite Hk.
Qed.

(** The body of [analyze_document_structure] once the file is read. *)
Lemma analyze_read w file_path include_content content :
  exists_ w (Path w file_path) = Ok true →
  read_text w (Path w file_path) = Ok content →
  let headings :=
    heading_info content include_content
      <$> finditer false heading_pattern content 0 in
  let n := length headings in
  analyze_document_structure w file_path include_content
  = Ok (Success
      {| sr_file_path := file_path;
         sr_title := _extract_document_title content;
         total_headings := n;
         store := hp (state_after headings (seq 0 n) n);
         structure := hierarchy (state_after headings (seq 0 n) n);
         sr_statistics :=
           {| lines := count_nl content + 1;
              characters := length content;
              words := count_words false content |} |}).
Proof.
  intros Hex Hread headings n. unfold analyze_document_structure.
  rewrite Hex, Hread. cbn [negb bind]. fold headings. fold n.
  pose proof (build_hierarchy_after headings (seq 0 n) (headings_in_store _))
    as Hbuild.
  rewrite length_seq in Hbuild. rewrite Hbuild. done.
Qed.

Lemma content_end_spec content L l :
  (∃ j m', l !! j = Some m' ∧ level_of content m' ≤ L
           ∧ (∀ i m'', i < j → l !! i = Some m'' → L < level_of content m'')
           ∧ content_end content L l = mstart m')
  ∨ ((∀ i m'', l !! i = Some m'' → L < level_of content m'')
     ∧ content_end content L l = length content).
Proof.
  induction l as [|m l IH]; simpl.
  - right. split; [intros i m'' Hi; by rewrite lookup_nil in Hi | done].
  - fold (level_of content m).
    destruct (Nat.leb_spec (level_of content m) L) as [Hle|Hgt].
    + left. exists 0, m. repeat split; [done | intros; lia].
    + destruct IH as [(j & m' & Hj & Hle & Hbefore & Hend)|[Hall Hend]].
      * left. exists (S j), m'. repeat split; [done | done | | done].
        intros [|i] m'' Hi Hm''; simpl in Hm''.
        { by injection Hm'' as <-. }
        apply (Hbefore i); [lia | done].
      * right. split; [|done].
        intros [|i] m'' Hm''; simpl in Hm''.
        { by injection Hm'' as <-. }
        by apply (Hall i).
Qed.

(** C4, as the code has it.  [analyze_document_structure] returns a value
    on every path and never raises.  When the existence test answers that
    no file is there, the value is the error dictionary whose message is
    [File not found: ] followed by the path, which mentions the path; when
    the existence test itself fails, or reading the file fails, the value
    is the error dictionary with the text of the failure. *)
Theorem analyze_never_raises (w : world) (file_path : text)
    (include_content : bool) :
  (∃ r, analyze_document_structure w file_path include_content = Ok r)
  ∧ (exists_ w (Path w file_path) = Ok false →
       analyze_document_structure w file_path include_content
       = Ok (Error (str "File not found: " ++ file_path))
       ∧ mentions (str "File not found: " ++ file_path) file_path)
  ∧ (∀ e, exists_ w (Path w file_path) = Raise e →
       analyze_document_structure w file_path include_content
       = Ok (Error e))
  ∧ (∀ e, exists_ w (Path w file_path) = Ok true →
       read_text w (Path w file_path) = Raise e →
       analyze_document_structure w file_path include_content
       = Ok (Error e)).
Proof.
  split; [|split; [|split]].
  - destruct (exists_ w (Path w file_path)) as [[|]|e] eqn:Hex.
    + destruct (read_text w (Path w file_path)) as [content|e] eqn:Hread.
      * eexists. by apply analyze_read.
      * exists (Error e). unfold analyze_document_structure.
        by rewrite Hex, Hread.
    + eexists. unfold analyze_document_structure. by rewrite Hex.
    + exists (Error e). unfold analyze_document_structure. by rewrite Hex.
  - intros Hex. split.
    + unfold analyze_document_structure. by rewrite Hex.
    + exists (str "File not found: "), []. by rewrite app_nil_r.
  - intros e Hex. unfold analyze_document_structure. by rewrite Hex.
  - intros e Hex Hread. unfold analyze_document_structure.
    by rewrite Hex, Hread.
Qed.

(** The unit test [test_nonexistent_file]. *)
Lemma analyze_never_raises_witness :
  exists_ empty_world (Path empty_world (str "/nonexistent/file.adoc"))
  = Ok false
  ∧ analyze_document_structure empty_world (str "/nonexistent/file.adoc") false
    = Ok (Error (str "File not found: /nonexistent/file.adoc")).
Proof.
  split; [reflexivity|].
  destruct (analyze_never_raises empty_world
              (str "/nonexistent/file.adoc") false) as (_ & Hmissing & _).
  apply Hmissing. reflexivity.
Defined.

(** C4 as worded fails on a path whose existence test fails.  The path
    [newline_path] names no file, its last component being longer than a
    name may be; the existence test raises, and the error string of the
    result is the text of that exception, in which the newline of the
    path is written as [repr] writes it: the path does not occur in
    it. *)
Lemma analyze_error_text_counterexample :
  exists_ newline_name_world (Path newline_name_world newline_path)
  = Raise newline_path_error
  ∧ analyze_document_structure newline_name_world newline_path false
    = Ok (Error newline_path_error)
  ∧ ¬ mentions newline_path_error newline_path.
Proof.
  split; [vm_compute; reflexivity|]. split; [vm_compute; reflexivity|].
  intros (pre & post & Heq).
  assert (nl ∈ newline_path_error) as Hin.
  { rewrite Heq. apply elem_of_app. right. apply elem_of_app. left.
    unfold newline_path. apply elem_of_app. right. by left. }
  revert Hin. apply (bool_decide_eq_false_1 (nl ∈ newline_path_error)).
  vm_compute. reflexivity.
Qed.

(** X24. With [include_content] set, the [content] of every match of the
    heading pattern, in the list of headings and in the returned
    structure, is the text from the end of the match to the start of the
    next match whose level is at most its own, or to the end of the
    document when no such match follows, stripped of leading and trailing
    whitespace.  The matches are what the call records as headings; the
    whitespace of the pattern can hold a line end, so that a line of
    markers alone and the line after it make a match. *)
Theorem analyze_section_content (w : world) (file_path content : text) :
  exists_ w (Path w file_path) = Ok true →
  read_text w (Path w file_path) = Ok content →
  let ms := finditer false heading_pattern content 0 in
  ∃ r,
    analyze_document_structure w file_path true = Ok (Success r)
    ∧ total_headings r = length ms
    ∧ ∀ k m, ms !! k = Some m →
        ∃ bound record node,
          section_bound content ms k (level_of content m) bound
          ∧ store r !! k = Some record
          ∧ store r !! (length ms + k) = Some node
          ∧ Hier.level record = Z.of_nat (level_of content m)
          ∧ Hier.content record
            = Some (strip (slice content (mend m) bound))
          ∧ Hier.content node = Hier.content record.
Proof.
  intros Hex Hread ms.
  eexists. split; [by apply analyze_read|]. cbn [total_headings store].
  fold ms. rewrite !length_fmap. fold ms.
  split; [done|]. intros k m Hk.
  set (headings := heading_info content true <$> ms).
  assert (headings !! k = Some (heading_info content true m)) as Hrec.
  { subst headings. by rewrite list_lookup_fmap, Hk. }
  assert (k < length ms) as Hlt by (by apply lookup_lt_Some in Hk).
  assert (length headings = length ms) as Hlen
    by (subst headings; by rewrite length_fmap).
  exists (content_end content (level_of content m)
            (finditer false heading_pattern content (mend m))),
         (heading_info content true m),
         (node_after headings (seq 0 (length ms)) (length ms) k).
  split; [|split; [|split; [|split; [|split]]]].
  - assert (m ∈ ms) as Hin by (apply list_elem_of_lookup; eauto).
    rewrite <- (heading_resume content 0 m Hin).
    rewrite (finditer_drop false heading_pattern content k 0 m Hk).
    fold ms.
    destruct (content_end_spec content (level_of content m) (drop (S k) ms))
      as [(j & m' & Hj & Hle & Hbefore & ->)|[Hall ->]].
    + left. exists (S k + j), m'. rewrite lookup_drop in Hj.
      split_and!; [lia | done | done | | done].
      intros i m'' Hi Hm''. apply (Hbefore (i - S k)); [lia|].
      rewrite lookup_drop. by replace (S k + (i - S k)) with i by lia.
    + right. split; [|done].
      intros i m'' Hi Hm''. apply (Hall (i - S k)).
      rewrite lookup_drop. by replace (S k + (i - S k)) with i by lia.
  - rewrite <- Hlen. rewrite lookup_old_after by (rewrite Hlen; lia). done.
  - rewrite <- Hlen at 3. rewrite <- Hlen at 1.
    rewrite lookup_node_after by lia. by rewrite Hlen.
  - done.
  - done.
  - cbn [node_after with_children Hier.content].
    rewrite <- Hlen. by rewrite (heading_at_seq _ _ _ Hrec).
Qed.

Lemma analyze_section_content_witness :
  exists_ sample_world (Path sample_world (str "/doc.adoc")) = Ok true
  ∧ read_text sample_world (Path sample_world (str "/doc.adoc"))
    = Ok sample_doc
  ∧ ∃ r, analyze_document_structure sample_world (str "/doc.adoc") true
         = Ok (Success r)
         ∧ total_headings r = 4.
Proof.
  assert (exists_ sample_world (Path sample_world (str "/doc.adoc")) = Ok true)
    as Hex by (vm_compute; reflexivity).
  assert (read_text sample_world (Path sample_world (str "/doc.adoc"))
          = Ok sample_doc) as Hread by (vm_compute; reflexivity).
  split; [exact Hex|]. split; [exact Hread|].
  destruct (analyze_section_content sample_world (str "/doc.adoc") sample_doc
              Hex Hread) as (r & Hr & Hn & _).
  exists r. split; [exact Hr|]. rewrite Hn. vm_compute. reflexivity.
Defined.

(** C5.  The claim fails on a section that holds a delimited block.  The
    document [delimited_doc] has two headings, [==== Sub] and [== Next];
    the two lines of markers alone are the delimiters of a block.  The
    whitespace of the heading pattern runs over the end of such a line,
    so that each delimiter and the line after it are recorded as a heading
    of level 4, and the content of [Sub] stops at the first delimiter: it
    is [before], and not the text up to [== Next]. *)
Theorem analyze_delimiter_lines :
  ∃ r sub,
    analyze_document_structure delimited_world (str "/d.adoc") true
    = Ok (Success r)
    ∧ (heading_line <$> split_nl delimited_doc)
      = [Some 4; None; None; None; None; None; Some 2]
    ∧ total_headings r = 4
    ∧ ((λ d, (Hier.level d, Hier.title d)) <$> take 4 (store r))
      = [(4%Z, str "Sub"); (4%Z, str "example"); (4%Z, str "after");
         (2%Z, str "Next")]
    ∧ store r !! 0 = Some sub
    ∧ Hier.content sub = Some (str "before")
    ∧ slice delimited_doc 40 47 = str "== Next"
    ∧ strip (slice delimited_doc 8 40)
      = str "before" ++ [nl] ++ str "====" ++ [nl] ++ str "example" ++ [nl]
        ++ str "====" ++ [nl] ++ str "after"
    ∧ Hier.content sub ≠ Some (strip (slice delimited_doc 8 40)).
Proof.
  eexists _, _. split; [vm_compute; reflexivity|].
  split; [vm_compute; reflexivity|]. split; [reflexivity|].
  split; [reflexivity|]. split; [reflexivity|]. split; [reflexivity|].
  split; [vm_compute; reflexivity|]. split; [vm_compute; reflexivity|].
  vm_compute. intros [=].
Qed.

(** The example of the specification, evaluated: one root, [Title], with
    the children [A] and [B]; [A] has the child [A.1]; and the section
    bodies. *)
Example analyze_sample :
  ∃ r, analyze_document_structure sample_world (str "/doc.adoc") true
       = Ok (Success r)
    ∧ structure r = [4]
    ∧ ((λ d, (title d, content d, children d)) <$> drop 4 (store r))
      = [ (str "Title",
           Some (str "intro" ++ [nl] ++ str "== A" ++ [nl] ++ str "text of a"
                 ++ [nl] ++ str "=== A.1" ++ [nl] ++ str "deep" ++ [nl]
                 ++ str "== B" ++ [nl] ++ str "last"),
           Some [5; 7]);
          (str "A",
           Some (str "text of a" ++ [nl] ++ str "=== A.1" ++ [nl] ++ str "deep"),
           Some [6]);
          (str "A.1", Some (str "deep"), Some []);
          (str "B", Some (str "last"), Some []) ].
Proof. eexists. split; [vm_compute; reflexivity|]. split; reflexivity. Qed.

(** *** [find_includes] *)

(** One turn of the loop: the target is resolved and tested; without
    failure the record is appended, with the result of the recursive call
    when there is one. *)
Lemma include_loop_cons
    (nested_call : text → nat → gset text
                   → option (list include_info * gset text))
    w recursive content current_path d m ms acc P :
  include_loop nested_call w recursive content current_path d (m :: ms) acc P
  = match resolve_include w current_path (group content m 1) with
    | Raise e => Some (Raise e, P)
    | Ok rp =>
        match exists_ w rp with
        | Raise e => Some (Raise e, P)
        | Ok found =>
            let info :=
              mk_include_info (group content m 1) rp found
                (count_nl (take (mstart m) content) + 1) d current_path in
            if recursive && found && (d <? 10) then
              match nested_call rp (d + 1) P with
              | None => None
              | Some (nested, P1) =>
                  include_loop nested_call w recursive content current_path
                    d ms (acc ++ [info (Some nested)]) P1
              end
            else
              include_loop nested_call w recursive content current_path
                d ms (acc ++ [info None]) P
        end
    end.
Proof.
  cbn [include_loop].
  destruct (resolve_include w current_path (group content m 1)) as [rp|e];
    [|done].
  destruct (exists_ w rp) as [found|e]; [|by destruct recursive].
  by destruct recursive.
Qed.

(** The recursion of [find_includes_in_file] is finite: a call at depth
    [d <= 10] returns as soon as the fuel covers the [11 - d] levels of
    calls that the test [depth < 10] allows. *)
Lemma find_includes_in_file_total fuel :
  ∀ w recursive current_path d processed,
    d ≤ 10 → 11 - d ≤ fuel →
    is_Some (find_includes_in_file fuel w recursive current_path d processed).
Proof.
  induction fuel as [|fuel IH]; intros w recursive current_path d processed
    Hd Hfuel; [lia|].
  cbn [find_includes_in_file].
  destruct (decide (current_path ∈ processed)); [done|].
  destruct (read_text w current_path) as [content|e]; [|done].
  assert (∀ ms file_includes acc,
            is_Some (include_loop (find_includes_in_file fuel w recursive)
                       w recursive content current_path d ms file_includes
                       acc)) as Hloop.
  { induction ms as [|m ms IHms]; intros file_includes acc; [done|].
    rewrite include_loop_cons.
    destruct (resolve_include w current_path (group content m 1)) as [rp|e];
      [|done].
    destruct (exists_ w rp) as [found|e]; [|done]. cbv zeta.
    destruct (recursive && found && (d <? 10)) eqn:Hrec; [|apply IHms].
    apply andb_prop in Hrec as [_ Hlt%Nat.ltb_lt].
    destruct (IH w recursive rp (d + 1) acc ltac:(lia) ltac:(lia))
      as [[nested acc'] Hnested].
    rewrite Hnested. apply IHms. }
  destruct (Hloop (finditer false include_pattern content 0) []
              (processed ∪ {[current_path]})) as [[r P'] ->].
  done.
Qed.

(** [find_includes] returns for every file system, file and flag. *)
Lemma find_includes_total fuel w file_path recursive :
  11 ≤ fuel → ∃ r, find_includes fuel w file_path recursive = Some (Ok r).
Proof.
  intros Hfuel. unfold find_includes.
  destruct (exists_ w (Path w file_path)) as [[|]|e]; simpl;
    [|by eexists..].
  destruct (find_includes_in_file_total fuel w recursive (Path w file_path) 0 ∅
              ltac:(lia) ltac:(lia)) as [[incl processed] Hrun].
  rewrite Hrun. simpl. by eexists.
Qed.

(** C8, as the code has it.  Without recursion, a readable file with
    exactly one include directive whose target is resolved and tested for
    existence without failure yields exactly one include record; its depth
    is 0 and it has no key [nested_includes], whether the target exists or
    not.  When the resolution or the existence test of the target fails,
    the failure is caught in [find_includes_in_file] and the call
    succeeds with no record. *)
Theorem find_includes_not_recursive (w : world) (file_path content : text)
    (m : rmatch) (fuel : nat) :
  let A := Path w file_path in
  exists_ w A = Ok true →
  read_text w A = Ok content →
  finditer false include_pattern content 0 = [m] →
  1 ≤ fuel →
  (∀ rp found,
     resolve_include w A (group content m 1) = Ok rp →
     exists_ w rp = Ok found →
     ∃ r x,
       find_includes fuel w file_path false = Some (Ok (Success r))
       ∧ includes r = [x]
       ∧ total_includes r = 1
       ∧ path x = group content m 1
       ∧ exists_on_disk x = found
       ∧ depth x = 0
       ∧ nested_includes x = None)
  ∧ ((∃ e, resolve_include w A (group content m 1) = Raise e)
     ∨ (∃ rp e, resolve_include w A (group content m 1) = Ok rp
                ∧ exists_ w rp = Raise e) →
     ∃ r,
       find_includes fuel w file_path false = Some (Ok (Success r))
       ∧ includes r = []
       ∧ total_includes r = 0).
Proof.
  intros A Hex Hread Hone Hfuel. unfold find_includes. fold A.
  rewrite Hex. destruct fuel as [|fuel]; [lia|].
  cbn [find_includes_in_file].
  rewrite decide_False by set_solver.
  rewrite Hread, Hone, include_loop_cons. split.
  - intros rp found -> ->. cbn [andb include_loop mbind option_bind].
    cbn [try_except app]. eexists _, _. split; [reflexivity|]. done.
  - intros [[e ->]|(rp & e & -> & ->)];
      cbn [mbind option_bind try_except]; eexists; by split.
Qed.

Lemma find_includes_not_recursive_witness :
  exists_ main_world (Path main_world (str "/main.adoc")) = Ok true
  ∧ read_text main_world (Path main_world (str "/main.adoc")) = Ok main_doc
  ∧ finditer false include_pattern main_doc 0 = [mk_rmatch 7 31 [(16, 29)]]
  ∧ resolve_include main_world (str "/main.adoc") (str "chapter2.adoc")
    = Ok (str "/chapter2.adoc")
  ∧ exists_ main_world (str "/chapter2.adoc") = Ok false
  ∧ ∃ r x,
      find_includes 1 main_world (str "/main.adoc") false
      = Some (Ok (Success r))
      ∧ includes r = [x] ∧ depth x = 0 ∧ nested_includes x = None.
Proof.
  assert (exists_ main_world (Path main_world (str "/main.adoc")) = Ok true)
    as Hex by (vm_compute; reflexivity).
  assert (read_text main_world (Path main_world (str "/main.adoc"))
          = Ok main_doc) as Hread by (vm_compute; reflexivity).
  assert (finditer false include_pattern main_doc 0
          = [mk_rmatch 7 31 [(16, 29)]]) as Hone by (vm_compute; reflexivity).
  assert (resolve_include main_world (Path main_world (str "/main.adoc"))
            (group main_doc (mk_rmatch 7 31 [(16, 29)]) 1)
          = Ok (str "/chapter2.adoc")) as Hres by (vm_compute; reflexivity).
  assert (exists_ main_world (str "/chapter2.adoc") = Ok false) as Hno
    by (vm_compute; reflexivity).
  split; [exact Hex|]. split; [exact Hread|]. split; [exact Hone|].
  split; [exact Hres|]. split; [exact Hno|].
  destruct (find_includes_not_recursive main_world (str "/main.adoc") main_doc
              _ 1 Hex Hread Hone (le_n 1)) as [Hfound _].
  destruct (Hfound _ _ Hres Hno)
    as (r & x & Hrun & Hincl & _ & _ & _ & Hdepth & Hnested).
  exists r, x. split; [exact Hrun|]. split; [exact Hincl|].
  split; [exact Hdepth | exact Hnested].
Defined.

(** C8 as worded fails on a directive whose target cannot be tested for
    existence.  The file [/l.adoc] holds exactly one include directive;
    its target has a name of more than 300 characters, on which the
    existence test raises; the exception is caught in
    [find_includes_in_file], which returns the empty list: the call
    succeeds with no record instead of one. *)
Lemma find_includes_long_target_counterexample :
  ∃ m r,
    exists_ long_target_world (str "/l.adoc") = Ok true
    ∧ read_text long_target_world (str "/l.adoc") = Ok long_target_doc
    ∧ finditer false include_pattern long_target_doc 0 = [m]
    ∧ group long_target_doc m 1 = long_target
    ∧ find_includes 11 long_target_world (str "/l.adoc") false
      = Some (Ok (Success r))
    ∧ includes r = []
    ∧ total_includes r = 0
    ∧ ¬ (∃ x, includes r = [x]).
Proof.
  eexists _, _. split; [vm_compute; reflexivity|].
  split; [vm_compute; reflexivity|]. split; [vm_compute; reflexivity|].
  split; [vm_compute; reflexivity|]. split; [vm_compute; reflexivity|].
  split; [reflexivity|]. split; [reflexivity|]. by intros [x [=]].
Qed.

(** The set of processed files only grows, and a call leaves its own
    path in it. *)
Lemma include_loop_processed
    (nested_call : text → nat → gset text
                   → option (list include_info * gset text))
    w recursive content current_path d ms :
  (∀ q d' P l P', nested_call q d' P = Some (l, P') → P ⊆ P') →
  ∀ acc P l P',
    include_loop nested_call w recursive content current_path d ms acc P
    = Some (l, P') → P ⊆ P'.
Proof.
  intros Hcall. induction ms as [|m ms IH]; intros acc P l P'.
  - by intros [= _ <-].
  - rewrite include_loop_cons.
    destruct (resolve_include _ _ _) as [rp|e]; [|by intros [= _ <-]].
    destruct (exists_ w rp) as [found|e]; [|by intros [= _ <-]]. cbv zeta.
    destruct (recursive && _ && _).
    + destruct (nested_call _ _ _) as [[nested P1]|] eqn:Hnested; [|done].
      intros Hrest. apply IH in Hrest. apply Hcall in Hnested.
      by transitivity P1.
    + apply IH.
Qed.

Lemma find_includes_in_file_processed fuel :
  ∀ w recursive current_path d P l P',
    find_includes_in_file fuel w recursive current_path d P = Some (l, P') →
    P ⊆ P' ∧ current_path ∈ P'.
Proof.
  induction fuel as [|fuel IH]; intros w recursive current_path d P l P';
    [done|].
  cbn [find_includes_in_file].
  destruct (decide (current_path ∈ P)) as [Hin|Hin].
  { intros [= _ <-]. done. }
  assert (P ⊆ P ∪ {[current_path]}) as Hsub by apply union_subseteq_l.
  assert (current_path ∈ P ∪ {[current_path]}) as Hown
    by (apply elem_of_union; right; by apply elem_of_singleton).
  destruct (read_text w current_path) as [content|e].
  - destruct (include_loop _ _ _ _ _ _ _ _ _) as [[r P1]|] eqn:Hloop;
      [|done].
    intros [= _ <-]. apply include_loop_processed in Hloop.
    + split; [by transitivity (P ∪ {[current_path]}) | by apply Hloop].
    + intros q d' P0 l0 P0' Hq. apply IH in Hq. tauto.
  - by intros [= _ <-].
Qed.

(** C3. For a file whose single include directive resolves to the path
    [A] of the file itself, [find_includes] with recursion returns, for
    every fuel from 2 on: the nested call finds [A] in the set of
    processed files and yields no records, and [A] is the one element of
    [processed_files]. *)
Theorem find_includes_self_include (w : world) (file_path content : text)
    (m : rmatch) (fuel : nat) :
  let A := Path w file_path in
  exists_ w A = Ok true →
  read_text w A = Ok content →
  finditer false include_pattern content 0 = [m] →
  resolve_include w A (group content m 1) = Ok A →
  2 ≤ fuel →
  ∃ r x,
    find_includes fuel w file_path true = Some (Ok (Success r))
    ∧ processed_files r = [A]
    ∧ includes r = [x]
    ∧ resolved_path x = A
    ∧ depth x = 0
    ∧ nested_includes x = Some [].
Proof.
  intros A Hex Hread Hone Hself Hfuel. unfold find_includes. fold A.
  rewrite Hex.
  destruct fuel as [|[|fuel]]; [lia | lia |].
  cbn [find_includes_in_file].
  rewrite decide_False by set_solver.
  rewrite Hread, Hone, include_loop_cons.
  rewrite Hself, Hex. cbn [andb Nat.ltb Nat.leb].
  rewrite decide_True by set_solver.
  cbn [include_loop mbind option_bind try_except].
  eexists _, _. split; [reflexivity|].
  cbn [processed_files includes resolved_path depth nested_includes app].
  split; [|done].
  rewrite (left_id_L ∅ (∪)). apply elements_singleton.
Qed.

(** Whatever the file includes and however its path is spelled, the call
    returns and lists the path [A] exactly once. *)
Lemma find_includes_lists_file_once (w : world) (file_path : text)
    (recursive : bool) (fuel : nat) :
  let A := Path w file_path in
  exists_ w A = Ok true →
  11 ≤ fuel →
  ∃ r,
    find_includes fuel w file_path recursive = Some (Ok (Success r))
    ∧ A ∈ processed_files r
    ∧ NoDup (processed_files r).
Proof.
  intros A Hex Hfuel. unfold find_includes. fold A. rewrite Hex.
  destruct (find_includes_in_file_total fuel w recursive A 0 ∅
              ltac:(lia) ltac:(lia)) as [[incl processed] Hrun].
  rewrite Hrun. cbn [mbind option_bind try_except].
  eexists. split; [reflexivity|]. cbn [processed_files].
  apply find_includes_in_file_processed in Hrun as [_ Hin].
  split; [by apply elem_of_elements | apply NoDup_elements].
Qed.

(** The set of processed files holds path strings.  When the caller spells
    the path of a self-including file otherwise than its resolved form,
    the file is entered once under each spelling, and the recursion stops
    at the second visit of the resolved one. *)
Example find_includes_two_spellings :
  ∃ r x y,
    find_includes 11 spelling_world (str "a.adoc") true
    = Some (Ok (Success r))
    ∧ length (processed_files r) = 2
    ∧ str "a.adoc" ∈ processed_files r
    ∧ str "/a.adoc" ∈ processed_files r
    ∧ includes r = [x]
    ∧ nested_includes x = Some [y]
    ∧ nested_includes y = Some [].
Proof.
  eexists _, _, _. split; [vm_compute; reflexivity|].
  split; [reflexivity|]. split; [by right; left|]. split; [by left|].
  split; [reflexivity|]. split; reflexivity.
Qed.

Lemma find_includes_self_include_witness :
  exists_ self_world (Path self_world (str "/a.adoc")) = Ok true
  ∧ read_text self_world (Path self_world (str "/a.adoc"))
    = Ok (str "include::a.adoc[]")
  ∧ finditer false include_pattern (str "include::a.adoc[]") 0
    = [mk_rmatch 0 17 [(9, 15)]]
  ∧ resolve_include self_world (str "/a.adoc")
      (group (str "include::a.adoc[]") (mk_rmatch 0 17 [(9, 15)]) 1)
    = Ok (str "/a.adoc")
  ∧ ∃ r,
      find_includes 11 self_world (str "/a.adoc") true
      = Some (Ok (Success r))
      ∧ processed_files r = [str "/a.adoc"].
Proof.
  assert (exists_ self_world (Path self_world (str "/a.adoc")) = Ok true)
    as Hex by (vm_compute; reflexivity).
  assert (read_text self_world (Path self_world (str "/a.adoc"))
          = Ok (str "include::a.adoc[]")) as Hread by (vm_compute; reflexivity).
  assert (finditer false include_pattern (str "include::a.adoc[]") 0
          = [mk_rmatch 0 17 [(9, 15)]]) as Hone by (vm_compute; reflexivity).
  assert (resolve_include self_world (Path self_world (str "/a.adoc"))
            (group (str "include::a.adoc[]") (mk_rmatch 0 17 [(9, 15)]) 1)
          = Ok (Path self_world (str "/a.adoc"))) as Hself
    by (vm_compute; reflexivity).
  split; [exact Hex|]. split; [exact Hread|]. split; [exact Hone|].
  split; [exact Hself|].
  destruct (find_includes_self_include self_world (str "/a.adoc") _ _ 11
              Hex Hread Hone Hself ltac:(lia))
    as (r & x & Hrun & Hproc & _).
  by exists r.
Defined.

(** *** [extract_metadata] *)

Lemma collect_attributes_cons content attributes m ms :
  collect_attributes content attributes (m :: ms)
  = collect_attributes content
      (<[attr_name content m := attr_value content m]> attributes) ms.
Proof. reflexivity. Qed.

Lemma collect_attributes_other content k ms :
  ∀ attributes,
    (∀ m, m ∈ ms → attr_name content m ≠ k) →
    collect_attributes content attributes ms !! k = attributes !! k.
Proof.
  induction ms as [|m ms IH]; intros attributes Hother; [done|].
  rewrite collect_attributes_cons.
  rewrite IH by (intros m' Hm'; apply Hother; by right).
  apply lookup_insert_ne, Hother. by left.
Qed.

Lemma collect_attributes_app content attributes l1 l2 :
  collect_attributes content attributes (l1 ++ l2)
  = collect_attributes content (collect_attributes content attributes l1) l2.
Proof. apply foldl_app. Qed.

(** The last declaration of a name decides its value. *)
Lemma collect_attributes_last content attributes ms i m :
  ms !! i = Some m →
  (∀ j m', i < j → ms !! j = Some m' →
     attr_name content m' ≠ attr_name content m) →
  collect_attributes content attributes ms !! attr_name content m
  = Some (attr_value content m).
Proof.
  intros Hi Hlast.
  rewrite <- (take_drop_middle ms i m Hi), collect_attributes_app.
  rewrite collect_attributes_cons.
  rewrite collect_attributes_other; [apply lookup_insert_eq|].
  intros m' [j Hj]%list_elem_of_lookup. rewrite lookup_drop in Hj.
  apply (Hlast (S i + j)); [lia | done].
Qed.

(** X25. The attribute map of [extract_metadata] binds the name of every
    match of the attribute pattern to the value of the last match with
    this name, and binds no other name; [author] is read from this map.
    For the document with the lines [:author: Jane] and [:author: Jane2]
    the author is [Jane2].  The matches are what the call takes as
    declarations; the whitespace of the pattern can hold a line end, so
    that a declaration without value and the line after it make one
    match. *)
Theorem extract_metadata_last_wins (w : world) (file_path content : text)
    (st : stat_result) :
  exists_ w (Path w file_path) = Ok true →
  read_text w (Path w file_path) = Ok content →
  stat w (Path w file_path) = Ok st →
  let decls := finditer false attribute_pattern content 0 in
  ∃ r,
    extract_metadata w file_path = Ok (Success r)
    ∧ (∀ i m, decls !! i = Some m →
         (∀ j m', i < j → decls !! j = Some m' →
            attr_name content m' ≠ attr_name content m) →
         attributes r !! attr_name content m = Some (attr_value content m))
    ∧ (∀ name, (∀ m, m ∈ decls → attr_name content m ≠ name) →
         attributes r !! name = None)
    ∧ author r = default [] (attributes r !! str "author")
    ∧ (content = jane_doc → author r = str "Jane2").
Proof.
  intros Hex Hread Hstat decls. unfold extract_metadata.
  rewrite Hex, Hread. cbn [negb bind try_except]. rewrite Hstat.
  cbn [bind]. fold decls.
  eexists. split; [reflexivity|]. cbn [attributes author].
  split; [|split; [|split]].
  - intros i m Hi Hlast.
    apply (collect_attributes_last content ∅ decls i m Hi Hlast).
  - intros name Hno. by rewrite collect_attributes_other.
  - done.
  - intros ->.
    assert (decls = [mk_rmatch 0 13 [(1, 7); (9, 13)];
                     mk_rmatch 14 28 [(15, 21); (23, 28)]]) as ->
      by (vm_compute; reflexivity).
    set (m1 := mk_rmatch 0 13 [(1, 7); (9, 13)]).
    set (m2 := mk_rmatch 14 28 [(15, 21); (23, 28)]).
    pose proof (collect_attributes_last jane_doc ∅ [m1; m2] 1 m2 eq_refl)
      as Hlast.
    assert (attr_name jane_doc m2 = str "author") as Hname
      by (vm_compute; reflexivity).
    assert (attr_value jane_doc m2 = str "Jane2") as Hvalue
      by (vm_compute; reflexivity).
    rewrite Hname, Hvalue in Hlast. rewrite Hlast; [done|].
    intros j m' Hj Hm'. destruct j as [|[|j]]; [lia | lia | done].
Qed.

Lemma extract_metadata_last_wins_witness :
  exists_ jane_world (Path jane_world (str "/jane.adoc")) = Ok true
  ∧ read_text jane_world (Path jane_world (str "/jane.adoc")) = Ok jane_doc
  ∧ stat jane_world (Path jane_world (str "/jane.adoc")) = Ok (mk_stat 28 0 0)
  ∧ ∃ r, extract_metadata jane_world (str "/jane.adoc") = Ok (Success r)
         ∧ author r = str "Jane2".
Proof.
  assert (exists_ jane_world (Path jane_world (str "/jane.adoc")) = Ok true)
    as Hex by (vm_compute; reflexivity).
  assert (read_text jane_world (Path jane_world (str "/jane.adoc"))
          = Ok jane_doc) as Hread by (vm_compute; reflexivity).
  assert (stat jane_world (Path jane_world (str "/jane.adoc"))
          = Ok (mk_stat 28 0 0)) as Hstat by (vm_compute; reflexivity).
  split; [exact Hex|]. split; [exact Hread|]. split; [exact Hstat|].
  destruct (extract_metadata_last_wins jane_world (str "/jane.adoc") jane_doc
              _ Hex Hread Hstat) as (r & Hrun & _ & _ & _ & Hjane).
  exists r. split; [exact Hrun|]. apply Hjane. reflexivity.
Defined.

(** C6.  The claim fails on a document in which a declaration without
    value stands before the last declaration of a name.  The document
    [toc_doc] declares [author] twice, with the line [:toc:] between the
    two.  The whitespace of the attribute pattern runs over the end of
    the line [:toc:], so that the last declaration of [author] is taken
    as the value of [toc]: [author] is bound to [Jane], the value of the
    first declaration, and not to [Bob]. *)
Theorem extract_metadata_value_less_line :
  ∃ r,
    extract_metadata toc_world (str "/t.adoc") = Ok (Success r)
    ∧ (declaration_line <$> split_nl toc_doc)
      = [Some (str "author", str "Jane"); Some (str "toc", []);
         Some (str "author", str "Bob")]
    ∧ author r = str "Jane"
    ∧ attributes r !! str "author" = Some (str "Jane")
    ∧ attributes r !! str "toc" = Some (str ":author: Bob")
    ∧ author r ≠ str "Bob".
Proof.
  eexists. split; [vm_compute; reflexivity|].
  split; [vm_compute; reflexivity|]. split; [reflexivity|].
  split; [vm_compute; reflexivity|]. split; [vm_compute; reflexivity|].
  intros [=].
Qed.

(** *** [search_content] *)

Lemma filter_none {A} (P : A → Prop) `{∀ x, Decision (P x)} (l : list A) :
  (∀ x, x ∈ l → ¬ P x) → filter P l = [].
Proof.
  intros Hno. apply elem_of_nil_inv.
  intros x [HP Hin]%list_elem_of_filter. by apply (Hno x).
Qed.

Lemma filter_all {A} (P Q : A → Prop) `{∀ x, Decision (P x)}
    `{∀ x, Decision (Q x)} (l : list A) :
  (∀ x, x ∈ l → P x) → filter (λ x, P x ∧ Q x) l = filter Q l.
Proof.
  induction l as [|x l IH]; intros Hall; [done|].
  rewrite !filter_cons, IH by (intros y Hy; apply Hall; by right).
  pose proof (Hall x ltac:(by left)).
  destruct (decide (Q x)); [by rewrite decide_True | by rewrite decide_False by tauto].
Qed.

(** The results kept from an enumeration, selected by their number. *)
Lemma filter_omap_imap {A B} (num : B → nat) (l : list A) :
  ∀ (f : nat → A → option B) b i,
    (∀ j a x, f j a = Some x → num x = b + j) →
    filter (λ y, num y = b + i) (omap id (imap f l))
    = match l !! i ≫= f i with Some x => [x] | None => [] end.
Proof.
  induction l as [|a l IH]; intros f b i Hnum; [done|].
  rewrite imap_cons. cbn [omap list_omap id].
  assert (∀ j a x, (f ∘ S) j a = Some x → num x = S b + j) as Hnum'.
  { intros j a' x Hx. rewrite (Hnum (S j) a' x Hx). lia. }
  destruct i as [|i].
  - assert (filter (λ y, num y = b + 0) (omap id (imap (f ∘ S) l)) = [])
      as Hrest.
    { apply filter_none. intros y Hy Hb.
      apply list_elem_of_omap in Hy as (o & Ho & Hoy). simpl in Hoy. subst o.
      apply elem_of_lookup_imap in Ho as (j & a' & Hfa & _).
      symmetry in Hfa. apply Hnum' in Hfa. lia. }
    simpl. destruct (f 0 a) as [x|] eqn:Hx.
    + rewrite filter_cons, Hrest.
      by rewrite decide_True by (by apply (Hnum 0 a)).
    + done.
  - replace (b + S i) with (S b + i) by lia. simpl.
    specialize (IH (f ∘ S) (S b) i Hnum').
    destruct (f 0 a) as [x|] eqn:Hx.
    + rewrite filter_cons.
      rewrite decide_False by (rewrite (Hnum 0 a x Hx); lia). done.
    + done.
Qed.

Lemma file_results_file ic pat p content y :
  y ∈ file_results ic pat p content → file y = p.
Proof.
  unfold file_results.
  intros (o & Ho & Hoy)%list_elem_of_omap. simpl in Hoy. subst o.
  apply elem_of_lookup_imap in Ho as (j & a & Hfa & _).
  unfold line_result in Hfa.
  destruct (search ic pat a 0); [|done]. by injection Hfa as ->.
Qed.

Lemma contribution_file w ic pat p y :
  y ∈ contribution w ic pat p → file y = p.
Proof.
  unfold contribution. destruct (read_text w p); [|by intros ?%elem_of_nil].
  apply file_results_file.
Qed.

(** The loop over [files_to_search] in closed form. *)
Lemma search_files w ic pat files :
  ∀ acc,
    foldl (search_file w ic pat) acc files
    = (acc.1 ++ flat_map (contribution w ic pat) files,
       acc.2 ++ filter (λ p, loads w p = true) files).
Proof.
  induction files as [|p files IH]; intros [results searched]; simpl.
  - by rewrite !app_nil_r.
  - rewrite IH. unfold search_file, contribution, loads. rewrite filter_cons.
    destruct (read_text w p) as [content|e]; simpl.
    + by rewrite <- !app_assoc.
    + done.
Qed.

Lemma search_content_run w query file_path case_sensitive files :
  files_to_search w file_path = Some files →
  search_content w query file_path case_sensitive
  = Ok (Success
      {| Proc.query := query;
         Proc.case_sensitive := case_sensitive;
         total_matches :=
           length (flat_map (contribution w (negb case_sensitive)
                               (escape query)) files);
         files_searched := filter (λ p, loads w p = true) files;
         results :=
           flat_map (contribution w (negb case_sensitive) (escape query))
                    files |}).
Proof.
  unfold files_to_search, search_content.
  destruct (truthy file_path) as [fp|].
  - destruct (exists_ w (Path w fp)) as [[|]|e]; [|done..]. intros [= <-].
    cbn [bind negb try_except]. by rewrite search_files.
  - destruct (rglob_adoc w) as [l|]; [|done]. intros [= <-].
    cbn [bind try_except]. by rewrite search_files.
Qed.

(** Among the results of a call, those of the file [p] are the
    contribution of [p], when [p] is listed once. *)
Lemma filter_contributions w ic pat (Q : search_result → Prop)
    `{∀ y, Decision (Q y)} files p :
  NoDup files → p ∈ files →
  filter (λ y, file y = p ∧ Q y) (flat_map (contribution w ic pat) files)
  = filter Q (contribution w ic pat p).
Proof.
  assert (∀ l, p ∉ l →
            filter (λ y, file y = p ∧ Q y)
                   (flat_map (contribution w ic pat) l) = []) as Hother.
  { intros l Hl. apply filter_none. intros y Hy [Hfile _].
    apply list_elem_of_In, in_flat_map in Hy as (p' & Hp' & Hy).
    apply list_elem_of_In in Hp', Hy. apply contribution_file in Hy.
    congruence. }
  induction files as [|p0 files IH]; intros Hnodup Hin.
  - by apply elem_of_nil in Hin.
  - apply NoDup_cons in Hnodup as [Hp0 Hnodup]. simpl. rewrite filter_app.
    destruct (decide (p0 = p)) as [->|Hne].
    + rewrite Hother, app_nil_r by done. apply filter_all.
      intros y Hy. by apply contribution_file in Hy.
    + apply elem_of_cons in Hin as [->|Hin]; [done|].
      rewrite IH by done.
      rewrite (filter_none _ (contribution w ic pat p0)); [done|].
      intros y Hy [Hfile _]. apply contribution_file in Hy. congruence.
Qed.

Lemma context_window_slice (lines : list text) i :
  context_window lines i
    (take (Nat.min (length lines) (i + 3) - Nat.max 0 (i - 2))
          (drop (Nat.max 0 (i - 2)) lines)).
Proof.
  rewrite Nat.max_0_l. split.
  - rewrite length_take, length_drop. lia.
  - intros j. rewrite lookup_take, lookup_drop.
    destruct (decide (i - 2 + j < i + 3)) as [Hj|Hj].
    + destruct (decide (j < Nat.min (length lines) (i + 3) - (i - 2)));
        [done|].
      symmetry. apply lookup_ge_None_2. lia.
    + rewrite decide_False by lia. done.
Qed.

(** The spans recorded for a line in which the query occurs. *)
Lemma scanned_spans ic q line :
  (∃ p, occurs_at ic q line p) →
  records_scanned_occurrences ic q line
    (span <$> finditer ic (escape q) line 0).
Proof.
  intros Hocc. split; [|split; [|split]].
  - apply search_escape in Hocc as [m Hm].
    rewrite finditer_unfold, Hm. done.
  - intros a b (m & [= -> ->] & Hin)%list_elem_of_fmap.
    apply finditer_match in Hin as (Hs & _ & Hm).
    apply match_here_lits in Hm as (Ho & He & _); [done | lia].
  - intros k a b a' b' Hk HSk. rewrite list_lookup_fmap in Hk, HSk.
    destruct (finditer ic (escape q) line 0 !! k) as [m|] eqn:Hm; [|done].
    destruct (finditer ic (escape q) line 0 !! S k) as [m'|] eqn:Hm'; [|done].
    injection Hk as <- <-. injection HSk as <- <-.
    by apply (finditer_ordered ic (escape q) line 0 k).
  - intros p Hp. pose proof Hp as [Hlen _].
    apply match_here_lits_occurs in Hp.
    destruct (finditer_covers ic (escape q) line 0 p _ ltac:(lia) Hp)
      as (m & Hin & Hcov).
    exists (mstart m), (mend m). split.
    + apply list_elem_of_fmap. by exists m.
    + unfold resume in Hcov.
      destruct (Nat.eqb_spec (mend m) (mstart m)); lia.
Qed.

(** What one line contributes. *)
Lemma line_result_occurs ic q p lines i line :
  (∃ pos, occurs_at ic q line pos) →
  ∃ x, line_result ic (escape q) p lines i line = Some x
       ∧ Proc.line x = strip line
       ∧ context_window lines i (context x)
       ∧ records_scanned_occurrences ic q line (match_positions x).
Proof.
  intros Hocc. unfold line_result.
  destruct (proj2 (search_escape ic q line) Hocc) as [m ->].
  eexists. split; [reflexivity|]. cbn [Proc.line context match_positions].
  split; [done|]. split; [apply context_window_slice | by apply scanned_spans].
Qed.

Lemma line_result_absent ic q p lines i line :
  ¬ (∃ pos, occurs_at ic q line pos) →
  line_result ic (escape q) p lines i line = None.
Proof.
  intros Hno. unfold line_result.
  destruct (search ic (escape q) line 0) as [m|] eqn:Hm; [|done].
  destruct Hno. apply search_escape. by rewrite Hm.
Qed.

Lemma line_result_number ic pat p lines j a x :
  line_result ic pat p lines j a = Some x → line_number x = 1 + j.
Proof.
  unfold line_result. destruct (search ic pat a 0); [|done].
  intros [= <-]. simpl. lia.
Qed.

(** C7, as the code has it.  For every file that is searched (each listed
    once) and every line of it, the results of the call hold exactly one
    result for the line when the query occurs in it and none otherwise;
    that result has the 1-based number of the line, the stripped line,
    the lines [i - 2 .. i + 2] that exist as context (at most 5), and the
    spans that the scan from left to right finds: occurrences of the
    query in increasing order that do not overlap, every occurrence of
    the query starting inside one of them. *)
Theorem search_content_line_results (w : world) (query : text)
    (file_path : option text) (case_sensitive : bool) (files : list text) :
  files_to_search w file_path = Some files →
  NoDup files →
  ∃ r,
    search_content w query file_path case_sensitive = Ok (Success r)
    ∧ ∀ p content i line,
        p ∈ files → read_text w p = Ok content →
        split_nl content !! i = Some line →
        let hits :=
          filter (λ y, file y = p ∧ line_number y = i + 1) (results r) in
        ((∃ pos, occurs_at (negb case_sensitive) query line pos) →
           ∃ x, hits = [x]
                ∧ Proc.line x = strip line
                ∧ context_window (split_nl content) i (context x)
                ∧ records_scanned_occurrences (negb case_sensitive) query line
                    (match_positions x))
        ∧ (¬ (∃ pos, occurs_at (negb case_sensitive) query line pos) →
           hits = []).
Proof.
  intros Hfiles Hnodup. eexists.
  split; [by apply search_content_run|]. cbn [results].
  intros p content i line Hp Hread Hline.
  match goal with |- context [filter ?P ?l] => set (hits := filter P l) end.
  assert (hits = match line_result (negb case_sensitive) (escape query) p
                       (split_nl content) i line with
                 | Some x => [x]
                 | None => []
                 end) as ->.
  { subst hits. rewrite filter_contributions by done.
    unfold contribution. rewrite Hread. unfold file_results.
    rewrite (list_filter_iff _ (λ y, line_number y = 1 + i))
      by (intros; lia).
    rewrite (filter_omap_imap line_number _ _ 1 i)
      by (intros j a x; apply line_result_number).
    by rewrite Hline. }
  split.
  - intros Hocc.
    destruct (line_result_occurs _ _ p (split_nl content) i line Hocc)
      as (x & -> & Hx).
    by exists x.
  - intros Hno. by rewrite line_result_absent.
Qed.

Lemma search_content_line_results_witness :
  files_to_search sample_world (Some (str "/doc.adoc"))
  = Some [str "/doc.adoc"]
  ∧ NoDup [str "/doc.adoc"]
  ∧ ∃ r, search_content sample_world (str "text") (Some (str "/doc.adoc"))
           false = Ok (Success r).
Proof.
  assert (files_to_search sample_world (Some (str "/doc.adoc"))
          = Some [str "/doc.adoc"]) as Hfiles by (vm_compute; reflexivity).
  assert (NoDup [str "/doc.adoc"]) as Hnodup by apply NoDup_singleton.
  split; [exact Hfiles|]. split; [exact Hnodup|].
  destruct (search_content_line_results sample_world (str "text")
              (Some (str "/doc.adoc")) false _ Hfiles Hnodup) as (r & Hr & _).
  by exists r.
Defined.

(** C7 as worded fails on overlapping occurrences.  In the line [aaa] the
    query [aa] occurs at the offsets 0 and 1; the call records the single
    span (0, 2), so the span of the occurrence at offset 1 is missing and
    the line with two occurrences has one span. *)
Lemma search_content_overlap_counterexample :
  ∃ r x,
    search_content overlap_world (str "aa") (Some (str "/o.adoc")) true
    = Ok (Success r)
    ∧ results r = [x]
    ∧ line_number x = 1
    ∧ match_positions x = [(0, 2)]
    ∧ occurs_at false (str "aa") (str "aaa") 0
    ∧ occurs_at false (str "aa") (str "aaa") 1
    ∧ ¬ records_every_occurrence false (str "aa") (str "aaa")
          (match_positions x).
Proof.
  assert (∀ p, p ≤ 1 → occurs_at false (str "aa") (str "aaa") p) as Hocc.
  { intros p Hp. split; [simpl; lia|].
    intros [|[|k]] c Hk; simpl in Hk; try done; injection Hk as <-;
      destruct p as [|[|p]]; try lia; by eexists. }
  eexists _, _. split; [vm_compute; reflexivity|].
  split; [reflexivity|]. split; [reflexivity|]. split; [reflexivity|].
  split; [apply Hocc; lia|]. split; [apply Hocc; lia|].
  intros Hall. specialize (Hall 1 (Hocc 1 (le_n 1))). simpl in Hall.
  apply elem_of_cons in Hall as [[=]|Hall]. by apply elem_of_nil in Hall.
Qed.

(** C9. In a search of the directory, the call returns its result
    whatever files fail to load; [files_searched] lists exactly the listed
    files that were read, the results are those of the files that were
    read, and a file that fails to load is absent from [files_searched]
    and contributes no result. *)
Theorem search_content_skips_unreadable (w : world) (query : text)
    (file_path : option text) (case_sensitive : bool) (files : list text) :
  truthy file_path = None →
  rglob_adoc w = Ok files →
  ∃ r,
    search_content w query file_path case_sensitive = Ok (Success r)
    ∧ files_searched r = filter (λ p, loads w p = true) files
    ∧ results r
      = flat_map (contribution w (negb case_sensitive) (escape query)) files
    ∧ (∀ p, (p ∈ files_searched r)
            ↔ (p ∈ files ∧ ∃ content, read_text w p = Ok content))
    ∧ (∀ p e, read_text w p = Raise e →
         (p ∉ files_searched r)
         ∧ contribution w (negb case_sensitive) (escape query) p = []
         ∧ ∀ y, y ∈ results r → file y ≠ p).
Proof.
  intros Hdir Hglob.
  assert (files_to_search w file_path = Some files) as Hfiles.
  { unfold files_to_search. by rewrite Hdir, Hglob. }
  eexists. split; [by apply search_content_run|].
  cbn [files_searched results].
  split; [done|]. split; [done|]. split.
  - intros p. rewrite list_elem_of_filter. unfold loads.
    destruct (read_text w p) as [content|e]; split.
    + intros [_ Hp]. split; [done | by exists content].
    + intros [Hp _]. done.
    + intros [[=] _].
    + intros [_ [content [=]]].
  - intros p e Hfail. split; [|split].
    + intros [Hloads _]%list_elem_of_filter. unfold loads in Hloads.
      by rewrite Hfail in Hloads.
    + unfold contribution. by rewrite Hfail.
    + intros y Hy Hfile.
      apply list_elem_of_In, in_flat_map in Hy as (p' & _ & Hy).
      apply list_elem_of_In in Hy.
      pose proof (contribution_file _ _ _ _ _ Hy) as Hp'.
      rewrite Hfile in Hp'. subst p'.
      unfold contribution in Hy. rewrite Hfail in Hy.
      by apply elem_of_nil in Hy.
Qed.

Lemma search_content_skips_unreadable_witness :
  truthy None = None
  ∧ rglob_adoc broken_world = Ok [str "/doc.adoc"; str "/broken.adoc"]
  ∧ read_text broken_world (str "/broken.adoc")
    = Raise (str "cannot read the file")
  ∧ ∃ r, search_content broken_world (str "text") None false
         = Ok (Success r)
         ∧ files_searched r = [str "/doc.adoc"].
Proof.
  assert (rglob_adoc broken_world
          = Ok [str "/doc.adoc"; str "/broken.adoc"]) as Hglob
    by (vm_compute; reflexivity).
  split; [reflexivity|]. split; [exact Hglob|].
  split; [vm_compute; reflexivity|].
  destruct (search_content_skips_unreadable broken_world (str "text") None
              false _ eq_refl Hglob) as (r & Hr & Hsearched & _).
  exists r. split; [exact Hr|]. rewrite Hsearched. vm_compute. reflexivity.
Defined.

End ProcFacts.

(** * Further properties of the processor *)

Module ExtraFacts.
Import Str Re Hier Proc Extra ReFacts HierFacts ProcFacts.

(** ** The forest of [_build_hierarchy] *)

Section Shape.
Variable lv : nat → Z.

Lemma filter_seq_increasing (P : nat → Prop) `{∀ c, Decision (P c)} a n :
  ∀ k k' c c', k < k' →
    filter P (seq a n) !! k = Some c → filter P (seq a n) !! k' = Some c' →
    c < c'.
Proof.
  induction n as [|n IH]; intros k k' c c' Hk; [done|].
  rewrite seq_S, filter_app. intros Hc Hc'.
  assert (∀ x, x ∈ filter P (seq a n) → x < a + n) as Hbelow.
  { intros x [_ Hx%elem_of_seq]%list_elem_of_filter. lia. }
  apply lookup_app_Some in Hc as [Hc|[Hlen Hc]];
    apply lookup_app_Some in Hc' as [Hc'|[Hlen' Hc']].
  - by apply (IH k k').
  - assert (c' = a + n) as ->.
    { apply list_elem_of_lookup_2, list_elem_of_filter in Hc' as [_ Hin].
      by apply list_elem_of_singleton in Hin. }
    apply Hbelow. by apply list_elem_of_lookup_2 in Hc.
  - apply lookup_lt_Some in Hc'. lia.
  - apply lookup_lt_Some in Hc'.
    assert (length (filter P [a + n]) ≤ 1) by apply (length_filter P [a + n]).
    apply lookup_lt_Some in Hc. lia.
Qed.

(** Two headings with the same parent: the later one is not deeper. *)
Lemma attached_levels n q c c' :
  c ∈ attached lv n q → c' ∈ attached lv n q → c < c' →
  (lv c' ≤ lv c)%Z.
Proof.
  intros [_ Hc]%attached_elem [_ Hc']%attached_elem Hlt.
  destruct q as [j|].
  - apply parent_index_spec in Hc as (Hjc & _).
    apply parent_index_spec in Hc' as (_ & _ & Hmin). apply Hmin. lia.
  - apply (proj1 (parent_index_None lv c') Hc'). done.
Qed.

Lemma attached_prefix i n q :
  i ≤ n → attached lv i q `prefix_of` attached lv n q.
Proof.
  intros Hi. unfold attached.
  replace n with (i + (n - i)) by lia. rewrite seq_app, filter_app.
  by apply prefix_app_r.
Qed.

Lemma filter_seq_singleton (P : nat → Prop) `{∀ c, Decision (P c)} n x :
  (∀ c, c < n → (P c ↔ c = x)) →
  filter P (seq 0 n) = if decide (x < n) then [x] else [].
Proof.
  intros HP. destruct (decide (x < n)) as [Hx|Hx].
  - rewrite (filter_seq_restrict P n x (S x)).
    + replace (S x - x) with 1 by lia. simpl. rewrite filter_cons.
      by rewrite decide_True by (by apply HP).
    + lia.
    + intros c Hc HPc. apply HP in HPc; lia.
  - apply filter_seq_none. intros c Hc HPc. apply HP in HPc; lia.
Qed.

Lemma filter_seq_all (P : nat → Prop) `{∀ c, Decision (P c)} a n :
  (∀ c, a ≤ c < a + n → P c) → filter P (seq a n) = seq a n.
Proof.
  revert a. induction n as [|n IH]; intros a HP; [done|].
  simpl. rewrite filter_cons, decide_True by (apply HP; lia).
  f_equal. apply IH. intros c Hc. apply HP. lia.
Qed.

End Shape.

Lemma prefix_fmap {A B} (f : A → B) (l1 l2 : list A) :
  l1 `prefix_of` l2 → (f <$> l1) `prefix_of` (f <$> l2).
Proof. intros [k ->]. rewrite fmap_app. by apply prefix_app_r. Qed.

Section Forest.
Variable h : heap.
Variable headings : list loc.
Hypothesis valid : Forall (λ l, l < length h) headings.

Let lv := level_at h headings.
Let base := length h.
Let n := length headings.
Let final := hp (state_after h headings n).

(** A dictionary created by the call, looked up in the final store. *)
Lemma lookup_final_new a d :
  base ≤ a → final !! a = Some d →
  ∃ j, a = base + j ∧ j < n ∧ d = node_after h headings n j.
Proof.
  intros Ha Hd. exists (a - base).
  assert (a - base < n) as Hj.
  { apply lookup_lt_Some in Hd. subst final. cbn [state_after hp] in Hd.
    rewrite length_app, length_fmap, length_seq in Hd. lia. }
  split; [lia|]. split; [done|].
  subst final. replace a with (base + (a - base)) in Hd by lia.
  unfold base, n in *. rewrite lookup_node_after in Hd by done.
  by injection Hd.
Qed.

Lemma siblings_ordered_attached q :
  siblings_ordered final ((λ c, base + c) <$> attached lv n q).
Proof.
  intros k k' x y Hk Hx Hy.
  rewrite list_lookup_fmap in Hx, Hy.
  destruct (attached lv n q !! k) as [c|] eqn:Hc; [|done].
  destruct (attached lv n q !! k') as [c'|] eqn:Hc'; [|done].
  injection Hx as <-. injection Hy as <-.
  assert (c < c') as Hlt by apply (filter_seq_increasing _ 0 n k k' c c' Hk Hc Hc').
  pose proof (list_elem_of_lookup_2 _ _ _ Hc) as Hin.
  pose proof (list_elem_of_lookup_2 _ _ _ Hc') as Hin'.
  split; [lia|].
  exists (node_after h headings n c), (node_after h headings n c').
  split; [apply lookup_node_after; by apply attached_elem in Hin as [? _]|].
  split; [apply lookup_node_after; by apply attached_elem in Hin' as [? _]|].
  by apply (attached_levels lv n q).
Qed.

Lemma reaches_final steps a b :
  reaches final steps a b →
  ∀ j, a = base + j → ∃ i, b = base + i ∧ (lv j + Z.of_nat steps ≤ lv i)%Z.
Proof.
  induction 1 as [a | steps a c b Hc _ IH]; intros j ->.
  - exists j. split; [done | lia].
  - apply child_final in Hc as (k & -> & _ & Hp).
    apply parent_index_spec in Hp as (_ & Hlt & _).
    destruct (IH k eq_refl) as (i & -> & Hle). exists i.
    split; [done|]. fold lv in Hlt. lia.
Qed.

End Forest.

(** X1. In the forest that [_build_hierarchy] returns, the roots and the
    children of every node stand in the order of their creation, which is
    document order, and their levels do not increase from one sibling to
    the next; every child is created after its parent and has a strictly
    greater level. *)
Theorem build_hierarchy_siblings (h : heap) (headings : list loc) :
  Forall (λ l, l < length h) headings →
  ∃ h' roots,
    _build_hierarchy h headings = Some (h', roots)
    ∧ siblings_ordered h' roots
    ∧ ∀ a d cs,
        length h ≤ a → h' !! a = Some d → children d = Some cs →
        siblings_ordered h' cs
        ∧ ∀ b, b ∈ cs →
            a < b ∧ ∃ db, h' !! b = Some db ∧ (level d < level db)%Z.
Proof.
  intros Hvalid. eexists _, _. split; [by apply build_hierarchy_after|].
  split; [apply siblings_ordered_attached|].
  intros a d cs Ha Hd Hcs.
  apply lookup_final_new in Hd as (j & -> & Hj & ->); [|done].
  cbn [node_after with_children children] in Hcs. injection Hcs as <-.
  split; [apply siblings_ordered_attached|].
  intros b (c & -> & [Hc Hp]%attached_elem)%list_elem_of_fmap.
  apply parent_index_spec in Hp as (Hjc & Hlt & _).
  split; [lia|]. exists (node_after h headings (length headings) c).
  split; [by apply lookup_node_after | done].
Qed.

Lemma build_hierarchy_siblings_witness :
  Forall (λ l, l < length sample_heap) sample_headings
  ∧ ∃ h' roots,
      _build_hierarchy sample_heap sample_headings = Some (h', roots)
      ∧ siblings_ordered h' roots.
Proof.
  assert (Forall (λ l, l < length sample_heap) sample_headings) as Hvalid.
  { repeat constructor. }
  split; [exact Hvalid|].
  destruct (build_hierarchy_siblings sample_heap sample_headings Hvalid)
    as (h' & roots & Hrun & Hroots & _).
  by exists h', roots.
Defined.

(** X2. [_build_hierarchy] works on line: the forest built from the first
    [i] headings is kept when the remaining headings are processed.  Its
    roots are a prefix of the final roots, and every node has its record
    and, as a prefix of its final children, its children. *)
Theorem build_hierarchy_online (h : heap) (headings : list loc) (i : nat) :
  Forall (λ l, l < length h) headings →
  i ≤ length headings →
  ∃ hi ri h' roots,
    _build_hierarchy h (take i headings) = Some (hi, ri)
    ∧ _build_hierarchy h headings = Some (h', roots)
    ∧ ri `prefix_of` roots
    ∧ ∀ a d cs,
        length h ≤ a → hi !! a = Some d → children d = Some cs →
        ∃ cs', h' !! a = Some (with_children d cs') ∧ cs `prefix_of` cs'.
Proof.
  intros Hvalid Hi. eexists _, _, _, _.
  split; [by apply build_hierarchy_prefix|].
  split; [by apply build_hierarchy_after|].
  split; [by apply prefix_fmap, attached_prefix|].
  intros a d cs Ha Hd Hcs.
  assert (a - length h < i) as Hj.
  { apply lookup_lt_Some in Hd. cbn [state_after hp] in Hd.
    rewrite length_app, length_fmap, length_seq in Hd. lia. }
  set (j := a - length h) in *.
  replace a with (length h + j) in * by lia.
  rewrite lookup_node_after in Hd by done. injection Hd as <-.
  cbn [node_after with_children children] in Hcs. injection Hcs as <-.
  eexists. split; [apply lookup_node_after; lia|].
  by apply prefix_fmap, attached_prefix.
Qed.

Lemma build_hierarchy_online_witness :
  Forall (λ l, l < length sample_heap) sample_headings
  ∧ 2 ≤ length sample_headings
  ∧ ∃ hi ri h' roots,
      _build_hierarchy sample_heap (take 2 sample_headings) = Some (hi, ri)
      ∧ _build_hierarchy sample_heap sample_headings = Some (h', roots)
      ∧ ri `prefix_of` roots.
Proof.
  assert (Forall (λ l, l < length sample_heap) sample_headings) as Hvalid.
  { repeat constructor. }
  assert (2 ≤ length sample_headings) as Hi by (simpl; lia).
  split; [exact Hvalid|]. split; [exact Hi|].
  destruct (build_hierarchy_online sample_heap sample_headings 2 Hvalid Hi)
    as (hi & ri & h' & roots & Hpre & Hrun & Hroots & _).
  by exists hi, ri, h', roots.
Defined.

(** X3. When no heading is deeper than a heading before it, the forest is
    flat: every heading is a root, in document order, and no node has a
    child. *)
Theorem build_hierarchy_flat (h : heap) (headings : list loc) :
  Forall (λ l, l < length h) headings →
  (∀ k k', k < k' < length headings →
     (level_at h headings k' ≤ level_at h headings k)%Z) →
  ∃ h' roots,
    _build_hierarchy h headings = Some (h', roots)
    ∧ roots = (λ k, length h + k) <$> seq 0 (length headings)
    ∧ ∀ a d, length h ≤ a → h' !! a = Some d → children d = Some [].
Proof.
  intros Hvalid Hflat. eexists _, _. split; [by apply build_hierarchy_after|].
  assert (∀ c, c < length headings →
            parent_index (level_at h headings) c = None) as Hroot.
  { intros c Hc. apply parent_index_None. intros k Hk. apply Hflat. lia. }
  split.
  - cbn [state_after hierarchy]. f_equal. unfold attached.
    apply filter_seq_all. intros c Hc. apply Hroot. lia.
  - intros a d Ha Hd.
    apply lookup_final_new in Hd as (j & -> & Hj & ->); [|done].
    cbn [node_after with_children children]. f_equal. unfold attached.
    rewrite filter_seq_none; [done|].
    intros c Hc. rewrite Hroot by lia. done.
Qed.

Lemma build_hierarchy_flat_witness :
  Forall (λ l, l < length flat_heap) [0; 1; 2]
  ∧ ∃ h' roots,
      _build_hierarchy flat_heap [0; 1; 2] = Some (h', roots)
      ∧ roots = [3; 4; 5].
Proof.
  assert (Forall (λ l, l < length flat_heap) [0; 1; 2]) as Hvalid.
  { repeat constructor. }
  split; [exact Hvalid|].
  destruct (build_hierarchy_flat flat_heap [0; 1; 2] Hvalid)
    as (h' & roots & Hrun & Hroots & _).
  { intros k k' Hk. simpl in Hk.
    destruct k as [|[|k]]; destruct k' as [|[|[|k']]]; try lia;
      vm_compute; discriminate. }
  exists h', roots. split; [exact Hrun | exact Hroots].
Defined.

(** X4. When every heading is deeper than the heading just before it, the
    forest is a single chain: the first heading is the only root and each
    node has the next heading as its only child. *)
Theorem build_hierarchy_chain (h : heap) (headings : list loc) :
  Forall (λ l, l < length h) headings →
  (∀ k, S k < length headings →
     (level_at h headings k < level_at h headings (S k))%Z) →
  ∃ h' roots,
    _build_hierarchy h headings = Some (h', roots)
    ∧ roots = (if decide (0 < length headings) then [length h] else [])
    ∧ ∀ k d, k < length headings → h' !! (length h + k) = Some d →
        children d
        = Some (if decide (S k < length headings)
                then [length h + S k] else []).
Proof.
  intros Hvalid Hchain. eexists _, _.
  split; [by apply build_hierarchy_after|].
  set (lv := level_at h headings). set (n := length headings).
  assert (∀ c, c < n →
            parent_index lv c = match c with 0 => None | S k => Some k end)
    as Hpar.
  { intros [|c] Hc; [done|]. unfold parent_index. simpl.
    specialize (Hchain c Hc). fold lv in Hchain.
    destruct (Z.ltb_spec (lv c) (lv (S c))); [done | lia]. }
  split.
  - cbn [state_after hierarchy]. unfold attached. fold lv n.
    rewrite (filter_seq_singleton _ n 0).
    + destruct (decide (0 < n)); [|done].
      simpl. by rewrite Nat.add_0_r.
    + intros c Hc. rewrite Hpar by done. destruct c as [|c]; [done|].
      split; [done | lia].
  - intros k d Hk Hd. rewrite lookup_node_after in Hd by done.
    injection Hd as <-. cbn [node_after with_children children]. f_equal.
    unfold attached. fold lv n. rewrite (filter_seq_singleton _ n (S k)).
    + by destruct (decide (S k < n)).
    + intros c Hc. rewrite Hpar by done. destruct c as [|c].
      * split; [done | lia].
      * split; [intros [= ->]; done | intros [= ->]; done].
Qed.

Lemma build_hierarchy_chain_witness :
  Forall (λ l, l < length chain_heap) [0; 1; 2]
  ∧ ∃ h' roots,
      _build_hierarchy chain_heap [0; 1; 2] = Some (h', roots)
      ∧ roots = [3].
Proof.
  assert (Forall (λ l, l < length chain_heap) [0; 1; 2]) as Hvalid.
  { repeat constructor. }
  split; [exact Hvalid|].
  destruct (build_hierarchy_chain chain_heap [0; 1; 2] Hvalid)
    as (h' & roots & Hrun & Hroots & _).
  { intros k Hk. simpl in Hk.
    destruct k as [|[|k]]; try lia; vm_compute; reflexivity. }
  exists h', roots. split; [exact Hrun | exact Hroots].
Defined.

(** X5. Going down the forest costs levels: a node reached from a node of
    the forest by [steps] steps into [children] has a level that is higher
    by [steps] at least.  A heading of level [L] under a root of level
    [L0] is thus nested at most [L - L0] deep. *)
Theorem build_hierarchy_depth (h : heap) (headings : list loc) :
  Forall (λ l, l < length h) headings →
  ∃ h' roots,
    _build_hierarchy h headings = Some (h', roots)
    ∧ ∀ steps a b da db,
        length h ≤ a → reaches h' steps a b →
        h' !! a = Some da → h' !! b = Some db →
        (level da + Z.of_nat steps ≤ level db)%Z.
Proof.
  intros Hvalid. eexists _, _. split; [by apply build_hierarchy_after|].
  intros steps a b da db Ha Hreach Hda Hdb.
  apply lookup_final_new in Hda as (j & -> & Hj & ->); [|done].
  destruct (reaches_final h headings _ _ _ Hreach j eq_refl)
    as (i & -> & Hle).
  apply lookup_final_new in Hdb as (i' & Heq & Hi & ->); [|lia].
  assert (i' = i) as -> by lia. done.
Qed.

Lemma build_hierarchy_depth_witness :
  Forall (λ l, l < length sample_heap) sample_headings
  ∧ ∃ h' roots,
      _build_hierarchy sample_heap sample_headings = Some (h', roots).
Proof.
  assert (Forall (λ l, l < length sample_heap) sample_headings) as Hvalid.
  { repeat constructor. }
  split; [exact Hvalid|].
  destruct (build_hierarchy_depth sample_heap sample_headings Hvalid)
    as (h' & roots & Hrun & _).
  by exists h', roots.
Defined.

(** ** Strings, lines and matches *)

Lemma lstrip_spec s :
  ∃ a, s = a ++ lstrip s
       ∧ Forall (λ c, isspace c = true) a
       ∧ ∀ c, head (lstrip s) = Some c → isspace c = false.
Proof.
  induction s as [|c s (a & Hs & Ha & Hhead)]; simpl.
  - exists []. by split; [|split].
  - destruct (isspace c) eqn:Hc.
    + exists (c :: a). split; [by rewrite Hs at 1|]. split; [by constructor|].
      done.
    + exists []. split; [done|]. split; [constructor|].
      simpl. by intros c' [= <-].
Qed.

Lemma strip_spec s : trim_of s (strip s).
Proof.
  unfold strip, rstrip.
  destruct (lstrip_spec s) as (a & Hs & Ha & Hhead).
  destruct (lstrip_spec (rev (lstrip s))) as (b & Hr & Hb & Hlast).
  set (t := lstrip (rev (lstrip s))) in *.
  assert (lstrip s = rev t ++ rev b) as Hmid.
  { by rewrite <- rev_app_distr, <- Hr, rev_involutive. }
  split; [split|].
  - intros c Hc. apply Hhead. rewrite Hmid.
    destruct (rev t) as [|c' l]; [done|]. done.
  - intros c Hc. apply Hlast.
    destruct t as [|c' t']; [done|]. simpl in Hc.
    rewrite last_snoc in Hc. done.
  - exists a, (rev b). split; [by rewrite <- Hmid|]. split; [done|].
    by apply Forall_rev.
Qed.

Lemma run_length_spec cls s :
  ∀ k, k ≤ run_length cls s →
    k ≤ length s ∧ ∀ i, i < k → ∃ c, s !! i = Some c ∧ cls c = true.
Proof.
  induction s as [|c s IH]; intros k Hk; simpl in *.
  - split; [lia | intros; lia].
  - destruct (cls c) eqn:Hc.
    + destruct k as [|k]; [split; [lia | intros; lia]|].
      destruct (IH k ltac:(lia)) as [Hlen Hall]. split; [lia|].
      intros [|i] Hi; [by exists c|]. apply Hall. lia.
    + assert (k = 0) as -> by lia. split; [lia | intros; lia].
Qed.

Lemma count_nl_cons c s :
  count_nl (c :: s) = (if is_nl c then 1 else 0) + count_nl s.
Proof.
  unfold count_nl. rewrite filter_cons.
  destruct (is_nl c); [by rewrite decide_True | by rewrite decide_False].
Qed.

Lemma split_nl_not_nil s : split_nl s ≠ [].
Proof.
  destruct s as [|c s]; simpl; [done|].
  destruct (is_nl c); [done|]. by destruct (split_nl s).
Qed.

(** [content.count] of the newline plus one is the number of lines that
    [content.split] yields. *)
Lemma length_split_nl s : length (split_nl s) = count_nl s + 1.
Proof.
  induction s as [|c s IH]; [done|].
  rewrite count_nl_cons. simpl. destruct (is_nl c); simpl.
  - by rewrite IH.
  - pose proof (split_nl_not_nil s).
    destruct (split_nl s) as [|l ls]; [done|]. simpl in *. lia.
Qed.

Lemma count_nl_take p s : count_nl (take p s) ≤ count_nl s.
Proof.
  revert p. induction s as [|c s IH]; intros [|p]; simpl;
    rewrite ?count_nl_cons; try (unfold count_nl; simpl; lia).
  specialize (IH p). lia.
Qed.

Lemma count_nl_take_mono p p' s :
  p ≤ p' → count_nl (take p s) ≤ count_nl (take p' s).
Proof.
  intros Hp. replace (take p s) with (take p (take p' s)).
  - apply count_nl_take.
  - rewrite take_take. f_equal. lia.
Qed.

Lemma count_nl_take_pos s :
  ∀ q d, s !! q = Some d → is_nl d = true → 0 < count_nl (take (S q) s).
Proof.
  induction s as [|c s IH]; intros q d Hd Hnl; [done|].
  cbn [take]. rewrite count_nl_cons.
  destruct q as [|q]; simpl in Hd.
  - injection Hd as ->. rewrite Hnl. lia.
  - specialize (IH q d Hd Hnl). lia.
Qed.

Lemma split_nl_first s : split_nl s !! 0 = Some (first_line s).
Proof.
  induction s as [|c s IH]; simpl; [done|].
  destruct (is_nl c); [done|].
  destruct (split_nl s) as [|l ls]; simpl in *; [done|].
  by injection IH as ->.
Qed.

(** A position at the beginning of a line: the number of newlines before
    it is the index of its line. *)
Lemma split_nl_at_bol s :
  ∀ p, p ≤ length s → at_bol s p = true →
    split_nl s !! count_nl (take p s) = Some (first_line (drop p s)).
Proof.
  induction s as [|c s IH]; intros p Hp Hbol.
  - by destruct p.
  - destruct p as [|q]; [apply split_nl_first|].
    assert (at_bol s q = true ∨ (q = 0 ∧ is_nl c = true)) as Hq.
    { destruct q as [|q]; [by right|]. left. exact Hbol. }
    assert (q ≠ 0 → at_bol s q = true) as Hq'.
    { intros Hne. destruct Hq as [|[? _]]; done. }
    cbn [take drop]. rewrite count_nl_cons. simpl in Hp. cbn [split_nl].
    destruct (is_nl c) eqn:Hc.
    + simpl. apply IH; [lia|].
      destruct q as [|q]; [done | by apply Hq'].
    + destruct Hq as [Hq|[_ ?]]; [|done].
      assert (q ≠ 0) as Hne by (intros ->; simpl in Hbol; congruence).
      specialize (IH q ltac:(lia) Hq).
      assert (0 < count_nl (take q s)) as Hpos.
      { destruct q as [|q]; [done|]. simpl in Hq.
        destruct (s !! q) as [d|] eqn:Hd; [|done].
        by apply (count_nl_take_pos s q d). }
      simpl. destruct (split_nl s) as [|l ls]; [done|].
      destruct (count_nl (take q s)) as [|k]; [lia|]. done.
Qed.

(** A repetition that matched [k >= 1] characters. *)
Lemma rep_matched {A} cls s p lo n (cont : nat → option A) r :
  1 ≤ lo →
  (if run_length cls (drop p s) <? lo then None
   else backtrack cont lo (n - lo)) = Some r →
  n = run_length cls (drop p s) →
  ∃ k, 1 ≤ k ∧ p + k ≤ length s ∧ cont k = Some r
       ∧ ∀ i, i < k → ∃ c, s !! (p + i) = Some c ∧ cls c = true.
Proof.
  intros Hlo Hm ->.
  destruct (Nat.ltb_spec (run_length cls (drop p s)) lo) as [|Hge]; [done|].
  apply backtrack_Some in Hm as (k & Hk & Hr).
  destruct (run_length_spec cls (drop p s) k ltac:(lia)) as [Hlen Hall].
  rewrite length_drop in Hlen.
  exists k. split; [lia|]. split; [lia|]. split; [done|].
  intros i Hi. destruct (Hall i Hi) as (c & Hc & Hcls).
  rewrite lookup_drop in Hc. by exists c.
Qed.

Lemma bind_pair_Some {A B C} (x : option (A * B)) (f : A → B → C) r :
  x ≫= (λ '(a, b), Some (f a b)) = Some r →
  ∃ a b, x = Some (a, b) ∧ Some r = Some (f a b).
Proof.
  destruct x as [[a b]|]; [|done]. simpl. intros [= <-]. by exists a, b.
Qed.

(** The shape of a match of the heading pattern at position [p]: [k >= 1]
    markers at the beginning of a line, whitespace, and a text of one
    character at least that ends the match. *)
Lemma heading_match s p e gs :
  match_here false heading_pattern s p = Some (e, gs) →
  ∃ k a, gs = [(p, p + k); (a, e)]
         ∧ 1 ≤ k ∧ p + k < a ∧ a < e ∧ e ≤ length s
         ∧ at_bol s p = true
         ∧ ∀ i, i < k → s !! (p + i) = Some "="%char.
Proof.
  unfold heading_pattern. cbn [match_here].
  destruct (at_bol s p); [|done]. intros Hm.
  eapply rep_matched in Hm as (k & Hk & Hpk & Hm & Heq); [|lia|done].
  apply bind_pair_Some in Hm as (e1 & gs1 & Hm1 & [= -> ->]).
  eapply rep_matched in Hm1 as (k2 & Hk2 & Hpk2 & Hm1 & _); [|lia|done].
  apply bind_pair_Some in Hm1 as (e2 & gs2 & Hm2 & [= -> ->]).
  eapply rep_matched in Hm2 as (k3 & Hk3 & Hpk3 & Hm2 & _); [|lia|done].
  apply bind_pair_Some in Hm2 as (e3 & gs3 & Hm3 & [= -> ->]).
  destruct (at_eol s (p + k + k2 + k3)); [|done].
  injection Hm3 as <- <-.
  exists k, (p + k + k2). split; [done|].
  split; [done|]. split; [lia|]. split; [lia|]. split; [lia|].
  split; [done|].
  intros i Hi. destruct (Heq i Hi) as (c & Hc & Hcls).
  unfold is_char in Hcls. apply Ascii.eqb_eq in Hcls. by subst c.
Qed.

Lemma length_slice s a b : a ≤ b ≤ length s → length (slice s a b) = b - a.
Proof.
  intros Hab. unfold slice. rewrite length_take, length_drop. lia.
Qed.

(** The matches of a pattern come in the order of their starts. *)
Lemma finditer_increasing ic re s pos :
  ∀ k k' m m', k < k' →
    finditer ic re s pos !! k = Some m →
    finditer ic re s pos !! k' = Some m' →
    mstart m < mstart m'.
Proof.
  intros k k' m m' Hk Hm.
  replace k' with (k + S (k' - S k)) by lia.
  generalize (k' - S k) as d. clear k' Hk.
  induction d as [|d IH] in m' |- *; intros Hm'.
  - rewrite Nat.add_1_r in Hm'.
    by apply (finditer_ordered ic re s pos k).
  - replace (k + S (S d)) with (S (k + S d)) in Hm' by lia.
    destruct (lookup_lt_is_Some_2 (finditer ic re s pos) (k + S d))
      as [m1 Hm1]; [apply lookup_lt_Some in Hm'; lia|].
    pose proof (finditer_ordered ic re s pos _ _ _ Hm1 Hm') as [Hlt _].
    specialize (IH m1 Hm1). lia.
Qed.

(** ** [analyze_document_structure] *)

(** The heading dictionaries of a call that reads its file. *)
Lemma analyze_records w file_path include_content content :
  exists_ w (Path w file_path) = Ok true →
  read_text w (Path w file_path) = Ok content →
  let ms := finditer false heading_pattern content 0 in
  ∃ r,
    analyze_document_structure w file_path include_content = Ok (Success r)
    ∧ total_headings r = length ms
    ∧ lines (sr_statistics r) = count_nl content + 1
    ∧ (∀ k m, ms !! k = Some m →
         store r !! k = Some (heading_info content include_content m))
    ∧ (∀ k m, ms !! k = Some m →
         ∃ cs, store r !! (length ms + k)
               = Some (with_children (heading_info content include_content m)
                         cs))
    ∧ ∀ fuel, length ms ≤ fuel →
        flatten fuel (store r) (structure r)
        = Some ((λ k, length ms + k) <$> seq 0 (length ms)).
Proof.
  intros Hex Hread ms. eexists. split; [by apply analyze_read|].
  cbn [total_headings sr_statistics lines store structure]. fold ms.
  set (headings := heading_info content include_content <$> ms).
  assert (length headings = length ms) as Hlen
    by (subst headings; by rewrite length_fmap).
  assert (∀ k m, ms !! k = Some m →
            headings !! k = Some (heading_info content include_content m))
    as Hrec.
  { intros k m Hk. subst headings. by rewrite list_lookup_fmap, Hk. }
  split; [done|]. split; [done|]. rewrite <- Hlen. split; [|split].
  - intros k m Hk. rewrite lookup_old_after; [by apply Hrec|].
    rewrite Hlen. by apply lookup_lt_Some in Hk.
  - intros k m Hk. eexists.
    rewrite lookup_node_after by (rewrite Hlen; by apply lookup_lt_Some in Hk).
    unfold node_after. by rewrite (heading_at_seq _ _ _ (Hrec k m Hk)).
  - intros fuel Hfuel.
    pose proof (flatten_final headings (seq 0 (length headings)) fuel)
      as Hwalk.
    rewrite length_seq in Hwalk. by apply Hwalk.
Qed.

(** The markers of a heading match end at a whitespace character. *)
Lemma heading_match_markers s p e gs :
  match_here false heading_pattern s p = Some (e, gs) →
  ∃ k a c, gs = [(p, p + k); (a, e)]
           ∧ s !! (p + k) = Some c ∧ isspace c = true.
Proof.
  unfold heading_pattern. cbn [match_here].
  destruct (at_bol s p); [|done]. intros Hm.
  eapply rep_matched in Hm as (k & Hk & Hpk & Hm & Heq); [|lia|done].
  apply bind_pair_Some in Hm as (e1 & gs1 & Hm1 & [= -> ->]).
  eapply rep_matched in Hm1 as (k2 & Hk2 & Hpk2 & Hm1 & Hspace); [|lia|done].
  apply bind_pair_Some in Hm1 as (e2 & gs2 & Hm2 & [= -> ->]).
  eapply rep_matched in Hm2 as (k3 & Hk3 & Hpk3 & Hm2 & _); [|lia|done].
  apply bind_pair_Some in Hm2 as (e3 & gs3 & Hm3 & [= -> ->]).
  destruct (at_eol s (p + k + k2 + k3)); [|done].
  injection Hm3 as <- <-.
  destruct (Hspace 0 ltac:(lia)) as (c & Hc & Hcls).
  rewrite Nat.add_0_r in Hc. by exists k, (p + k + k2), c.
Qed.

(** X6. Every heading that [analyze_document_structure] records has a
    level of 1 at least, which is the number of [=] characters that stand
    at its position: the position is the beginning of a line, the
    characters from it on are [=] as many as the level says, and the
    character after them is a whitespace character.  Its title is the
    text of the heading without leading and trailing whitespace; and it
    has the key [content] only when [include_content] is set. *)
Theorem analyze_heading_records (w : world) (file_path content : text)
    (include_content : bool) :
  exists_ w (Path w file_path) = Ok true →
  read_text w (Path w file_path) = Ok content →
  let ms := finditer false heading_pattern content 0 in
  ∃ r,
    analyze_document_structure w file_path include_content = Ok (Success r)
    ∧ ∀ k m, ms !! k = Some m →
        ∃ record L,
          store r !! k = Some record
          ∧ Hier.level record = Z.of_nat L ∧ 1 ≤ L
          ∧ at_bol content (Hier.position record) = true
          ∧ (∀ i, i < L →
               content !! (Hier.position record + i) = Some "="%char)
          ∧ (∃ c, content !! (Hier.position record + L) = Some c
                  ∧ isspace c = true ∧ c ≠ "="%char)
          ∧ trim_of (group content m 2) (Hier.title record)
          ∧ (include_content = false → Hier.content record = None)
          ∧ (include_content = true → is_Some (Hier.content record)).
Proof.
  intros Hex Hread ms.
  destruct (analyze_records w file_path include_content content Hex Hread)
    as (r & Hrun & _ & _ & Hrec & _).
  exists r. split; [done|]. intros k m Hk.
  exists (heading_info content include_content m), (level_of content m).
  split; [by apply Hrec|]. split; [done|].
  assert (m ∈ ms) as Hin by (by apply list_elem_of_lookup_2 in Hk).
  apply finditer_match in Hin as (_ & _ & Hm).
  pose proof (heading_match_markers _ _ _ _ Hm)
    as (n' & a' & c & Hgs' & Hc & Hspace).
  apply heading_match in Hm as (n & a & Hgs & Hn & Ha & Hae & He & Hbol & Heq).
  assert (n' = n) as ->.
  { rewrite Hgs in Hgs'. injection Hgs' as Hn' _. lia. }
  assert (level_of content m = n) as ->.
  { unfold level_of, group. rewrite Hgs. simpl.
    rewrite length_slice by lia. lia. }
  cbn [heading_info Hier.position].
  split; [done|]. split; [done|]. split; [done|].
  split; [exists c; split; [done|]; split; [done|]; by intros ->|].
  split; [apply strip_spec|].
  split; [by intros ->|]. intros ->. by eexists.
Qed.

Lemma analyze_heading_records_witness :
  exists_ sample_world (Path sample_world (str "/doc.adoc")) = Ok true
  ∧ read_text sample_world (Path sample_world (str "/doc.adoc"))
    = Ok sample_doc
  ∧ ∃ r, analyze_document_structure sample_world (str "/doc.adoc") false
         = Ok (Success r).
Proof.
  assert (exists_ sample_world (Path sample_world (str "/doc.adoc")) = Ok true)
    as Hex by (vm_compute; reflexivity).
  assert (read_text sample_world (Path sample_world (str "/doc.adoc"))
          = Ok sample_doc) as Hread by (vm_compute; reflexivity).
  split; [exact Hex|]. split; [exact Hread|].
  destruct (analyze_heading_records sample_world (str "/doc.adoc") sample_doc
              false Hex Hread) as (r & Hr & _).
  by exists r.
Defined.

(** X7. The headings are recorded in document order: positions increase
    strictly and line numbers do not decrease.  A position lies inside the
    document, and a line number between 1 and the statistic [lines]; it is
    the number, as [content.split] at newlines counts lines, of the line
    on which the heading begins, and this line begins with [=]. *)
Theorem analyze_heading_positions (w : world) (file_path content : text)
    (include_content : bool) :
  exists_ w (Path w file_path) = Ok true →
  read_text w (Path w file_path) = Ok content →
  let ms := finditer false heading_pattern content 0 in
  ∃ r,
    analyze_document_structure w file_path include_content = Ok (Success r)
    ∧ ∀ k m, ms !! k = Some m →
        ∃ record ln,
          store r !! k = Some record
          ∧ Hier.position record = mstart m
          ∧ Hier.position record < length content
          ∧ 1 ≤ Hier.line_number record ≤ lines (sr_statistics r)
          ∧ split_nl content !! (Hier.line_number record - 1) = Some ln
          ∧ head ln = Some "="%char
          ∧ ∀ k' record', k < k' → store r !! k' = Some record' →
              k' < length ms →
              Hier.position record < Hier.position record'
              ∧ Hier.line_number record ≤ Hier.line_number record'.
Proof.
  intros Hex Hread ms.
  destruct (analyze_records w file_path include_content content Hex Hread)
    as (r & Hrun & _ & Hlines & Hrec & _).
  exists r. split; [done|]. intros k m Hk.
  assert (m ∈ ms) as Hin by (by apply list_elem_of_lookup_2 in Hk).
  apply finditer_match in Hin as (_ & _ & Hm).
  apply heading_match in Hm as (n & a & Hgs & Hn & Ha & Hae & He & Hbol & Heq).
  exists (heading_info content include_content m),
         (first_line (drop (mstart m) content)).
  split; [by apply Hrec|]. split; [done|].
  cbn [heading_info Hier.position Hier.line_number].
  split; [lia|]. rewrite Hlines. split; [|split; [|split]].
  - pose proof (count_nl_take (mstart m) content). lia.
  - rewrite Nat.add_sub. apply split_nl_at_bol; [lia | done].
  - specialize (Heq 0 Hn). rewrite Nat.add_0_r in Heq.
    by rewrite (drop_S _ _ _ Heq).
  - intros k' record' Hkk' Hrec' Hk'.
    destruct (lookup_lt_is_Some_2 ms k' Hk') as [m' Hm'].
    rewrite (Hrec k' m' Hm') in Hrec'. injection Hrec' as <-.
    cbn [heading_info Hier.position Hier.line_number].
    pose proof (finditer_increasing _ _ _ _ _ _ _ _ Hkk' Hk Hm') as Hlt.
    split; [done|].
    pose proof (count_nl_take_mono (mstart m) (mstart m') content). lia.
Qed.

Lemma analyze_heading_positions_witness :
  exists_ sample_world (Path sample_world (str "/doc.adoc")) = Ok true
  ∧ read_text sample_world (Path sample_world (str "/doc.adoc"))
    = Ok sample_doc
  ∧ ∃ r, analyze_document_structure sample_world (str "/doc.adoc") true
         = Ok (Success r).
Proof.
  assert (exists_ sample_world (Path sample_world (str "/doc.adoc")) = Ok true)
    as Hex by (vm_compute; reflexivity).
  assert (read_text sample_world (Path sample_world (str "/doc.adoc"))
          = Ok sample_doc) as Hread by (vm_compute; reflexivity).
  split; [exact Hex|]. split; [exact Hread|].
  destruct (analyze_heading_positions sample_world (str "/doc.adoc")
              sample_doc true Hex Hread) as (r & Hr & _).
  by exists r.
Defined.

(** X8. The structure that [analyze_document_structure] returns holds the
    headings of the document and nothing else: its pre-order walk visits
    [total_headings] nodes, and the [k]-th node visited is the copy of the
    [k]-th heading of the document. *)
Theorem analyze_structure_walk (w : world) (file_path content : text)
    (include_content : bool) :
  exists_ w (Path w file_path) = Ok true →
  read_text w (Path w file_path) = Ok content →
  let ms := finditer false heading_pattern content 0 in
  ∃ r walk,
    analyze_document_structure w file_path include_content = Ok (Success r)
    ∧ total_headings r = length ms
    ∧ (∀ fuel, total_headings r ≤ fuel →
         flatten fuel (store r) (structure r) = Some walk)
    ∧ length walk = total_headings r
    ∧ ∀ k m, ms !! k = Some m →
        ∃ a cs, walk !! k = Some a
                ∧ store r !! a
                  = Some (with_children
                            (heading_info content include_content m) cs).
Proof.
  intros Hex Hread ms.
  destruct (analyze_records w file_path include_content content Hex Hread)
    as (r & Hrun & Htotal & _ & _ & Hnode & Hwalk).
  exists r, ((λ k, length ms + k) <$> seq 0 (length ms)).
  split; [done|]. split; [done|]. rewrite Htotal.
  split; [done|]. split; [by rewrite length_fmap, length_seq|].
  intros k m Hk. destruct (Hnode k m Hk) as [cs Hcs].
  exists (length ms + k), cs. split; [|done].
  rewrite list_lookup_fmap, lookup_seq_lt; [done|].
  by apply lookup_lt_Some in Hk.
Qed.

Lemma analyze_structure_walk_witness :
  exists_ sample_world (Path sample_world (str "/doc.adoc")) = Ok true
  ∧ read_text sample_world (Path sample_world (str "/doc.adoc"))
    = Ok sample_doc
  ∧ ∃ r walk,
      analyze_document_structure sample_world (str "/doc.adoc") true
      = Ok (Success r)
      ∧ flatten 4 (store r) (structure r) = Some walk.
Proof.
  assert (exists_ sample_world (Path sample_world (str "/doc.adoc")) = Ok true)
    as Hex by (vm_compute; reflexivity).
  assert (read_text sample_world (Path sample_world (str "/doc.adoc"))
          = Ok sample_doc) as Hread by (vm_compute; reflexivity).
  split; [exact Hex|]. split; [exact Hread|].
  destruct (analyze_structure_walk sample_world (str "/doc.adoc")
              sample_doc true Hex Hread)
    as (r & walk & Hr & Htotal & Hwalk & _).
  exists r, walk. split; [exact Hr|]. apply Hwalk. rewrite Htotal.
  vm_compute. lia.
Defined.

(** *** The document title *)

Lemma backtrack_complete {A} (k : nat → option A) lo n j :
  lo ≤ j ≤ lo + n → is_Some (k j) → is_Some (backtrack k lo n).
Proof.
  induction n as [|n IH]; intros Hj Hk; simpl.
  - replace (lo + 0) with j by lia. destruct (k j); [done|].
    by destruct Hk.
  - destruct (k (lo + S n)) eqn:Hlast; [done|].
    apply IH; [|done]. destruct (decide (j = lo + S n)) as [->|]; [|lia].
    rewrite Hlast in Hk. by destruct Hk.
Qed.

(** The first position from [pos] on at which the pattern matches is the
    one that [search] reports. *)
Lemma search_complete ic re s pos p e gs :
  pos ≤ p ≤ length s →
  match_here ic re s p = Some (e, gs) →
  (∀ q, pos ≤ q < p → match_here ic re s q = None) →
  search ic re s pos = Some (mk_rmatch p e gs).
Proof.
  intros Hp Hm Hbefore.
  destruct (search ic re s pos) as [m|] eqn:Hs.
  - apply search_Some in Hs as (Hpos & _ & Hhere & Hno).
    assert (mstart m = p) as Hstart.
    { destruct (decide (mstart m < p)) as [Hlt|Hge].
      - rewrite Hbefore in Hhere by lia. done.
      - destruct (decide (p < mstart m)) as [Hlt|]; [|lia].
        rewrite Hno in Hm by lia. done. }
    destruct m as [p' e' gs']. simpl in *. subst p'. congruence.
  - rewrite (search_None _ _ _ _ Hs p) in Hm by lia. done.
Qed.

Lemma heading_match_tail s p e gs :
  match_here false heading_pattern s p = Some (e, gs) →
  ∃ k gs', gs = (p, p + k) :: gs' ∧ 1 ≤ k
           ∧ at_bol s p = true ∧ s !! p = Some "="%char
           ∧ match_here false heading_tail s (p + k) = Some (e, gs').
Proof.
  unfold heading_pattern. cbn [match_here].
  destruct (at_bol s p); [|done]. intros Hm.
  eapply rep_matched in Hm as (k & Hk & Hpk & Hm & Heq); [|lia|done].
  apply bind_pair_Some in Hm as (e1 & gs1 & Hm1 & [= -> ->]).
  exists k, gs1. split; [done|]. split; [done|]. split; [done|].
  split; [|exact Hm1].
  destruct (Heq 0 Hk) as (c & Hc & Hcls). rewrite Nat.add_0_r in Hc.
  unfold is_char in Hcls. apply Ascii.eqb_eq in Hcls. by subst c.
Qed.

Lemma title_match_here s p :
  match_here false title_pattern s p
  = if at_bol s p then
      match s !! p with
      | Some c => if Ascii.eqb "=" c
                  then match_here false heading_tail s (S p) else None
      | None => None
      end
    else None.
Proof. reflexivity. Qed.

(** Where the title pattern matches, the heading pattern matches. *)
Lemma title_match_is_heading s p r :
  match_here false title_pattern s p = Some r →
  is_Some (match_here false heading_pattern s p).
Proof.
  rewrite title_match_here.
  destruct (at_bol s p) eqn:Hbol; [|done].
  destruct (s !! p) as [c|] eqn:Hc; [|done].
  destruct (Ascii.eqb_spec "=" c) as [<-|]; [|done]. intros Htail.
  unfold heading_pattern. cbn [match_here]. rewrite Hbol.
  assert (1 ≤ run_length (is_char "=") (drop p s)) as Hrun.
  { rewrite (drop_S _ _ _ Hc). simpl. lia. }
  destruct (Nat.ltb_spec (run_length (is_char "=") (drop p s)) 1); [lia|].
  apply (backtrack_complete _ 1 _ 1); [lia|]. cbv beta.
  replace (p + 1) with (S p) by lia.
  unfold heading_tail in Htail. cbn [match_here] in Htail.
  rewrite Htail. by destruct r.
Qed.

(** X9. The title that [analyze_document_structure] reports agrees with
    the headings it reports.  When the first heading that it records has
    level 1, the title is the title of this heading.  When it records no
    heading, the title pattern of [_extract_document_title] matches
    nowhere in the text: the title is then not taken from a heading. *)
Theorem analyze_title_agrees (w : world) (file_path content : text)
    (include_content : bool) :
  exists_ w (Path w file_path) = Ok true →
  read_text w (Path w file_path) = Ok content →
  let ms := finditer false heading_pattern content 0 in
  ∃ r,
    analyze_document_structure w file_path include_content = Ok (Success r)
    ∧ (∀ record, store r !! 0 = Some record → 0 < total_headings r →
         Hier.level record = 1%Z → sr_title r = Hier.title record)
    ∧ (total_headings r = 0 →
         search false title_pattern content 0 = None).
Proof.
  intros Hex Hread ms.
  destruct (analyze_records w file_path include_content content Hex Hread)
    as (r & Hrun & Htotal & _ & Hrec & _).
  exists r. split; [done|].
  assert (sr_title r = _extract_document_title content) as ->.
  { pose proof (analyze_read w file_path include_content content Hex Hread)
      as Hrun'. simpl in Hrun'. rewrite Hrun in Hrun'.
    by injection Hrun' as ->. }
  fold ms in Htotal, Hrec. rewrite Htotal.
  pose proof (finditer_unfold false heading_pattern content 0) as Hunfold.
  fold ms in Hunfold.
  destruct (search false heading_pattern content 0) as [m0|] eqn:Hsearch.
  - split; [|by rewrite Hunfold].
    intros record Hrecord _ Hlevel.
    rewrite (Hrec 0 m0) in Hrecord by (by rewrite Hunfold).
    injection Hrecord as <-. cbn [heading_info Hier.level Hier.title] in *.
    apply search_Some in Hsearch as (Hpos & _ & Hm & Hno).
    apply heading_match_tail in Hm as (k & gs' & Hgs & Hk & Hbol & Heq & Htail).
    pose proof Htail as Htail'.
    unfold heading_tail in Htail'. cbn [match_here] in Htail'.
    eapply rep_matched in Htail' as (k2 & Hk2 & Hpk2 & _); [|lia|done].
    assert (length (group content m0 1) = k) as Hlen.
    { unfold group. rewrite Hgs. simpl. rewrite length_slice; lia. }
    assert (k = 1) as -> by lia.
    unfold _extract_document_title.
    rewrite (search_complete false title_pattern content 0 (mstart m0)
               (mend m0) gs').
    + unfold group. by rewrite Hgs.
    + lia.
    + rewrite title_match_here, Hbol, Heq, Ascii.eqb_refl.
      by replace (S (mstart m0)) with (mstart m0 + 1) by lia.
    + intros q Hq.
      destruct (match_here false title_pattern content q) as [t|] eqn:Ht;
        [|done].
      apply title_match_is_heading in Ht as [t' Ht'].
      rewrite Hno in Ht' by lia. done.
  - split; [intros record _ Hpos; rewrite Hunfold in Hpos; simpl in Hpos; lia|].
    intros _.
    destruct (search false title_pattern content 0) as [t|] eqn:Ht; [|done].
    apply search_Some in Ht as (Hpos & _ & Hm & _).
    apply title_match_is_heading in Hm as [t' Ht'].
    rewrite (search_None _ _ _ _ Hsearch (mstart t)) in Ht' by lia. done.
Qed.

Lemma analyze_title_agrees_witness :
  exists_ sample_world (Path sample_world (str "/doc.adoc")) = Ok true
  ∧ read_text sample_world (Path sample_world (str "/doc.adoc"))
    = Ok sample_doc
  ∧ ∃ r, analyze_document_structure sample_world (str "/doc.adoc") false
         = Ok (Success r)
         ∧ sr_title r = str "Title".
Proof.
  assert (exists_ sample_world (Path sample_world (str "/doc.adoc")) = Ok true)
    as Hex by (vm_compute; reflexivity).
  assert (read_text sample_world (Path sample_world (str "/doc.adoc"))
          = Ok sample_doc) as Hread by (vm_compute; reflexivity).
  split; [exact Hex|]. split; [exact Hread|].
  destruct (analyze_title_agrees sample_world (str "/doc.adoc") sample_doc
              false Hex Hread) as (r & Hr & _).
  exists r. split; [exact Hr|].
  assert (analyze_document_structure sample_world (str "/doc.adoc") false
          = Ok (Success r) → sr_title r = str "Title") as Htitle.
  { vm_compute. intros [= <-]. reflexivity. }
  exact (Htitle Hr).
Defined.

(** ** [find_includes] *)

Lemma include_ok_nested w recursive d parent p rp ex ln dp pf l :
  include_ok w recursive d parent
    (mk_include_info p rp ex ln dp pf (Some l))
  ↔ dp = d ∧ pf = parent ∧ d ≤ 10 ∧ resolve_include w parent p = Ok rp
    ∧ exists_ w rp = Ok ex ∧ recursive = true ∧ ex = true ∧ d < 10
    ∧ includes_ok w recursive (S d) rp l.
Proof.
  cbn [include_ok].
  assert ((fix all (l : list include_info) : Prop :=
             match l with
             | [] => True
             | y :: r => include_ok w recursive (S d) rp y ∧ all r
             end) l ↔ includes_ok w recursive (S d) rp l) as ->.
  { unfold includes_ok. induction l as [|y l IH]; [by split|].
    rewrite Forall_cons, IH. done. }
  tauto.
Qed.

(** The loop ends without exception exactly when every target answers;
    it then has kept the records found so far and appended one record per
    directive. *)
Lemma include_loop_ok
    (nested_call : text → nat → gset text
                   → option (list include_info * gset text))
    w recursive content current_path d ms :
  d ≤ 10 →
  (∀ q P l P', nested_call q (d + 1) P = Some (l, P') → d < 10 →
     includes_ok w recursive (S d) q l) →
  ∀ acc P r P',
    include_loop nested_call w recursive content current_path d ms acc P
    = Some (r, P') →
    match r with
    | Ok l =>
        Forall (target_answers w current_path content) ms
        ∧ ∃ l', l = acc ++ l'
                ∧ includes_ok w recursive d current_path l'
                ∧ Forall2 (λ m x,
                    path x = group content m 1
                    ∧ inc_line_number x
                      = count_nl (take (mstart m) content) + 1)
                    ms l'
    | Raise _ => ¬ Forall (target_answers w current_path content) ms
    end.
Proof.
  intros Hd Hcall. induction ms as [|m ms IH]; intros acc P r P'.
  - intros [= <- _]. split; [constructor|]. exists []. rewrite app_nil_r.
    split; [done|]. split; constructor.
  - rewrite include_loop_cons.
    destruct (resolve_include w current_path (group content m 1))
      as [rp|e] eqn:Hrp.
    2:{ intros [= <- _]. intros [(rp & found & Hsome & _) _]%Forall_cons.
        congruence. }
    destruct (exists_ w rp) as [found|e] eqn:Hfound.
    2:{ intros [= <- _]. intros [(rp' & found & Hsome & Hf) _]%Forall_cons.
        congruence. }
    assert (target_answers w current_path content m) as Hm
      by (by exists rp, found).
    cbv zeta.
    assert (∀ x r0 P0,
              include_ok w recursive d current_path x →
              path x = group content m 1 →
              inc_line_number x = count_nl (take (mstart m) content) + 1 →
              include_loop nested_call w recursive content current_path d
                ms (acc ++ [x]) P0 = Some (r0, P') →
              match r0 with
              | Ok l =>
                  Forall (target_answers w current_path content) (m :: ms)
                  ∧ ∃ l', l = acc ++ l'
                          ∧ includes_ok w recursive d current_path l'
                          ∧ Forall2 (λ m x,
                              path x = group content m 1
                              ∧ inc_line_number x
                                = count_nl (take (mstart m) content) + 1)
                              (m :: ms) l'
              | Raise _ =>
                  ¬ Forall (target_answers w current_path content) (m :: ms)
              end) as Hstep.
    { intros x r0 P0 Hx Hpath Hline Hrest. apply IH in Hrest.
      destruct r0 as [l|e].
      - destruct Hrest as (Hall & l' & -> & Hok & Hms).
        split; [by constructor|]. exists (x :: l').
        split; [by rewrite <- app_assoc|].
        split; [by constructor | by constructor].
      - intros [_ Hall]%Forall_cons. by apply Hrest. }
    destruct (recursive && found && (d <? 10)) eqn:Hrec.
    + destruct (nested_call rp (d + 1) P) as [[nested P1]|] eqn:Hnested;
        [|done].
      apply andb_prop in Hrec as [[Hr He]%andb_prop Hlt%Nat.ltb_lt].
      apply Hstep; [|done..]. apply include_ok_nested.
      subst found. split_and!; try done. by apply (Hcall rp P nested P1).
    + apply Hstep; [|done..]. cbn [include_ok]. by split_and!.
Qed.

Lemma find_includes_in_file_ok fuel :
  ∀ w recursive current_path d P l P',
    d ≤ 10 →
    find_includes_in_file fuel w recursive current_path d P = Some (l, P') →
    includes_ok w recursive d current_path l.
Proof.
  induction fuel as [|fuel IH]; intros w recursive current_path d P l P' Hd;
    [done|].
  cbn [find_includes_in_file].
  destruct (decide (current_path ∈ P)); [by intros [= <- _]; constructor|].
  destruct (read_text w current_path) as [content|e];
    [|by intros [= <- _]; constructor].
  destruct (include_loop _ _ _ _ _ _ _ _ _) as [[r P1]|] eqn:Hloop; [|done].
  intros [= <- _]. apply include_loop_ok in Hloop; [|done|].
  - destruct r as [l0|e]; [|constructor].
    by destruct Hloop as (_ & l' & -> & Hok & _).
  - intros q P0 l0 P0' Hq Hlt. replace (S d) with (d + 1) by lia.
    eapply IH; [|exact Hq]. lia.
Qed.

(** The result does not depend on the fuel once it is enough. *)
Lemma include_loop_mono
    (call1 call2 : text → nat → gset text
                   → option (list include_info * gset text))
    w recursive content current_path d ms :
  (∀ q d' P r, call1 q d' P = Some r → call2 q d' P = Some r) →
  ∀ acc P r,
    include_loop call1 w recursive content current_path d ms acc P = Some r →
    include_loop call2 w recursive content current_path d ms acc P = Some r.
Proof.
  intros Hcall. induction ms as [|m ms IH]; intros acc P r; [done|].
  rewrite !include_loop_cons.
  destruct (resolve_include _ _ _) as [rp|e]; [|done].
  destruct (exists_ w rp) as [found|e]; [|done]. cbv zeta.
  destruct (recursive && _ && _); [|apply IH].
  destruct (call1 _ _ _) as [[nested P1]|] eqn:H1; [|done].
  rewrite (Hcall _ _ _ _ H1). apply IH.
Qed.

Lemma find_includes_in_file_S fuel w recursive current_path d P :
  find_includes_in_file (S fuel) w recursive current_path d P
  = if decide (current_path ∈ P) then Some ([], P)
    else
      match read_text w current_path with
      | Raise _ => Some ([], P ∪ {[current_path]})
      | Ok content =>
          '(file_includes, processed_files) ←
            include_loop (find_includes_in_file fuel w recursive)
              w recursive content current_path d
              (finditer false include_pattern content 0) []
              (P ∪ {[current_path]});
          Some (match file_includes with
                | Ok file_includes => file_includes
                | Raise _ => []
                end, processed_files)
      end.
Proof. reflexivity. Qed.

Lemma find_includes_in_file_mono fuel :
  ∀ w recursive current_path d P r,
    find_includes_in_file fuel w recursive current_path d P = Some r →
    find_includes_in_file (S fuel) w recursive current_path d P = Some r.
Proof.
  induction fuel as [|fuel IH]; intros w recursive current_path d P r; [done|].
  intros Hrun. rewrite find_includes_in_file_S in Hrun |- *.
  destruct (decide (current_path ∈ P)); [done|].
  destruct (read_text w current_path) as [content|e]; [|done].
  destruct (include_loop (find_includes_in_file fuel w recursive)
              _ _ _ _ _ _ _ _) as [r0|] eqn:Hloop; [|done].
  apply (include_loop_mono _ (find_includes_in_file (S fuel) w recursive))
    in Hloop; [|intros q d' P0 r1; apply IH].
  by rewrite Hloop.
Qed.

Lemma find_includes_in_file_fuel fuel fuel' w recursive current_path d P r :
  fuel ≤ fuel' →
  find_includes_in_file fuel w recursive current_path d P = Some r →
  find_includes_in_file fuel' w recursive current_path d P = Some r.
Proof.
  induction 1 as [|fuel' _ IH]; [done|].
  intros Hrun. by apply find_includes_in_file_mono, IH.
Qed.

(** Only files that exist are entered. *)
Lemma include_loop_exist
    (nested_call : text → nat → gset text
                   → option (list include_info * gset text))
    w recursive content current_path d ms :
  (∀ q d' P l P', nested_call q d' P = Some (l, P') →
     exists_ w q = Ok true → (∀ p, p ∈ P → exists_ w p = Ok true) →
     ∀ p, p ∈ P' → exists_ w p = Ok true) →
  ∀ acc P r P',
    include_loop nested_call w recursive content current_path d ms acc P
    = Some (r, P') →
    (∀ p, p ∈ P → exists_ w p = Ok true) →
    ∀ p, p ∈ P' → exists_ w p = Ok true.
Proof.
  intros Hcall. induction ms as [|m ms IH]; intros acc P r P'.
  - by intros [= _ <-].
  - rewrite include_loop_cons.
    destruct (resolve_include _ _ _) as [rp|e]; [|by intros [= _ <-]].
    destruct (exists_ w rp) as [found|e] eqn:Hfound; [|by intros [= _ <-]].
    cbv zeta.
    destruct (recursive && _ && _) eqn:Hrec; [|apply IH].
    destruct (nested_call _ _ _) as [[nested P1]|] eqn:Hnested; [|done].
    intros Hrest HP. apply (IH _ _ _ _ Hrest).
    apply andb_prop in Hrec as [[_ He]%andb_prop _]. subst found.
    by apply (Hcall _ _ _ _ _ Hnested).
Qed.

Lemma find_includes_in_file_exist fuel :
  ∀ w recursive current_path d P l P',
    find_includes_in_file fuel w recursive current_path d P = Some (l, P') →
    exists_ w current_path = Ok true →
    (∀ p, p ∈ P → exists_ w p = Ok true) →
    ∀ p, p ∈ P' → exists_ w p = Ok true.
Proof.
  induction fuel as [|fuel IH]; intros w recursive current_path d P l P';
    [done|].
  cbn [find_includes_in_file].
  destruct (decide (current_path ∈ P)); [by intros [= _ <-]|].
  assert (exists_ w current_path = Ok true →
          (∀ p, p ∈ P → exists_ w p = Ok true) →
          ∀ p, p ∈ P ∪ {[current_path]} → exists_ w p = Ok true) as Hadd.
  { intros Hex HP p [Hp|Hp]%elem_of_union; [by auto|].
    by apply elem_of_singleton in Hp as ->. }
  destruct (read_text w current_path) as [content|e].
  - destruct (include_loop _ _ _ _ _ _ _ _ _) as [[r P1]|] eqn:Hloop;
      [|done].
    intros [= _ <-] Hex HP.
    eapply include_loop_exist; [|exact Hloop|by apply Hadd].
    intros q d' P0 l0 P0'. apply IH.
  - intros [= _ <-]. done.
Qed.

Lemma entered_nested p rp ex ln dp pf l :
  entered (mk_include_info p rp ex ln dp pf (Some l)) = rp :: entered_all l.
Proof. reflexivity. Qed.

(** The files that the records show were entered. *)
Lemma include_loop_entered
    (nested_call : text → nat → gset text
                   → option (list include_info * gset text))
    w recursive content current_path d ms :
  (∀ q d' P l P', nested_call q d' P = Some (l, P') →
     ∀ p, p = q ∨ p ∈ entered_all l → p ∈ P') →
  (∀ q d' P l P', nested_call q d' P = Some (l, P') → P ⊆ P') →
  ∀ acc P l P',
    include_loop nested_call w recursive content current_path d ms acc P
    = Some (Ok l, P') →
    ∃ l', l = acc ++ l' ∧ ∀ p, p ∈ entered_all l' → p ∈ P'.
Proof.
  intros Hcall Hgrow. induction ms as [|m ms IH]; intros acc P l P'.
  - intros [= <- <-]. exists []. rewrite app_nil_r. split; [done|].
    by intros p ?%elem_of_nil.
  - rewrite include_loop_cons.
    destruct (resolve_include _ _ _) as [rp|e]; [|done].
    destruct (exists_ w rp) as [found|e]; [|done]. cbv zeta.
    destruct (recursive && _ && _).
    + destruct (nested_call _ _ _) as [[nested P1]|] eqn:Hnested; [|done].
      intros Hrest. pose proof Hrest as (l' & -> & Hl')%IH.
      apply include_loop_processed in Hrest; [|done].
      eexists (_ :: l'). split; [by rewrite <- app_assoc|].
      intros p. unfold entered_all. cbn [flat_map].
      rewrite entered_nested, elem_of_app.
      intros [Hp|Hp]; [|by apply Hl'].
      apply Hrest, (Hcall _ _ _ _ _ Hnested).
      apply elem_of_cons in Hp as [->|Hp]; [by left | by right].
    + intros (l' & -> & Hl')%IH.
      eexists (_ :: l'). split; [by rewrite <- app_assoc|].
      intros p. unfold entered_all. cbn [flat_map entered].
      rewrite app_nil_l. apply Hl'.
Qed.

Lemma find_includes_in_file_entered fuel :
  ∀ w recursive current_path d P l P',
    find_includes_in_file fuel w recursive current_path d P = Some (l, P') →
    ∀ p, p = current_path ∨ p ∈ entered_all l → p ∈ P'.
Proof.
  induction fuel as [|fuel IH]; intros w recursive current_path d P l P';
    [done|].
  intros Hrun p [->|Hp].
  { by apply find_includes_in_file_processed in Hrun as [_ Hown]. }
  revert Hrun p Hp. cbn [find_includes_in_file].
  destruct (decide (current_path ∈ P)).
  { intros [= <- <-] p Hp. by apply elem_of_nil in Hp. }
  destruct (read_text w current_path) as [content|e].
  - destruct (include_loop _ _ _ _ _ _ _ _ _) as [[[l0|e] P1]|] eqn:Hloop;
      [| |done].
    + intros [= <- <-]. apply include_loop_entered in Hloop as (l' & -> & Hl').
      * done.
      * intros q d' P0 l1 P0'. apply IH.
      * intros q d' P0 l1 P0' Hq.
        by apply find_includes_in_file_processed in Hq as [Hsub _].
    + intros [= <- <-] p Hp. by apply elem_of_nil in Hp.
  - intros [= <- <-] p Hp. by apply elem_of_nil in Hp.
Qed.

(** On a file system that answers, the loop does not fail and the files
    entered are exactly those that the records show. *)
Lemma resolve_include_answers w current_path include_path :
  answering w → ∃ rp, resolve_include w current_path include_path = Ok rp.
Proof.
  intros [_ Hres]. unfold resolve_include.
  destruct (negb (is_absolute w include_path)); [apply Hres | by eexists].
Qed.

Lemma include_loop_entered_all
    (nested_call : text → nat → gset text
                   → option (list include_info * gset text))
    w recursive content current_path d ms :
  answering w →
  (∀ q d' P l P', nested_call q d' P = Some (l, P') →
     P' = P ∪ {[q]} ∪ list_to_set (entered_all l)) →
  ∀ acc P r P',
    include_loop nested_call w recursive content current_path d ms acc P
    = Some (r, P') →
    ∃ l', r = Ok (acc ++ l') ∧ P' = P ∪ list_to_set (entered_all l').
Proof.
  intros Hw Hcall. induction ms as [|m ms IH]; intros acc P r P'.
  - intros [= <- <-]. exists []. rewrite app_nil_r. split; [done|].
    unfold entered_all. simpl. by rewrite (right_id_L ∅ (∪)).
  - rewrite include_loop_cons.
    destruct (resolve_include_answers w current_path (group content m 1) Hw)
      as [rp ->].
    destruct (proj1 Hw rp) as [found ->]. cbv zeta.
    destruct (recursive && _ && _).
    + destruct (nested_call _ _ _) as [[nested P1]|] eqn:Hnested; [|done].
      intros (l' & -> & ->)%IH. apply Hcall in Hnested as ->.
      eexists (_ :: l'). split; [by rewrite <- app_assoc|].
      unfold entered_all at 3. cbn [flat_map]. rewrite entered_nested.
      fold (entered_all l'). clear.
      rewrite list_to_set_app_L, list_to_set_cons.
      by rewrite !(assoc_L (∪)).
    + intros (l' & -> & ->)%IH.
      eexists (_ :: l'). split; [by rewrite <- app_assoc|].
      unfold entered_all at 2. cbn [flat_map entered].
      by rewrite app_nil_l.
Qed.

Lemma find_includes_in_file_entered_all fuel :
  ∀ w recursive current_path d P l P',
    answering w →
    find_includes_in_file fuel w recursive current_path d P = Some (l, P') →
    P' = P ∪ {[current_path]} ∪ list_to_set (entered_all l).
Proof.
  induction fuel as [|fuel IH]; intros w recursive current_path d P l P' Hw;
    [done|].
  cbn [find_includes_in_file].
  destruct (decide (current_path ∈ P)).
  { intros [= <- <-]. unfold entered_all. simpl. clear IH.
    rewrite (right_id_L ∅ (∪)), (comm_L (∪)). symmetry.
    by apply subseteq_union_1_L, singleton_subseteq_l. }
  destruct (read_text w current_path) as [content|e].
  - destruct (include_loop _ _ _ _ _ _ _ _ _) as [[r P1]|] eqn:Hloop;
      [|done].
    apply include_loop_entered_all in Hloop as (l' & -> & ->); [|done|].
    + by intros [= <- <-].
    + intros q d' P0 l0 P0'. by apply IH.
  - intros [= <- <-]. unfold entered_all. simpl.
    by rewrite (right_id_L ∅ (∪)).
Qed.

(** Without recursion no file is entered by the loop. *)
Lemma include_loop_flat
    (nested_call : text → nat → gset text
                   → option (list include_info * gset text))
    w content current_path d ms :
  ∀ acc P r P',
    include_loop nested_call w false content current_path d ms acc P
    = Some (r, P') → P' = P.
Proof.
  induction ms as [|m ms IH]; intros acc P r P'.
  - by intros [= _ <-].
  - rewrite include_loop_cons.
    destruct (resolve_include _ _ _) as [rp|e]; [|by intros [= _ <-]].
    destruct (exists_ w rp) as [found|e]; [|by intros [= _ <-]].
    cbn [andb]. apply IH.
Qed.

(** What a match of the include pattern looks like. *)
Lemma match_here_lits_app ic q re s :
  ∀ p r, match_here ic (lits q ++ re) s p = Some r →
    match_here ic re s (p + length q) = Some r
    ∧ ∀ k c, q !! k = Some c →
        ∃ d, s !! (p + k) = Some d ∧ chr_eq ic c d = true.
Proof.
  induction q as [|c q IH]; intros p r; simpl.
  - rewrite Nat.add_0_r. intros Hm. split; [done|]. intros k c Hk.
    by rewrite lookup_nil in Hk.
  - destruct (s !! p) as [d|] eqn:Hd; [|done].
    destruct (chr_eq ic c d) eqn:Hcd; [|done].
    intros [Hm Hq]%IH. split.
    + by replace (p + S (length q)) with (S p + length q) by lia.
    + intros [|k] c' Hk; simpl in Hk.
      * injection Hk as <-. exists d. by rewrite Nat.add_0_r.
      * destruct (Hq k c' Hk) as (d' & Hd' & Heq). exists d'.
        by replace (p + S k) with (S p + k) by lia.
Qed.

Lemma include_match s p e gs :
  match_here false include_pattern s p = Some (e, gs) →
  ∃ k, gs = [(p + 9, p + 9 + k)]
       ∧ 1 ≤ k ∧ p + 9 + k < e ∧ e ≤ length s
       ∧ at_bol s p = true
       ∧ take 9 (drop p s) = str "include::"
       ∧ ∀ i, i < k → ∃ c, s !! (p + 9 + i) = Some c
                          ∧ c ≠ "["%char ∧ c ≠ "]"%char.
Proof.
  unfold include_pattern. cbn [app match_here].
  destruct (at_bol s p) eqn:Hbol; [|done].
  intros [Hm Hlit]%match_here_lits_app. cbn [match_here] in Hm.
  change (length (str "include::")) with 9 in Hm.
  eapply rep_matched in Hm as (k & Hk & Hpk & Hm & Hcls); [|lia|done].
  apply bind_pair_Some in Hm as (e1 & gs1 & Hm1 & [= -> ->]).
  destruct (s !! (p + 9 + k)) as [d|] eqn:Hd; [|done].
  destruct (chr_eq false "[" d); [|done].
  destruct (_ <? 0); [done|].
  apply backtrack_Some in Hm1 as (j & Hj & Hm1).
  apply bind_pair_Some in Hm1 as (e2 & gs2 & Hm2 & [= -> ->]).
  destruct (s !! (S (p + 9 + k) + j)) as [d2|] eqn:Hd2; [|done].
  apply lookup_lt_Some in Hd2.
  destruct (chr_eq false "]" d2); [|done].
  destruct (at_eol s _); [|done]. injection Hm2 as <- <-.
  exists k. split_and!; try done; try lia.
  - apply list_eq. intros i.
    destruct (decide (i < 9)) as [Hi|Hi].
    + rewrite lookup_take_lt, lookup_drop by done.
      destruct (lookup_lt_is_Some_2 (str "include::") i Hi) as [c Hc].
      destruct (Hlit i c Hc) as (d' & Hd' & Heq). rewrite Hd', Hc.
      apply Ascii.eqb_eq in Heq. by subst.
    + rewrite lookup_take_ge by lia. symmetry.
      apply lookup_ge_None_2. simpl. lia.
  - intros i Hi. destruct (Hcls i Hi) as (c & Hc & Hnot).
    exists c. split; [done|].
    apply negb_true_iff, orb_false_iff in Hnot as [H1 H2].
    unfold is_char in *. apply Ascii.eqb_neq in H1, H2. done.
Qed.

(** The first line of a text that begins with characters other than the
    newline begins with them too. *)
Lemma first_line_take n s :
  n ≤ length s → Forall (λ c, is_nl c = false) (take n s) →
  take n (first_line s) = take n s.
Proof.
  revert s. induction n as [|n IH]; intros s Hn Hall.
  { by rewrite !take_0. }
  destruct s as [|c s]; [simpl in Hn; lia|].
  - cbn [take] in *. apply Forall_cons in Hall as [Hc Hall].
    cbn [first_line]. rewrite Hc. cbn [take]. f_equal.
    apply IH; [simpl in Hn; lia | done].
Qed.

(** X10. [find_includes] returns on every file system, for every file
    and flag, as soon as the fuel covers the 11 levels of calls that the
    test [depth < 10] allows, and the result is the same for every such
    fuel.  It never raises: it is the not-found error when the existence
    test answers that the file is not there, the error with the text of
    the failure when the existence test itself fails, and a success in
    every other case. *)
Theorem find_includes_returns (w : world) (file_path : text)
    (recursive : bool) (fuel : nat) :
  11 ≤ fuel →
  ∃ r,
    find_includes fuel w file_path recursive = Some (Ok r)
    ∧ find_includes 11 w file_path recursive = Some (Ok r)
    ∧ (exists_ w (Path w file_path) = Ok false
       → r = Error (str "File not found: " ++ file_path))
    ∧ (∀ e, exists_ w (Path w file_path) = Raise e → r = Error e)
    ∧ (exists_ w (Path w file_path) = Ok true → ∃ d, r = Success d).
Proof.
  intros Hfuel. unfold find_includes.
  destruct (exists_ w (Path w file_path)) as [[|]|e] eqn:Hex.
  - destruct (find_includes_in_file_total 11 w recursive (Path w file_path)
                0 ∅ ltac:(lia) ltac:(lia)) as [[incl processed] Hrun].
    rewrite (find_includes_in_file_fuel 11 fuel _ _ _ _ _ _ Hfuel Hrun), Hrun.
    cbn [mbind option_bind try_except]. eexists. split; [done|].
    split; [done|]. split; [done|]. split; [done|]. intros _. by eexists.
  - cbn [try_except]. eexists. split; [done|]. split; [done|].
    split; [done|]. split; done.
  - cbn [try_except]. eexists. split; [done|]. split; [done|].
    split; [done|]. split; [|done]. by intros e' [= <-].
Qed.

Lemma find_includes_returns_witness :
  11 ≤ 12
  ∧ find_includes 12 long_name_world long_path true
    = Some (Ok (Error long_path_error))
  ∧ ∃ r,
      find_includes 12 nested_world (str "/a.adoc") true = Some (Ok r)
      ∧ find_includes 11 nested_world (str "/a.adoc") true = Some (Ok r).
Proof.
  split; [lia|]. split.
  - destruct (find_includes_returns long_name_world long_path true 12
                ltac:(lia)) as (r & H12 & _ & _ & Hfail & _).
    rewrite H12. do 2 f_equal. apply Hfail. vm_compute. reflexivity.
  - destruct (find_includes_returns nested_world (str "/a.adoc") true 12
                ltac:(lia)) as (r & H12 & H11 & _).
    exists r. split; [exact H12 | exact H11].
Defined.

(** X11. A file that exists and cannot be read is not an error for
    [find_includes]: the failure is caught inside [find_includes_in_file],
    and the result is a success with no include and the file itself as
    the one processed file. *)
Theorem find_includes_unreadable (w : world) (file_path e : text)
    (recursive : bool) (fuel : nat) :
  exists_ w (Path w file_path) = Ok true →
  read_text w (Path w file_path) = Raise e →
  1 ≤ fuel →
  find_includes fuel w file_path recursive
  = Some (Ok (Success
      {| ir_file_path := file_path;
         total_includes := 0;
         includes := [];
         processed_files := [Path w file_path] |})).
Proof.
  intros Hex Hread Hfuel. unfold find_includes. rewrite Hex.
  destruct fuel as [|fuel]; [lia|]. cbn [find_includes_in_file].
  rewrite decide_False by set_solver. rewrite Hread.
  cbn [mbind option_bind try_except length]. do 4 f_equal.
  rewrite (left_id_L ∅ (∪)). apply elements_singleton.
Qed.

Lemma find_includes_unreadable_witness :
  find_includes 1 broken_world (str "/broken.adoc") true
  = Some (Ok (Success
      {| ir_file_path := str "/broken.adoc";
         total_includes := 0;
         includes := [];
         processed_files := [str "/broken.adoc"] |})).
Proof.
  apply (find_includes_unreadable broken_world (str "/broken.adoc")
           (str "cannot read the file") true 1);
    [vm_compute; reflexivity | vm_compute; reflexivity | lia].
Defined.

(** X12. The bookkeeping of the include tree.  In the result of
    [find_includes] every record at nesting depth [d] carries [depth = d],
    at most 10; its parent file is the file given (as a path string) at
    depth 0 and the resolved path of the enclosing record below;
    [resolved_path] and [exists] are those of the path as written,
    resolved from the parent file; and the key [nested_includes] is
    present exactly when the search recurses, the target exists and the
    depth is below 10. *)
Theorem find_includes_tree (w : world) (file_path : text) (recursive : bool)
    (fuel : nat) (r : includes_result) :
  find_includes fuel w file_path recursive = Some (Ok (Success r)) →
  includes_ok w recursive 0 (Path w file_path) (includes r).
Proof.
  unfold find_includes.
  destruct (exists_ w (Path w file_path)) as [[|]|e]; [|by simpl..].
  destruct (find_includes_in_file _ _ _ _ _ _) as [[incl processed]|] eqn:Hrun;
    [|done].
  cbn [mbind option_bind try_except]. intros [= <-]. cbn [includes].
  apply find_includes_in_file_ok in Hrun; [done | lia].
Qed.

Lemma find_includes_tree_witness :
  ∃ r,
    find_includes 11 nested_world (str "/a.adoc") true
    = Some (Ok (Success r))
    ∧ includes_ok nested_world true 0 (str "/a.adoc") (includes r)
    ∧ (depth <$> includes r) = [0]
    ∧ (nested_includes <$> includes r)
      = [Some [mk_include_info (str "a.adoc") (str "/a.adoc") true 1 1
                 (str "/b.adoc") (Some []);
               mk_include_info (str "missing.adoc") (str "/missing.adoc")
                 false 2 1 (str "/b.adoc") None;
               mk_include_info (str "c.adoc") (str "/c.adoc") true 3 1
                 (str "/b.adoc") (Some [])]].
Proof.
  eexists. split; [vm_compute; reflexivity|].
  split; [|split; reflexivity].
  apply (find_includes_tree nested_world (str "/a.adoc") true 11).
  vm_compute. reflexivity.
Defined.

(** What the call returns for a file that is read. *)
Lemma find_includes_read w file_path content recursive fuel r :
  read_text w (Path w file_path) = Ok content →
  find_includes fuel w file_path recursive = Some (Ok (Success r)) →
  ∃ fuel' res processed,
    include_loop (find_includes_in_file fuel' w recursive) w recursive
      content (Path w file_path) 0
      (finditer false include_pattern content 0) []
      (∅ ∪ {[Path w file_path]}) = Some (res, processed)
    ∧ includes r = match res with Ok l => l | Raise _ => [] end
    ∧ total_includes r = length (includes r).
Proof.
  intros Hread. unfold find_includes.
  destruct (exists_ w (Path w file_path)) as [[|]|e]; [|by simpl..].
  destruct fuel as [|fuel]; [done|]. cbn [find_includes_in_file].
  rewrite decide_False by set_solver. rewrite Hread.
  destruct (include_loop _ _ _ _ _ _ _ _ _) as [[res processed]|] eqn:Hrun;
    [|done].
  cbn [mbind option_bind try_except]. intros [= <-].
  by exists fuel, res, processed.
Qed.

(** X13. The top-level records of [find_includes] are include directives
    of the file, in the order of the text: the [k]-th record is the
    [k]-th directive, [path] is its target as written, which is not empty
    and holds no square bracket, and [line_number] is the number of a
    line of the file that begins with [include::].  When the target of
    every directive is resolved and tested for existence without failure,
    there is one record per directive; when one of them fails, the
    failure is caught and there is no record at all.  [total_includes] is
    the number of records. *)
Theorem find_includes_directives (w : world) (file_path content : text)
    (recursive : bool) (fuel : nat) (r : includes_result) :
  read_text w (Path w file_path) = Ok content →
  find_includes fuel w file_path recursive = Some (Ok (Success r)) →
  let directives := finditer false include_pattern content 0 in
  let answers := target_answers w (Path w file_path) content in
  total_includes r = length (includes r)
  ∧ (Forall answers directives →
       length (includes r) = length directives)
  ∧ (¬ Forall answers directives → includes r = [])
  ∧ ∀ k x, includes r !! k = Some x →
      ∃ m ln,
        directives !! k = Some m
        ∧ path x = group content m 1
        ∧ path x ≠ []
        ∧ (∀ c, c ∈ path x → c ≠ "["%char ∧ c ≠ "]"%char)
        ∧ 1 ≤ inc_line_number x ≤ count_nl content + 1
        ∧ split_nl content !! (inc_line_number x - 1) = Some ln
        ∧ take 9 ln = str "include::".
Proof.
  intros Hread Hrun.
  destruct (find_includes_read _ _ _ _ _ _ Hread Hrun)
    as (fuel' & res & processed & Hloop & Hincl & Htotal).
  set (directives := finditer false include_pattern content 0) in *.
  cbv zeta. split; [done|].
  apply include_loop_ok in Hloop; [|lia|].
  2:{ intros q P0 l0 P0' Hq _. replace 1 with (0 + 1) by done.
      eapply find_includes_in_file_ok; [|exact Hq]. lia. }
  rewrite Hincl. destruct res as [l|e].
  2:{ split; [done|]. split; [done|]. intros k x Hx.
      by rewrite lookup_nil in Hx. }
  destruct Hloop as (Hall & l' & -> & _ & Hms). rewrite app_nil_l.
  pose proof (Forall2_length _ _ _ Hms) as Hlen.
  split; [done|]. split; [done|]. intros k x Hx.
  destruct (Forall2_lookup_r _ _ _ _ _ Hms Hx) as (m & Hm & Hpath & Hline).
  assert (m ∈ directives) as Hin by (apply list_elem_of_lookup; eauto).
  apply finditer_match in Hin as ([_ Hstart] & _ & Hhere).
  apply include_match in Hhere
    as (j & Hgs & Hj & Hje & He & Hbol & Htake & Hcls).
  assert (group content m 1 = slice content (mstart m + 9) (mstart m + 9 + j))
    as Hgroup.
  { unfold group. by rewrite Hgs. }
  assert (length (group content m 1) = j) as Hglen.
  { rewrite Hgroup, length_slice; lia. }
  exists m, (first_line (drop (mstart m) content)).
  rewrite Hline, Hpath. split_and!; try done.
  - intros Hnil. rewrite Hnil in Hglen. simpl in Hglen. lia.
  - intros c [i Hi]%list_elem_of_lookup.
    pose proof (lookup_lt_Some _ _ _ Hi) as Hlt. rewrite Hglen in Hlt.
    destruct (Hcls i Hlt) as (c' & Hc' & Hnot).
    rewrite Hgroup in Hi. unfold slice in Hi.
    rewrite lookup_take_lt, lookup_drop in Hi by lia.
    by replace c with c' by congruence.
  - lia.
  - pose proof (count_nl_take (mstart m) content). lia.
  - replace (count_nl (take (mstart m) content) + 1 - 1)
      with (count_nl (take (mstart m) content)) by lia.
    by apply split_nl_at_bol.
  - rewrite first_line_take, Htake; [done | |].
    + rewrite length_drop. lia.
    + rewrite Htake. by repeat constructor.
Qed.

Lemma find_includes_directives_witness :
  ∃ r,
    find_includes 11 nested_world (str "/a.adoc") true
    = Some (Ok (Success r))
    ∧ total_includes r = length (includes r)
    ∧ (path <$> includes r) = [str "b.adoc"]
    ∧ (inc_line_number <$> includes r) = [2].
Proof.
  eexists. split; [vm_compute; reflexivity|].
  destruct (find_includes_directives nested_world (str "/a.adoc")
              (str "intro" ++ [nl] ++ str "include::b.adoc[]") true 11 _
              ltac:(vm_compute; reflexivity) ltac:(vm_compute; reflexivity))
    as (Htotal & _).
  split; [exact Htotal|]. split; reflexivity.
Defined.

(** A file with two directives, of which the second names a file whose
    existence test fails: the first target is entered and recorded, then
    the failure is caught and the records are dropped, while the set of
    processed files keeps the file that was entered. *)
Example find_includes_mixed_targets :
  ∃ r,
    find_includes 11 mixed_target_world (str "/l.adoc") true
    = Some (Ok (Success r))
    ∧ length (finditer false include_pattern mixed_target_doc 0) = 2
    ∧ total_includes r = 0
    ∧ includes r = []
    ∧ length (processed_files r) = 2
    ∧ str "/l.adoc" ∈ processed_files r
    ∧ str "/ok.adoc" ∈ processed_files r.
Proof.
  eexists. split; [vm_compute; reflexivity|].
  split; [vm_compute; reflexivity|]. split; [reflexivity|].
  split; [reflexivity|]. split; [reflexivity|].
  split; apply (bool_decide_eq_true_1 _); vm_compute; reflexivity.
Qed.

(** X14. [processed_files] has no duplicate; it holds the given file (as
    a path string) and the resolved path of every record that carries the
    key [nested_includes], and every file in it exists.  Without
    recursion it is the given file alone.  It can hold more than the
    records show, since the records of a file are dropped when a target
    fails; on a file system where no existence test and no resolution
    fails, it holds nothing else. *)
Theorem find_includes_processed_files (w : world) (file_path : text)
    (recursive : bool) (fuel : nat) (r : includes_result) :
  find_includes fuel w file_path recursive = Some (Ok (Success r)) →
  NoDup (processed_files r)
  ∧ (∀ p, p = Path w file_path ∨ p ∈ entered_all (includes r) →
          p ∈ processed_files r)
  ∧ (∀ p, p ∈ processed_files r → exists_ w p = Ok true)
  ∧ (recursive = false → processed_files r = [Path w file_path])
  ∧ (answering w →
     ∀ p, p ∈ processed_files r
          ↔ p = Path w file_path ∨ p ∈ entered_all (includes r)).
Proof.
  unfold find_includes.
  destruct (exists_ w (Path w file_path)) as [[|]|e] eqn:Hex; [|by simpl..].
  destruct (find_includes_in_file _ _ _ _ _ _) as [[incl processed]|] eqn:Hrun;
    [|done].
  cbn [mbind option_bind try_except]. intros [= <-].
  cbn [includes processed_files].
  pose proof (find_includes_in_file_entered _ _ _ _ _ _ _ _ Hrun) as Hsub.
  pose proof (find_includes_in_file_exist _ _ _ _ _ _ _ _ Hrun Hex) as Hall.
  split_and!.
  - apply NoDup_elements.
  - intros p Hp. by apply elem_of_elements, Hsub.
  - intros p Hp%elem_of_elements. apply Hall; [|done].
    by intros p' ?%elem_of_empty.
  - intros ->. destruct fuel as [|fuel]; [done|].
    rewrite find_includes_in_file_S in Hrun.
    rewrite decide_False in Hrun by apply not_elem_of_empty.
    rewrite (left_id_L ∅ (∪)) in Hrun.
    destruct (read_text w (Path w file_path)) as [content|e].
    + destruct (include_loop _ _ _ _ _ _ _ _ _) as [[res P1]|] eqn:Hloop;
        [|done].
      apply include_loop_flat in Hloop as ->.
      injection Hrun as _ <-. apply elements_singleton.
    + injection Hrun as _ <-. apply elements_singleton.
  - intros Hw p.
    rewrite elem_of_elements,
      (find_includes_in_file_entered_all _ _ _ _ _ _ _ _ Hw Hrun),
      !elem_of_union, elem_of_empty, elem_of_singleton, elem_of_list_to_set.
    tauto.
Qed.

Lemma find_includes_processed_files_witness :
  ∃ r,
    find_includes 11 nested_world (str "/a.adoc") true
    = Some (Ok (Success r))
    ∧ entered_all (includes r) = [str "/b.adoc"; str "/a.adoc"; str "/c.adoc"]
    ∧ NoDup (processed_files r)
    ∧ length (processed_files r) = 3.
Proof.
  eexists. split; [vm_compute; reflexivity|].
  split; [vm_compute; reflexivity|].
  split; [|vm_compute; reflexivity].
  apply (find_includes_processed_files nested_world (str "/a.adoc") true 11).
  vm_compute. reflexivity.
Defined.

(** ** [extract_metadata] *)

(** A repetition that matched [k >= lo] characters. *)
Lemma rep_matched_any {A} cls s p lo n (cont : nat → option A) r :
  (if run_length cls (drop p s) <? lo then None
   else backtrack cont lo (n - lo)) = Some r →
  n = run_length cls (drop p s) →
  ∃ k, lo ≤ k ∧ k ≤ length s - p ∧ cont k = Some r
       ∧ ∀ i, i < k → ∃ c, s !! (p + i) = Some c ∧ cls c = true.
Proof.
  intros Hm ->.
  destruct (Nat.ltb_spec (run_length cls (drop p s)) lo) as [|Hge]; [done|].
  apply backtrack_Some in Hm as (k & Hk & Hr).
  destruct (run_length_spec cls (drop p s) k ltac:(lia)) as [Hlen Hall].
  rewrite length_drop in Hlen.
  exists k. split; [lia|]. split; [lia|]. split; [done|].
  intros i Hi. destruct (Hall i Hi) as (c & Hc & Hcls).
  rewrite lookup_drop in Hc. by exists c.
Qed.

(** The shape of a match of the attribute pattern at position [p]: a
    colon at the beginning of a line, a name of [k >= 1] characters other
    than the colon, a colon, whitespace, and a value without a newline
    that ends the match. *)
Lemma attribute_match s p e gs :
  match_here false attribute_pattern s p = Some (e, gs) →
  ∃ k a, gs = [(p + 1, p + 1 + k); (a, e)]
         ∧ 1 ≤ k ∧ p + 1 + k < a ∧ a ≤ e ∧ e ≤ length s
         ∧ at_bol s p = true
         ∧ s !! p = Some ":"%char
         ∧ (∀ i, i < k → ∃ c, s !! (p + 1 + i) = Some c ∧ c ≠ ":"%char)
         ∧ (∀ i, a ≤ i < e → ∃ c, s !! i = Some c ∧ is_nl c = false).
Proof.
  unfold attribute_pattern. cbn [match_here].
  destruct (at_bol s p); [|done].
  destruct (s !! p) as [d|] eqn:Hd; [|done].
  destruct (chr_eq false ":" d) eqn:Hcolon; [|done].
  apply Ascii.eqb_eq in Hcolon. subst d. intros Hm.
  eapply rep_matched in Hm as (k & Hk & Hpk & Hm & Hname); [|lia|done].
  apply bind_pair_Some in Hm as (e1 & gs1 & Hm1 & [= -> ->]).
  destruct (s !! (S p + k)) as [d|] eqn:Hd1; [|done].
  apply lookup_lt_Some in Hd1.
  destruct (chr_eq false ":" d); [|done].
  eapply rep_matched_any in Hm1 as (k2 & _ & Hpk2 & Hm1 & _); [|done].
  apply bind_pair_Some in Hm1 as (e2 & gs2 & Hm2 & [= -> ->]).
  eapply rep_matched_any in Hm2 as (k3 & _ & Hpk3 & Hm2 & Hvalue); [|done].
  apply bind_pair_Some in Hm2 as (e3 & gs3 & Hm3 & [= -> ->]).
  destruct (at_eol s _); [|done]. injection Hm3 as <- <-.
  exists k, (S (S p + k) + k2).
  replace (p + 1) with (S p) by lia.
  split_and!; try done; try lia.
  - intros i Hi. destruct (Hname i Hi) as (c & Hc & Hcls).
    exists c. split; [done|].
    apply negb_true_iff in Hcls. unfold is_char in Hcls.
    by apply Ascii.eqb_neq in Hcls.
  - intros i Hi.
    destruct (Hvalue (i - (S (S p + k) + k2)) ltac:(lia)) as (c & Hc & Hcls).
    exists c. replace (S (S p + k) + k2 + (i - (S (S p + k) + k2))) with i
      in Hc by lia.
    split; [done|]. unfold dot in Hcls. by apply negb_true_iff in Hcls.
Qed.

Lemma trim_of_elem raw t c : trim_of raw t → c ∈ t → c ∈ raw.
Proof.
  intros (_ & a & b & -> & _) Hc. rewrite !elem_of_app. auto.
Qed.

Lemma elem_of_slice s a b c :
  c ∈ slice s a b → ∃ i, a ≤ i < b ∧ s !! i = Some c.
Proof.
  unfold slice. intros [i Hi]%list_elem_of_lookup.
  apply lookup_take_Some in Hi as [Hi Hlt]. rewrite lookup_drop in Hi.
  exists (a + i). split; [lia | done].
Qed.

(** A binding of the dictionary was there before the loop or comes from
    a declaration. *)
Lemma collect_attributes_from content ms :
  ∀ attributes name value,
    collect_attributes content attributes ms !! name = Some value →
    attributes !! name = Some value
    ∨ ∃ i m, ms !! i = Some m ∧ name = attr_name content m
             ∧ value = attr_value content m.
Proof.
  induction ms as [|m ms IH]; intros attributes name value; [by left|].
  rewrite collect_attributes_cons. intros [Hin|(i & m' & Hi & Hn & Hv)]%IH.
  - destruct (decide (attr_name content m = name)) as [<-|Hne].
    + rewrite lookup_insert_eq in Hin. injection Hin as <-.
      right. by exists 0, m.
    + rewrite lookup_insert_ne in Hin by done. by left.
  - right. by exists (S i), m'.
Qed.

(** The value that the dictionary gives for a name is that of its last
    declaration. *)
Lemma collect_attributes_last_declared content decls k :
  last_declared content decls k
    (default [] (collect_attributes content ∅ decls !! k)).
Proof.
  induction decls as [|m decls IH] using rev_ind.
  - left. split; [done|]. by intros m ?%elem_of_nil.
  - rewrite collect_attributes_app, collect_attributes_cons.
    unfold collect_attributes at 1. cbn [foldl].
    destruct (decide (attr_name content m = k)) as [Hk|Hk].
    + right. exists (length decls), m.
      rewrite <- Hk, lookup_insert_eq. split_and!; try done.
      * by rewrite lookup_app_r, Nat.sub_diag by lia.
      * intros j m' Hj Hm'. apply lookup_lt_Some in Hm'.
        rewrite length_app in Hm'. simpl in Hm'. lia.
    + rewrite lookup_insert_ne by done.
      destruct IH as [[Hv Hno]|(i & m0 & Hi & Hname & Hv & Hlater)].
      * left. split; [done|].
        intros m' [Hin|Hin%list_elem_of_singleton]%elem_of_app;
          [by apply Hno | by subst].
      * right. exists i, m0. split_and!; try done.
        -- by apply lookup_app_l_Some.
        -- intros j m' Hj Hm'.
           apply lookup_app_Some in Hm' as [Hm'|[_ Hm']];
             [by apply (Hlater j)|].
           apply list_lookup_singleton_Some in Hm' as [_ <-]. done.
Qed.

(** X15. [extract_metadata] never raises, and it reports no partial
    result: it returns the not-found error when the existence test answers
    that the file is not there, the error of the existence test when that
    test fails, the error of [read_text] when the file cannot be read, the
    error of [stat] when the file was read and its metadata cannot be,
    and a success, with the size and the times that [stat] gives, only
    when all of them succeed. *)
Theorem extract_metadata_outcome (w : world) (file_path : text) :
  let P := Path w file_path in
  ∃ r,
    extract_metadata w file_path = Ok r
    ∧ (exists_ w P = Ok false →
         r = Error (str "File not found: " ++ file_path))
    ∧ (∀ e, exists_ w P = Raise e → r = Error e)
    ∧ (∀ e, exists_ w P = Ok true → read_text w P = Raise e → r = Error e)
    ∧ (∀ content e, exists_ w P = Ok true → read_text w P = Ok content →
         stat w P = Raise e → r = Error e)
    ∧ (∀ content st, exists_ w P = Ok true → read_text w P = Ok content →
         stat w P = Ok st →
         ∃ d, r = Success d
              ∧ mr_file_path d = file_path
              ∧ mr_title d = _extract_document_title content
              ∧ mr_file_info d
                = {| size_bytes := st_size st;
                     modified := st_mtime st;
                     created := st_ctime st |}).
Proof.
  intros P. unfold extract_metadata. fold P.
  destruct (exists_ w P) as [[|]|e]; cbn [bind negb].
  - destruct (read_text w P) as [content|e]; cbn [bind].
    + destruct (stat w P) as [st|e]; cbn [bind try_except].
      * eexists. split; [done|]. split_and!; try done.
        intros content' st' _ [= <-] [= <-]. by eexists.
      * eexists. split; [done|]. split_and!; try done.
        by intros content' e' _ _ [= <-].
    + cbn [try_except]. eexists. split; [done|]. split_and!; try done.
      by intros e' _ [= <-].
  - cbn [try_except]. eexists. split; [done|]. by split_and!.
  - cbn [try_except]. eexists. split; [done|]. split_and!; try done.
    by intros e' [= <-].
Qed.

Lemma extract_metadata_outcome_witness :
  extract_metadata broken_world (str "/broken.adoc")
  = Ok (Error (str "cannot read the file"))
  ∧ extract_metadata long_name_world long_path = Ok (Error long_path_error).
Proof.
  split.
  - destruct (extract_metadata_outcome broken_world (str "/broken.adoc"))
      as (r & Hrun & _ & _ & Hread & _).
    rewrite Hrun. f_equal. apply Hread; vm_compute; reflexivity.
  - destruct (extract_metadata_outcome long_name_world long_path)
      as (r & Hrun & _ & Hfail & _).
    rewrite Hrun. f_equal. apply Hfail. vm_compute. reflexivity.
Defined.

(** X16. Every binding of the attribute map of [extract_metadata] comes
    from a declaration of the document: a match of the attribute pattern
    on a line that begins with a colon.  The name is the stripped text
    between the first two colons and holds no colon; the value is stripped
    and holds no newline. *)
Theorem extract_metadata_attributes (w : world) (file_path content : text)
    (r : metadata_result) :
  read_text w (Path w file_path) = Ok content →
  extract_metadata w file_path = Ok (Success r) →
  ∀ name value,
    attributes r !! name = Some value →
    ∃ i m ln,
      finditer false attribute_pattern content 0 !! i = Some m
      ∧ name = strip (group content m 1)
      ∧ value = strip (group content m 2)
      ∧ trimmed name ∧ (∀ c, c ∈ name → c ≠ ":"%char)
      ∧ trimmed value ∧ (∀ c, c ∈ value → is_nl c = false)
      ∧ split_nl content !! count_nl (take (mstart m) content) = Some ln
      ∧ head ln = Some ":"%char.
Proof.
  intros Hread. unfold extract_metadata. rewrite Hread.
  destruct (exists_ w (Path w file_path)) as [[|]|?]; cbn [negb bind];
    [|by simpl..].
  destruct (stat w (Path w file_path)) as [st|e]; cbn [bind try_except];
    [|done].
  intros [= <-] name value. cbn [attributes].
  intros [Hin|(i & m & Hi & -> & ->)]%collect_attributes_from; [done|].
  assert (m ∈ finditer false attribute_pattern content 0) as Hm
    by (apply list_elem_of_lookup; eauto).
  apply finditer_match in Hm as ([_ Hstart] & _ & Hhere).
  apply attribute_match in Hhere
    as (k & a & Hgs & Hk & Hka & Hae & He & Hbol & Hcolon & Hname & Hvalue).
  exists i, m, (first_line (drop (mstart m) content)).
  unfold attr_name, attr_value.
  pose proof (strip_spec (group content m 1)) as Hn.
  pose proof (strip_spec (group content m 2)) as Hv.
  split_and!; try done.
  - apply Hn.
  - intros c Hc%(trim_of_elem _ _ _ Hn). unfold group in Hc.
    rewrite Hgs in Hc. cbn [lookup list_lookup Nat.sub] in Hc.
    apply elem_of_slice in Hc as (j & Hj & Hc).
    destruct (Hname (j - (mstart m + 1)) ltac:(lia)) as (c' & Hc' & Hne).
    replace (mstart m + 1 + (j - (mstart m + 1))) with j in Hc' by lia.
    by replace c with c' by congruence.
  - apply Hv.
  - intros c Hc%(trim_of_elem _ _ _ Hv). unfold group in Hc.
    rewrite Hgs in Hc. cbn [lookup list_lookup Nat.sub] in Hc.
    apply elem_of_slice in Hc as (j & Hj & Hc).
    destruct (Hvalue j Hj) as (c' & Hc' & Hne).
    by replace c with c' by congruence.
  - by apply split_nl_at_bol.
  - rewrite <- (take_drop (mstart m) content) in Hcolon.
    rewrite lookup_app_r in Hcolon by (rewrite length_take; lia).
    rewrite length_take, Nat.min_l, Nat.sub_diag in Hcolon by lia.
    destruct (drop (mstart m) content) as [|c rest]; [done|].
    injection Hcolon as ->. done.
Qed.

Lemma extract_metadata_attributes_witness :
  ∃ r,
    extract_metadata jane_world (str "/jane.adoc") = Ok (Success r)
    ∧ attributes r !! str "author" = Some (str "Jane2")
    ∧ ∃ i m ln,
        finditer false attribute_pattern jane_doc 0 !! i = Some m
        ∧ str "author" = strip (group jane_doc m 1)
        ∧ split_nl jane_doc !! count_nl (take (mstart m) jane_doc) = Some ln
        ∧ head ln = Some ":"%char.
Proof.
  eexists. split; [vm_compute; reflexivity|].
  split; [vm_compute; reflexivity|].
  destruct (extract_metadata_attributes jane_world (str "/jane.adoc")
              jane_doc _ ltac:(vm_compute; reflexivity)
              ltac:(vm_compute; reflexivity) (str "author") (str "Jane2")
              ltac:(vm_compute; reflexivity))
    as (i & m & ln & Hi & Hname & _ & _ & _ & _ & _ & Hln & Hhead).
  exists i, m, ln. split; [exact Hi|]. split; [exact Hname|].
  split; [exact Hln | exact Hhead].
Defined.

(** X17. The fields of the result are read from the attribute map under
    fixed names: [author] from [author], [email] from [email], [revision]
    from [revnumber] and [date] from [revdate].  Each is the value of the
    last match of the attribute pattern with that name, or the empty
    string when no match has that name.  The matches are what the call
    takes as declarations: a declaration without value and the line after
    it make one match. *)
Theorem extract_metadata_fields (w : world) (file_path content : text)
    (r : metadata_result) :
  read_text w (Path w file_path) = Ok content →
  extract_metadata w file_path = Ok (Success r) →
  let decls := finditer false attribute_pattern content 0 in
  last_declared content decls (str "author") (author r)
  ∧ last_declared content decls (str "email") (email r)
  ∧ last_declared content decls (str "revnumber") (revision r)
  ∧ last_declared content decls (str "revdate") (date r).
Proof.
  intros Hread. unfold extract_metadata. rewrite Hread.
  destruct (exists_ w (Path w file_path)) as [[|]|?]; cbn [negb bind];
    [|by simpl..].
  destruct (stat w (Path w file_path)) as [st|e]; cbn [bind try_except];
    [|done].
  intros [= <-]. cbn [author email revision date].
  split_and!; apply collect_attributes_last_declared.
Qed.

Lemma extract_metadata_fields_witness :
  ∃ r,
    extract_metadata jane_world (str "/jane.adoc") = Ok (Success r)
    ∧ author r = str "Jane2" ∧ email r = [] ∧ revision r = [] ∧ date r = []
    ∧ last_declared jane_doc (finditer false attribute_pattern jane_doc 0)
        (str "revnumber") (revision r).
Proof.
  eexists. split; [vm_compute; reflexivity|].
  split; [reflexivity|]. split; [reflexivity|]. split; [reflexivity|].
  split; [reflexivity|].
  apply (extract_metadata_fields jane_world (str "/jane.adoc") jane_doc _
           ltac:(vm_compute; reflexivity) ltac:(vm_compute; reflexivity)).
Defined.

(** ** [search_content] *)

(** A result of a file is the result of one of its lines. *)
Lemma file_results_line ic pat p content y :
  y ∈ file_results ic pat p content →
  ∃ i ln, split_nl content !! i = Some ln
          ∧ line_result ic pat p (split_nl content) i ln = Some y.
Proof.
  unfold file_results.
  intros (o & Ho & Hoy)%list_elem_of_omap. simpl in Hoy. subst o.
  apply elem_of_lookup_imap in Ho as (j & a & Hfa & Hj). by exists j, a.
Qed.

(** The results kept from an enumeration come in the order of their
    numbers. *)
Lemma omap_imap_ge {A B} (num : B → nat) (l : list A) :
  ∀ (f : nat → A → option B) b,
    (∀ j a x, f j a = Some x → num x = b + j) →
    ∀ x, x ∈ omap id (imap f l) → b ≤ num x.
Proof.
  intros f b Hnum x (o & Ho & Hox)%list_elem_of_omap. simpl in Hox. subst o.
  apply elem_of_lookup_imap in Ho as (j & a & Hfa & _).
  symmetry in Hfa. apply Hnum in Hfa. lia.
Qed.

Lemma omap_imap_sorted {A B} (num : B → nat) (l : list A) :
  ∀ (f : nat → A → option B) b,
    (∀ j a x, f j a = Some x → num x = b + j) →
    ∀ k k' x y, k < k' →
      omap id (imap f l) !! k = Some x →
      omap id (imap f l) !! k' = Some y →
      num x < num y.
Proof.
  induction l as [|a l IH]; intros f b Hnum k k' x y Hk; [done|].
  rewrite imap_cons. cbn [omap list_omap id].
  assert (∀ j a x, (f ∘ S) j a = Some x → num x = S b + j) as Hnum'.
  { intros j a' x' Hx. rewrite (Hnum (S j) a' x' Hx). lia. }
  destruct (f 0 a) as [x0|] eqn:Hx0; [|by apply (IH _ _ Hnum')].
  destruct k as [|k]; destruct k' as [|k']; try lia; simpl.
  - intros [= <-] Hy. apply Hnum in Hx0.
    assert (y ∈ omap id (imap (f ∘ S) l)) as Hin
      by (apply list_elem_of_lookup; eauto).
    apply (omap_imap_ge num l _ _ Hnum') in Hin. lia.
  - apply (IH _ _ Hnum'). lia.
Qed.

Lemma file_results_sorted ic pat p content k k' x y :
  k < k' →
  file_results ic pat p content !! k = Some x →
  file_results ic pat p content !! k' = Some y →
  line_number x < line_number y.
Proof.
  unfold file_results.
  apply (omap_imap_sorted line_number _ _ 1).
  intros j a z. apply line_result_number.
Qed.

(** The elements of a concatenation of lists come list by list. *)
Lemma flat_map_lookup {A B} (F : A → list B) (l : list A) k y :
  flat_map F l !! k = Some y →
  ∃ b q j, l !! b = Some q ∧ F q !! j = Some y.
Proof.
  intros Hk. assert (y ∈ flat_map F l) as Hin
    by (apply list_elem_of_lookup; eauto).
  apply list_elem_of_In, in_flat_map in Hin as (q & Hq & Hy).
  apply list_elem_of_In, list_elem_of_lookup in Hq as [b Hb].
  apply list_elem_of_In, list_elem_of_lookup in Hy as [j Hj].
  by exists b, q, j.
Qed.

Lemma flat_map_order {A B} (F : A → list B) (l : list A) :
  ∀ k k' x y, k < k' →
    flat_map F l !! k = Some x → flat_map F l !! k' = Some y →
    ∃ a b p q i j,
      l !! a = Some p ∧ l !! b = Some q
      ∧ F p !! i = Some x ∧ F q !! j = Some y
      ∧ (a < b ∨ (a = b ∧ i < j)).
Proof.
  induction l as [|p l IH]; intros k k' x y Hk; [done|].
  cbn [flat_map]. intros Hx Hy.
  destruct (decide (k' < length (F p))) as [Hlt|Hge].
  - rewrite lookup_app_l in Hx, Hy by lia.
    exists 0, 0, p, p, k, k'. split_and!; try done. right. by split.
  - rewrite lookup_app_r in Hy by lia.
    destruct (decide (k < length (F p))) as [Hlt|Hge'].
    + rewrite lookup_app_l in Hx by lia.
      apply flat_map_lookup in Hy as (b & q & j & Hb & Hj).
      exists 0, (S b), p, q, k, j. split_and!; try done. left. lia.
    + rewrite lookup_app_r in Hx by lia.
      assert (k - length (F p) < k' - length (F p)) as Hk' by lia.
      destruct (IH _ _ _ _ Hk' Hx Hy)
        as (a & b & p' & q & i & j & Ha & Hb & Hi & Hj & Hord).
      exists (S a), (S b), p', q, i, j. split_and!; try done. lia.
Qed.

(** What a search gives on success. *)
Lemma search_content_success w query file_path case_sensitive r :
  search_content w query file_path case_sensitive = Ok (Success r) →
  ∃ files,
    files_to_search w file_path = Some files
    ∧ results r
      = flat_map (contribution w (negb case_sensitive) (escape query)) files
    ∧ files_searched r = filter (λ p, loads w p = true) files
    ∧ total_matches r = length (results r).
Proof.
  destruct (files_to_search w file_path) as [files|] eqn:Hfiles.
  - rewrite (search_content_run _ _ _ _ _ Hfiles). intros [= <-].
    by exists files.
  - unfold files_to_search in Hfiles. unfold search_content.
    destruct (truthy file_path) as [fp|].
    + destruct (exists_ w (Path w fp)) as [[|]|?]; [done|by simpl..].
    + destruct (rglob_adoc w) as [l|e]; [done|]. by simpl.
Qed.

(** X18. [search_content] never raises.  For a file that is given: when
    the existence test answers that it is not there the result is the
    not-found error, when the existence test fails it is the error with
    the text of that failure, and when the file exists and cannot be read
    it is a success with no result and no file searched.  For a search
    of the directory: a walk that fails is the error of the walk, and an
    empty directory a success with no result. *)
Theorem search_content_outcome (w : world) (query : text)
    (file_path : option text) (case_sensitive : bool) :
  let nothing :=
    Success {| Proc.query := query;
               Proc.case_sensitive := case_sensitive;
               total_matches := 0;
               files_searched := [];
               results := [] |} in
  ∃ r,
    search_content w query file_path case_sensitive = Ok r
    ∧ (∀ fp, truthy file_path = Some fp →
         exists_ w (Path w fp) = Ok false →
         r = Error (str "File not found: " ++ fp))
    ∧ (∀ fp e, truthy file_path = Some fp →
         exists_ w (Path w fp) = Raise e → r = Error e)
    ∧ (∀ fp e, truthy file_path = Some fp →
         exists_ w (Path w fp) = Ok true →
         read_text w (Path w fp) = Raise e → r = nothing)
    ∧ (∀ e, truthy file_path = None → rglob_adoc w = Raise e → r = Error e)
    ∧ (truthy file_path = None → rglob_adoc w = Ok [] → r = nothing).
Proof.
  intros nothing. unfold search_content.
  destruct (truthy file_path) as [fp|].
  - destruct (exists_ w (Path w fp)) as [[|]|e0] eqn:Hex; cbn [bind negb].
    + cbn [foldl]. unfold search_file at 1. cbn [fst snd].
      destruct (read_text w (Path w fp)) as [content|e] eqn:Hread.
      * cbn [try_except]. eexists. split; [done|]. split_and!; try done.
        -- intros fp' [= <-]. by rewrite Hex.
        -- intros fp' e [= <-]. by rewrite Hex.
        -- intros fp' e [= <-] _. by rewrite Hread.
      * cbn [try_except]. eexists. split; [done|]. split_and!; try done.
        -- intros fp' [= <-]. by rewrite Hex.
        -- intros fp' e' [= <-]. by rewrite Hex.
    + cbn [try_except]. eexists. split; [done|]. split_and!; try done.
      * by intros fp' [= <-] _.
      * intros fp' e [= <-]. by rewrite Hex.
      * intros fp' e [= <-]. by rewrite Hex.
    + cbn [try_except]. eexists. split; [done|]. split_and!; try done.
      * intros fp' [= <-]. by rewrite Hex.
      * intros fp' e [= <-]. rewrite Hex. by intros [= <-].
      * intros fp' e [= <-]. by rewrite Hex.
  - destruct (rglob_adoc w) as [files|e]; cbn [bind try_except].
    + rewrite search_files. cbn [fst snd app try_except].
      eexists. split; [done|]. split_and!; try done.
      intros _ [= ->]. done.
    + eexists. split; [done|]. split_and!; try done.
      by intros e' _ [= <-].
Qed.

Lemma search_content_outcome_witness :
  search_content broken_world (str "Title") (Some (str "/broken.adoc")) false
  = Ok (Success {| Proc.query := str "Title";
                   Proc.case_sensitive := false;
                   total_matches := 0;
                   files_searched := [];
                   results := [] |})
  ∧ search_content long_name_world (str "Title") (Some long_path) false
    = Ok (Error long_path_error).
Proof.
  split.
  - destruct (search_content_outcome broken_world (str "Title")
                (Some (str "/broken.adoc")) false)
      as (r & Hrun & _ & _ & Hread & _).
    rewrite Hrun. f_equal.
    apply (Hread (str "/broken.adoc") (str "cannot read the file"));
      vm_compute; reflexivity.
  - destruct (search_content_outcome long_name_world (str "Title")
                (Some long_path) false) as (r & Hrun & _ & Hfail & _).
    rewrite Hrun. f_equal.
    apply (Hfail long_path); vm_compute; reflexivity.
Defined.

(** X19. Every result of a search is genuine: it is a line of a file
    that was listed and read, in which the query occurs; its number is
    that of the line, between 1 and the number of lines of the file; its
    text is the stripped line; the line itself is in its context, after
    the one or two lines that precede it; and it has at least one
    span. *)
Theorem search_content_results_sound (w : world) (query : text)
    (file_path : option text) (case_sensitive : bool) (files : list text)
    (r : search_response) :
  files_to_search w file_path = Some files →
  search_content w query file_path case_sensitive = Ok (Success r) →
  ∀ x, x ∈ results r →
    ∃ content i ln,
      file x ∈ files
      ∧ file x ∈ files_searched r
      ∧ read_text w (file x) = Ok content
      ∧ split_nl content !! i = Some ln
      ∧ line_number x = i + 1
      ∧ line_number x ≤ count_nl content + 1
      ∧ Proc.line x = strip ln
      ∧ (∃ pos, occurs_at (negb case_sensitive) query ln pos)
      ∧ context x !! Nat.min i 2 = Some ln
      ∧ match_positions x ≠ [].
Proof.
  intros Hfiles. rewrite (search_content_run _ _ _ _ _ Hfiles).
  intros [= <-] x. cbn [results files_searched].
  intros (p & Hp & Hx)%list_elem_of_In%in_flat_map.
  apply list_elem_of_In in Hp, Hx.
  unfold contribution in Hx.
  destruct (read_text w p) as [content|e] eqn:Hread;
    [|by apply elem_of_nil in Hx].
  apply file_results_line in Hx as (i & ln & Hln & Hres).
  unfold line_result in Hres.
  destruct (search (negb case_sensitive) (escape query) ln 0) as [m|] eqn:Hm;
    [|done].
  injection Hres as <-.
  cbn [file line_number Proc.line context match_positions].
  pose proof (lookup_lt_Some _ _ _ Hln) as Hi.
  exists content, i, ln. rewrite Hread. split_and!; try done.
  - apply list_elem_of_filter. split; [|done]. unfold loads. by rewrite Hread.
  - rewrite length_split_nl in Hi. lia.
  - apply search_escape. by rewrite Hm.
  - rewrite lookup_take_lt, lookup_drop by lia.
    by replace (i - 2 + Nat.min i 2) with i by lia.
  - by rewrite finditer_unfold, Hm.
Qed.

Lemma search_content_results_sound_witness :
  ∃ r,
    search_content sample_world (str "a") (Some (str "/doc.adoc")) false
    = Ok (Success r)
    ∧ (line_number <$> results r) = [3; 4; 5; 8]
    ∧ ∀ x, x ∈ results r →
        ∃ content i ln,
          read_text sample_world (file x) = Ok content
          ∧ split_nl content !! i = Some ln
          ∧ line_number x = i + 1
          ∧ context x !! Nat.min i 2 = Some ln.
Proof.
  eexists. split; [vm_compute; reflexivity|].
  split; [vm_compute; reflexivity|]. intros x Hx.
  destruct (search_content_results_sound sample_world (str "a")
              (Some (str "/doc.adoc")) false [str "/doc.adoc"] _
              ltac:(vm_compute; reflexivity) ltac:(vm_compute; reflexivity)
              x Hx)
    as (content & i & ln & _ & _ & Hread & Hln & Hnum & _ & _ & _ & Hctx & _).
  by exists content, i, ln.
Defined.

(** X20. The results of a search come in file-then-line order, and
    [total_matches] is their number: of two results, the earlier one
    belongs to a file that is listed earlier, or to the same entry of the
    list and an earlier line. *)
Theorem search_content_order (w : world) (query : text)
    (file_path : option text) (case_sensitive : bool) (files : list text)
    (r : search_response) :
  files_to_search w file_path = Some files →
  search_content w query file_path case_sensitive = Ok (Success r) →
  total_matches r = length (results r)
  ∧ ∀ k k' x y, k < k' →
      results r !! k = Some x → results r !! k' = Some y →
      ∃ a b, files !! a = Some (file x) ∧ files !! b = Some (file y)
             ∧ (a < b ∨ (a = b ∧ line_number x < line_number y)).
Proof.
  intros Hfiles. rewrite (search_content_run _ _ _ _ _ Hfiles).
  intros [= <-]. cbn [results total_matches]. split; [done|].
  intros k k' x y Hk Hx Hy.
  destruct (flat_map_order _ _ _ _ _ _ Hk Hx Hy)
    as (a & b & p & q & i & j & Ha & Hb & Hi & Hj & Hord).
  assert (file x = p) as ->.
  { apply (contribution_file w (negb case_sensitive) (escape query)).
    apply list_elem_of_lookup. eauto. }
  assert (file y = q) as ->.
  { apply (contribution_file w (negb case_sensitive) (escape query)).
    apply list_elem_of_lookup. eauto. }
  exists a, b. split; [done|]. split; [done|].
  destruct Hord as [Hab|[-> Hij]]; [by left|]. right. split; [done|].
  assert (q = p) as -> by congruence.
  unfold contribution in Hi, Hj.
  destruct (read_text w p); [|done].
  by eapply (file_results_sorted _ _ _ _ i j).
Qed.

Lemma search_content_order_witness :
  ∃ r,
    search_content sample_world (str "a") None false = Ok (Success r)
    ∧ total_matches r = 4
    ∧ ∀ k k' x y, k < k' →
        results r !! k = Some x → results r !! k' = Some y →
        ∃ a b, [str "/doc.adoc"] !! a = Some (file x)
               ∧ [str "/doc.adoc"] !! b = Some (file y)
               ∧ (a < b ∨ (a = b ∧ line_number x < line_number y)).
Proof.
  eexists. split; [vm_compute; reflexivity|].
  split; [vm_compute; reflexivity|].
  apply (search_content_order sample_world (str "a") None false
           [str "/doc.adoc"] _ ltac:(vm_compute; reflexivity)
           ltac:(vm_compute; reflexivity)).
Defined.

(** An occurrence of the query is an occurrence up to case. *)
Lemma occurs_at_ignorecase q line p :
  occurs_at false q line p → occurs_at true q line p.
Proof.
  intros [Hlen Hocc]. split; [done|]. intros k c Hk.
  destruct (Hocc k c Hk) as (d & Hd & Heq). exists d. split; [done|].
  unfold chr_eq in *. apply Ascii.eqb_eq in Heq. subst d.
  apply Ascii.eqb_refl.
Qed.

(** An enumeration that keeps more lines gives more results. *)
Lemma omap_imap_length_le {A B} (l : list A) :
  ∀ (f g : nat → A → option B),
    (∀ j a, is_Some (f j a) → is_Some (g j a)) →
    length (omap id (imap f l)) ≤ length (omap id (imap g l)).
Proof.
  induction l as [|a l IH]; intros f g Hfg; [done|].
  rewrite !imap_cons. cbn [omap list_omap id].
  assert (∀ j a, is_Some ((f ∘ S) j a) → is_Some ((g ∘ S) j a)) as Hfg'
    by (intros j a'; apply Hfg).
  specialize (IH _ _ Hfg').
  destruct (f 0 a) as [x|] eqn:Hf.
  - destruct (Hfg 0 a) as [y Hg]; [by rewrite Hf|]. rewrite Hg. simpl. lia.
  - destruct (g 0 a); simpl; lia.
Qed.

Lemma line_result_is_Some ic q p lines i ln :
  is_Some (line_result ic (escape q) p lines i ln)
  ↔ ∃ pos, occurs_at ic q ln pos.
Proof.
  rewrite <- search_escape. unfold line_result.
  destruct (search ic (escape q) ln 0); split; intros [? ?]; done.
Qed.

Lemma contribution_length_le w q p :
  length (contribution w false (escape q) p)
  ≤ length (contribution w true (escape q) p).
Proof.
  unfold contribution. destruct (read_text w p) as [content|]; [|done].
  unfold file_results. apply omap_imap_length_le. intros j a.
  rewrite !line_result_is_Some. intros [pos Hpos]. exists pos.
  by apply occurs_at_ignorecase.
Qed.

Lemma flat_map_length_le {A B} (F G : A → list B) (l : list A) :
  (∀ a, length (F a) ≤ length (G a)) →
  length (flat_map F l) ≤ length (flat_map G l).
Proof.
  intros HFG. induction l as [|a l IH]; [done|].
  cbn [flat_map]. rewrite !length_app. specialize (HFG a). lia.
Qed.

(** X21. A search that ignores case finds at least what the
    case-sensitive search finds: the same files are searched, every line
    reported by the case-sensitive search is reported with the same file,
    number, text and context, and [total_matches] is not smaller. *)
Theorem search_content_ignorecase (w : world) (query : text)
    (file_path : option text) (rs : search_response) :
  search_content w query file_path true = Ok (Success rs) →
  ∃ ri,
    search_content w query file_path false = Ok (Success ri)
    ∧ files_searched ri = files_searched rs
    ∧ total_matches rs ≤ total_matches ri
    ∧ ∀ x, x ∈ results rs →
        ∃ y, y ∈ results ri
             ∧ file y = file x
             ∧ line_number y = line_number x
             ∧ Proc.line y = Proc.line x
             ∧ context y = context x.
Proof.
  intros (files & Hfiles & Hres & Hsearched & Htotal)%search_content_success.
  eexists. split; [by apply search_content_run|].
  cbn [files_searched total_matches results negb] in *.
  split; [done|]. split.
  - rewrite Htotal, Hres. apply flat_map_length_le.
    intros p. apply contribution_length_le.
  - intros x. rewrite Hres.
    intros (p & Hp & Hx)%list_elem_of_In%in_flat_map.
    apply list_elem_of_In in Hx. unfold contribution in Hx.
    destruct (read_text w p) as [content|e] eqn:Hread;
      [|by apply elem_of_nil in Hx].
    apply file_results_line in Hx as (i & ln & Hln & Hx).
    assert (is_Some (line_result true (escape query) p (split_nl content)
                       i ln)) as [y Hy].
    { apply line_result_is_Some.
      assert (is_Some (line_result false (escape query) p
                         (split_nl content) i ln)) as Hsome by eauto.
      apply line_result_is_Some in Hsome as [pos Hpos].
      exists pos. by apply occurs_at_ignorecase. }
    exists y. split.
    + apply list_elem_of_In, in_flat_map. exists p. split; [done|].
      apply list_elem_of_In. unfold contribution. rewrite Hread.
      unfold file_results. apply list_elem_of_omap.
      exists (Some y). split; [|done].
      apply elem_of_lookup_imap. by exists i, ln.
    + unfold line_result in Hx, Hy.
      destruct (search false _ _ _); [|done].
      destruct (search true _ _ _); [|done].
      injection Hx as <-. injection Hy as <-. done.
Qed.

Lemma search_content_ignorecase_witness :
  ∃ rs ri,
    search_content sample_world (str "a") (Some (str "/doc.adoc")) true
    = Ok (Success rs)
    ∧ search_content sample_world (str "a") (Some (str "/doc.adoc")) false
      = Ok (Success ri)
    ∧ total_matches rs = 2 ∧ total_matches ri = 4.
Proof.
  eexists.
  destruct (search_content_ignorecase sample_world (str "a")
              (Some (str "/doc.adoc")) _ ltac:(vm_compute; reflexivity))
    as (ri & Hrun & _).
  exists ri. split; [reflexivity|]. split; [exact Hrun|].
  split; [reflexivity|].
  vm_compute in Hrun. injection Hrun as <-. reflexivity.
Defined.

(** The empty pattern matches at every offset of a line, its end
    included. *)
Lemma iter_empty ic s :
  ∀ f pos, f = S (length s) - pos →
    iter ic [] s pos f = (λ i, mk_rmatch i i []) <$> seq pos f.
Proof.
  induction f as [|f IH]; intros pos Hf; [done|].
  cbn [iter]. unfold search. rewrite <- Hf. cbn [scan match_here].
  unfold resume. cbn [mend mstart]. rewrite Nat.eqb_refl.
  cbn [seq fmap list_fmap]. f_equal. apply IH. lia.
Qed.

Lemma finditer_empty ic s :
  finditer ic [] s 0 = (λ i, mk_rmatch i i []) <$> seq 0 (S (length s)).
Proof. unfold finditer. apply iter_empty. lia. Qed.

(** An enumeration that keeps every line. *)
Lemma omap_imap_all {A B} (l : list A) :
  ∀ (f : nat → A → option B) (g : nat → A → B),
    (∀ j a, f j a = Some (g j a)) → omap id (imap f l) = imap g l.
Proof.
  induction l as [|a l IH]; intros f g Hfg; [done|].
  rewrite !imap_cons. cbn [omap list_omap id]. rewrite Hfg. f_equal.
  apply IH. intros j a'. apply Hfg.
Qed.

(** X22. The empty query matches every line.  A search of a readable
    file for the empty string reports all its lines, [total_matches] being
    the number of lines, and the spans of a line are the empty spans at
    each of its offsets, its end included. *)
Theorem search_content_empty_query (w : world) (file_path content : text)
    (case_sensitive : bool) :
  file_path ≠ [] →
  exists_ w (Path w file_path) = Ok true →
  read_text w (Path w file_path) = Ok content →
  ∃ r,
    search_content w [] (Some file_path) case_sensitive = Ok (Success r)
    ∧ total_matches r = count_nl content + 1
    ∧ ∀ i ln, split_nl content !! i = Some ln →
        ∃ x, results r !! i = Some x
             ∧ line_number x = i + 1
             ∧ Proc.line x = strip ln
             ∧ match_positions x
               = (λ k, (k, k)) <$> seq 0 (S (length ln)).
Proof.
  intros Hne Hex Hread.
  assert (files_to_search w (Some file_path) = Some [Path w file_path])
    as Hfiles.
  { unfold files_to_search.
    destruct file_path as [|c rest]; [done|]. cbn [truthy]. by rewrite Hex. }
  eexists. split; [by apply search_content_run|].
  cbn [total_matches results flat_map]. rewrite app_nil_r.
  unfold contribution. rewrite Hread. unfold file_results.
  set (ic := negb case_sensitive). set (p := Path w file_path).
  set (lines := split_nl content).
  rewrite (omap_imap_all lines (line_result ic (escape []) p lines)
             (λ i ln,
                {| file := p;
                   line_number := i + 1;
                   line := strip ln;
                   context :=
                     take (Nat.min (length lines) (i + 3) - Nat.max 0 (i - 2))
                          (drop (Nat.max 0 (i - 2)) lines);
                   match_positions := span <$> finditer ic (escape []) ln 0
                |})).
  2:{ intros j a. unfold line_result, escape, lits. cbn [fmap list_fmap].
      unfold search. by rewrite Nat.sub_0_r. }
  split.
  - rewrite length_imap. apply length_split_nl.
  - intros i ln Hln. eexists. rewrite list_lookup_imap, Hln.
    split; [reflexivity|].
    cbn [line_number Proc.line match_positions option_map fmap].
    split; [done|]. split; [done|].
    unfold escape, lits. cbn [list_fmap]. rewrite finditer_empty.
    rewrite <- list_fmap_compose. done.
Qed.

Lemma search_content_empty_query_witness :
  ∃ r,
    search_content overlap_world [] (Some (str "/o.adoc")) false
    = Ok (Success r)
    ∧ total_matches r = 1
    ∧ (match_positions <$> results r) = [[(0, 0); (1, 1); (2, 2); (3, 3)]].
Proof.
  destruct (search_content_empty_query overlap_world (str "/o.adoc")
              (str "aaa") false ltac:(done) ltac:(vm_compute; reflexivity)
              ltac:(vm_compute; reflexivity)) as (r & Hrun & Htotal & _).
  exists r. split; [exact Hrun|]. split; [exact Htotal|].
  vm_compute in Hrun. injection Hrun as <-. reflexivity.
Defined.

(** ** The statistics of [analyze_document_structure] *)

Lemma count_words_le inword s : 2 * count_words inword s ≤ length s + 1.
Proof.
  assert (∀ s, 2 * count_words false s ≤ length s + 1
               ∧ 2 * count_words true s ≤ length s) as Hboth.
  { clear. induction s as [|c s [IHf IHt]]; [simpl; lia|].
    cbn [count_words length]. destruct (isspace c); lia. }
  destruct inword; destruct (Hboth s); lia.
Qed.

Lemma count_words_zero s :
  count_words false s = 0 ↔ Forall (λ c, isspace c = true) s.
Proof.
  induction s as [|c s IH]; [by split|].
  cbn [count_words]. rewrite Forall_cons.
  destruct (isspace c); [by rewrite IH; tauto|].
  split; [lia | by intros [? _]].
Qed.

Lemma count_nl_le s : count_nl s ≤ length s.
Proof. unfold count_nl. apply length_filter. Qed.

(** X23. The statistics of a document.  [lines] is the number of pieces
    that [split] at the newline gives, the lines that [search_content]
    numbers, and is at least 1, also for an empty file; [characters] is
    the length of the text; a word takes a character and a separator, so
    that twice [words] is at most [characters + 1]; and [words] is 0
    exactly when the text is whitespace only. *)
Theorem analyze_statistics (w : world) (file_path content : text)
    (include_content : bool) (r : structure_result) :
  read_text w (Path w file_path) = Ok content →
  analyze_document_structure w file_path include_content
  = Ok (Success r) →
  let st := sr_statistics r in
  lines st = length (split_nl content)
  ∧ 1 ≤ lines st ≤ characters st + 1
  ∧ characters st = length content
  ∧ 2 * words st ≤ characters st + 1
  ∧ (words st = 0 ↔ Forall (λ c, isspace c = true) content)
  ∧ (content = [] →
       lines st = 1 ∧ words st = 0 ∧ total_headings r = 0
       ∧ structure r = [] ∧ sr_title r = []).
Proof.
  intros Hread. unfold analyze_document_structure. rewrite Hread.
  destruct (exists_ w (Path w file_path)) as [[|]|?]; cbn [negb bind];
    [|by simpl..].
  destruct (_build_hierarchy _ _) as [[store' structure']|] eqn:Hbuild;
    cbn [try_except]; [|done].
  intros [= <-].
  cbn [sr_statistics lines characters words total_headings structure
       sr_title].
  split_and!.
  - by rewrite length_split_nl.
  - lia.
  - pose proof (count_nl_le content). lia.
  - done.
  - apply count_words_le.
  - apply count_words_zero.
  - intros ->. vm_compute in Hbuild. injection Hbuild as <- <-.
    split_and!; reflexivity.
Qed.

Lemma analyze_statistics_witness :
  ∃ r,
    analyze_document_structure sample_world (str "/doc.adoc") false
    = Ok (Success r)
    ∧ sr_statistics r = {| lines := 9; characters := 52; words := 14 |}
    ∧ lines (sr_statistics r) = length (split_nl sample_doc).
Proof.
  eexists. split; [vm_compute; reflexivity|].
  split; [vm_compute; reflexivity|].
  apply (analyze_statistics sample_world (str "/doc.adoc") sample_doc false _
           ltac:(vm_compute; reflexivity) ltac:(vm_compute; reflexivity)).
Defined.

End ExtraFacts.
